(** * digicomm: digital-communications primitives, embedded and verified

    A shallow embedding of [src/digicomm/__init__.py].

    Conventions of the embedding.
    - A Python call either returns a value or raises: [result A].
      The explicit [raise Exception(msg)] statements of the module are
      [Exception msg]; the errors raised by Python and numpy themselves
      (IndexError, KeyError, ValueError, ZeroDivisionError, ...) keep
      their own constructors.
    - numpy [int] arrays hold 64-bit integers: [Z] with the wrap-around
      written out ([wrap64]).
    - IEEE doubles are idealised as real numbers ([R]); complex samples
      are pairs of reals.  Non-finite values (NaN, Inf) are not modelled
      there: a numpy division whose divisor is zero is Rocq's total
      [Rdiv].  The exception is [rcosdesign], whose branches test doubles
      for equality: its arithmetic is binary64, bit for bit.
    - numpy, scipy and Python built-ins the module calls ([np.convolve],
      slicing, [np.fft.fft], [np.argmax], [np.angle], [blackman],
      [format]) are defined from their documented behaviour. *)

From Stdlib Require Import Reals Lra Lia ZArith List Ascii String Bool.
From Stdlib Require Import Floats.SpecFloat.
From stdpp Require Import base option list strings gmap.
Import ListNotations.

Set Default Proof Using "Type".

(** ** Python results *)

Inductive exn : Type :=
| Exception (msg : string)
| IndexError
| KeyError (key : string)
| ValueError
| ZeroDivisionError
| OverflowError
| TypeError.

Inductive result (A : Type) : Type :=
| Ok (a : A)
| Raise (e : exn).

Arguments Ok {A} a.
Arguments Raise {A} e.

Definition rbind {A B : Type} (r : result A) (k : A -> result B) : result B :=
  match r with
  | Ok a => k a
  | Raise e => Raise e
  end.

Notation "x <- r ;; k" := (rbind r (fun x => k))
  (at level 100, r at next level, right associativity).

(** The spec's [InvalidParameterError] is the module's own
    [raise Exception(...)]. *)
Definition InvalidParameterError (e : exn) : bool :=
  match e with
  | Exception _ => true
  | _ => false
  end.

Definition fails_with_InvalidParameterError {A : Type} (r : result A) : bool :=
  match r with
  | Raise e => InvalidParameterError e
  | Ok _ => false
  end.

(** A [for] loop whose body may raise: the accumulator is threaded
    through the iterations in order. *)
Fixpoint for_each {S I : Type} (body : I -> S -> result S) (range : list I) (s : S)
  : result S :=
  match range with
  | [] => Ok s
  | i :: rest => s' <- body i s ;; for_each body rest s'
  end.

(** ** Python sequences: indexing and slicing *)

Section Sequences.
Context {A : Type}.

Definition len (l : list A) : Z := Z.of_nat (length l).

(** [l[i]]: a negative index counts from the end. *)
Definition getitem (l : list A) (i : Z) : result A :=
  let j := if (i <? 0)%Z then (i + len l)%Z else i in
  if (j <? 0)%Z then Raise IndexError
  else match l !! Z.to_nat j with
       | Some a => Ok a
       | None => Raise IndexError
       end.

(** [l[i] = v] *)
Definition setitem (l : list A) (i : Z) (v : A) : result (list A) :=
  let j := if (i <? 0)%Z then (i + len l)%Z else i in
  if ((j <? 0) || (len l <=? j))%Z then Raise IndexError
  else Ok (<[Z.to_nat j := v]> l).

(** Bounds of the slice [start:stop] on a sequence of length [n]. *)
Definition slice_bound (n i : Z) : Z :=
  if (i <? 0)%Z then Z.max 0 (i + n) else Z.min i n.

Definition slice_start (l : list A) (start : Z) : nat :=
  Z.to_nat (slice_bound (len l) start).

Definition slice_len (l : list A) (start stop : Z) : nat :=
  Z.to_nat (slice_bound (len l) stop - slice_bound (len l) start).

(** [l[start:stop]] *)
Definition slice (l : list A) (start stop : Z) : list A :=
  take (slice_len l start stop) (drop (slice_start l start) l).

(** [l[start:stop] = v] on a numpy array: [v] has the shape of the slice
    or is broadcast from length one. *)
Definition setslice (l : list A) (start stop : Z) (v : list A) : result (list A) :=
  let s := slice_start l start in
  let n := slice_len l start stop in
  if (length v =? n)%nat then Ok (take s l ++ v ++ drop (s + n) l)
  else match v with
       | [a] => Ok (take s l ++ replicate n a ++ drop (s + n) l)
       | _ => Raise ValueError
       end.

(** [l[start:stop] = a] with a scalar [a]. *)
Definition fillslice (l : list A) (start stop : Z) (a : A) : list A :=
  let s := slice_start l start in
  let n := slice_len l start stop in
  take s l ++ replicate n a ++ drop (s + n) l.

(** Element-wise binary operation of numpy with broadcasting of a
    length-one operand. *)
Definition broadcast2 {B C : Type} (f : A -> B -> C) (a : list A) (b : list B)
  : result (list C) :=
  if (length a =? length b)%nat then Ok (zip_with f a b)
  else match a, b with
       | [x], _ => Ok (map (f x) b)
       | _, [y] => Ok (map (fun x => f x y) a)
       | _, _ => Raise ValueError
       end.
End Sequences.

(** [range(lo, hi)] *)
Definition range (lo hi : Z) : list Z :=
  map (fun k => (lo + Z.of_nat k)%Z) (seq 0 (Z.to_nat (hi - lo))).

(** ** 64-bit integers *)

Definition wrap64 (x : Z) : Z :=
  ((x + 2 ^ 63) mod 2 ^ 64 - 2 ^ 63)%Z.

(** [int(np.log2(M))] for a Python int [M].  [np.log2] of an int beyond
    the 64-bit range has no numeric loop; of zero it is [-inf] and of a
    negative number [nan], neither of which [int] converts.  Exact for
    powers of two. *)
Definition int_log2 (M : Z) : result Z :=
  if (M =? 0)%Z then Raise OverflowError
  else if (M <? 0)%Z then Raise ValueError
  else if (2 ^ 64 <=? M)%Z then Raise TypeError
  else Ok (Z.log2 M).

(** Python's built-in [sum] over the elements of an int64 array. *)
Definition sum64 (l : list Z) : Z :=
  fold_left (fun acc x => wrap64 (acc + x)) l 0%Z.

(** ** Bit / symbol mapping *)

(** [2**np.arange(n-1,-1,-1)] *)
Definition weights (n : Z) : list Z :=
  map (fun k => wrap64 (2 ^ (n - 1 - k))) (range 0 n).

Definition bitsToSymbols (bits : list Z) (M : Z) : result (list Z) :=
  n <- int_log2 M ;;
  nsym <- (if (n =? 0)%Z then Raise ZeroDivisionError else Ok (len bits / n)%Z) ;;
  let symbols := replicate (Z.to_nat nsym) 0%Z in
  let w := weights n in
  for_each (fun i symbols =>
              p <- broadcast2 (fun b wk => wrap64 (b * wk)) (slice bits (i * n) ((i + 1) * n)) w ;;
              setitem symbols i (sum64 p))
           (range 0 nsym) symbols.

(** Binary digits of a positive number, most significant first. *)
Fixpoint pos_digits (p : positive) : list ascii :=
  match p with
  | xH => ["1"%char]
  | xO q => pos_digits q ++ ["0"%char]
  | xI q => pos_digits q ++ ["1"%char]
  end.

Definition zero_pad (width : nat) (s : list ascii) : list ascii :=
  replicate (width - length s) "0"%char ++ s.

(** [format(v, '0' + str(n) + 'b')] *)
Definition format_0b (v : Z) (n : nat) : list ascii :=
  match v with
  | Z0 => zero_pad n ["0"%char]
  | Zpos p => zero_pad n (pos_digits p)
  | Zneg p => "-"%char :: zero_pad (n - 1) (pos_digits p)
  end.

(** Storing a one-character string into an int array: [int(c)]. *)
Definition int_of_char (c : ascii) : result Z :=
  if Ascii.eqb c "0" then Ok 0%Z
  else if Ascii.eqb c "1" then Ok 1%Z
  else Raise ValueError.

Definition symbolsToBits (syms : list Z) (M : Z) : result (list Z) :=
  n <- int_log2 M ;;
  let bits := replicate (Z.to_nat (len syms * n)) 0%Z in
  for_each (fun i bits =>
              sym <- getitem syms i ;;
              let s := format_0b sym (Z.to_nat n) in
              for_each (fun j bits =>
                          c <- getitem s j ;;
                          b <- int_of_char c ;;
                          setitem bits (i * n + j) b)
                       (range 0 n) bits)
           (range 0 (len syms)) bits.

(** ** Real and complex samples *)

Local Open Scope R_scope.

Record C : Type := mkC { Re : R; Im : R }.

Definition RtoC (x : R) : C := mkC x 0.
Definition C0 : C := RtoC 0.
Definition C1 : C := RtoC 1.
Definition Cadd (a b : C) : C := mkC (Re a + Re b) (Im a + Im b).
Definition Csub (a b : C) : C := mkC (Re a - Re b) (Im a - Im b).
Definition Cmul (a b : C) : C :=
  mkC (Re a * Re b - Im a * Im b) (Re a * Im b + Im a * Re b).
Definition Cscale (z : C) (r : R) : C := mkC (Re z * r) (Im z * r).
Definition Cconj (a : C) : C := mkC (Re a) (- Im a).
Definition Cabs (a : C) : R := sqrt (Re a * Re a + Im a * Im a).

(** [np.exp(1j*p)] *)
Definition Cexpj (p : R) : C := mkC (cos p) (sin p).

(** [np.arctan2(y, x)] *)
Definition arctan2 (y x : R) : R :=
  if Rlt_dec 0 x then atan (y / x)
  else if Rlt_dec x 0 then
         (if Rle_dec 0 y then atan (y / x) + PI else atan (y / x) - PI)
  else if Rlt_dec 0 y then PI / 2
  else if Rlt_dec y 0 then - (PI / 2)
  else 0.

(** [np.angle(z)] *)
Definition angle (z : C) : R := arctan2 (Im z) (Re z).

(** numpy orders complex numbers lexicographically. *)
Definition Clt (a b : C) : bool :=
  if Rlt_dec (Re a) (Re b) then true
  else if Req_dec_T (Re a) (Re b) then (if Rlt_dec (Im a) (Im b) then true else false)
  else false.

Fixpoint argmax_from (l : list C) (i : nat) (best : C) (ibest : nat) : nat :=
  match l with
  | [] => ibest
  | x :: t => if Clt best x then argmax_from t (S i) x i
              else argmax_from t (S i) best ibest
  end.

(** [np.argmax]: the index of the first maximum. *)
Definition argmax (l : list C) : result Z :=
  match l with
  | [] => Raise ValueError
  | x :: t => Ok (Z.of_nat (argmax_from t 1 x 0))
  end.

(** [np.zeros((n,))] *)
Definition zeros (n : Z) : result (list R) :=
  if (n <? 0)%Z then Raise ValueError else Ok (replicate (Z.to_nat n) 0).

(** ** Convolution *)

Section Convolve.
Context {X D O : Type}.
Variable mul : X -> D -> O.
Variable add : O -> O -> O.
Variable zero : O.

Fixpoint padd (a b : list O) : list O :=
  match a, b with
  | [], _ => b
  | _, [] => a
  | x :: a', y :: b' => add x y :: padd a' b'
  end.

Fixpoint convolve_full (x : list X) (d : list D) : list O :=
  match x with
  | [] => []
  | x0 :: x' => padd (map (mul x0) d) (zero :: convolve_full x' d)
  end.

(** [np.convolve(x, d)] (mode 'full'): neither operand may be empty. *)
Definition convolve (x : list X) (d : list D) : result (list O) :=
  match x, d with
  | [], _ | _, [] => Raise ValueError
  | _, _ => Ok (convolve_full x d)
  end.
End Convolve.

Definition convolveR : list R -> list R -> result (list R) :=
  convolve Rmult Rplus 0.
Definition convolveC : list C -> list R -> result (list C) :=
  convolve Cscale Cadd C0.

(** ** Frequency-offset estimation *)

(** [nonLinearXform] of both estimators; [order] is 12 for 16-APSK and 4
    for QPSK. *)
Definition nonLinearXform (order : Z) (z : list C) : list C :=
  map (fun z =>
         let zz_m := Cmul z (Cconj z) in
         let zz_p := IZR order * angle z in
         Cmul zz_m (Cexpj zz_p)) z.

(** [np.fft.fft(z, n)]: [z] is cropped or zero-padded to [n] samples, and
    bin [k] is the sum of [z[m] * exp(-2j*pi*k*m/n)]. *)
Definition resize (z : list C) (n : nat) : list C :=
  take n z ++ replicate (n - length z) C0.

Definition twiddle (n k m : nat) : C :=
  Cexpj (- (2 * PI * INR k * INR m / INR n)).

Definition Csum (l : list C) : C := fold_right Cadd C0 l.

Definition dft_bin (z : list C) (n k : nat) : C :=
  Csum (imap (fun m zm => Cmul zm (twiddle n k m)) z).

Definition fft (z : list C) (n : Z) : result (list C) :=
  if (n <? 1)%Z then Raise ValueError
  else Ok (map (dft_bin (resize z (Z.to_nat n)) (Z.to_nat n)) (seq 0 (Z.to_nat n))).

(** [np.sign] *)
Definition sign (x : R) : R :=
  if Rlt_dec 0 x then 1 else if Rlt_dec x 0 then -1 else 0.

(** The bodies of [freqOffsetEstimation16Apsk] and
    [freqOffsetEstimationQpsk] are the same text up to the constant
    [order]. *)
Definition freqOffsetEstimation (order : Z) (rx : list C) (mode : string)
  : result R :=
  let z := nonLinearXform order rx in
  let Lfft := (2 * len z)%Z in
  ZZ <- fft z Lfft ;;
  let PP2 := zip_with Cmul ZZ (map Cconj ZZ) in
  idx_max <- argmax PP2 ;;
  let vhat2 :=
    if (Lfft / 2 <=? idx_max)%Z
    then IZR (idx_max - Lfft) / IZR (Lfft * order)
    else IZR idx_max / IZR (Lfft * order) in
  p1 <- getitem PP2 (idx_max - 1) ;;
  let II1 := Cabs p1 in
  p2 <- getitem PP2 idx_max ;;
  let II2 := Cabs p2 in
  p3 <- getitem PP2 (idx_max + 1) ;;
  let II3 := Cabs p3 in
  let II0 := Rmax II1 II3 in
  if String.eqb mode "interp_1" then
    Ok (vhat2 + 1 / IZR (order * Lfft) * 0.5 * (II1 - II3) / (II1 - 2 * II2 + II3))
  else if String.eqb mode "interp_2" then
    Ok (vhat2 + sign (II3 - II1) / IZR Lfft * II0 / (II2 - II0) / 2 / 2 / PI / IZR order)
  else if String.eqb mode "gauss" then
    Ok (vhat2 + ((1 / IZR Lfft) * (ln II1 - ln II3) / (ln II1 - 2 * ln II2 + ln II3))
                / (2 * IZR order * PI))
  else if String.eqb mode "coarse" then
    Ok vhat2
  else Raise (Exception "Invalid mode.").

Definition freqOffsetEstimation16Apsk (rx : list C) (mode : string) : result R :=
  freqOffsetEstimation 12 rx mode.

Definition freqOffsetEstimationQpsk (rx : list C) (mode : string) : result R :=
  freqOffsetEstimation 4 rx mode.

(** The peak bin the estimators search for. *)
Definition peak_bin (order : Z) (rx : list C) : result Z :=
  let z := nonLinearXform order rx in
  ZZ <- fft z (2 * len z) ;;
  argmax (zip_with Cmul ZZ (map Cconj ZZ)).

(** The mapping of the peak bin to cycles/sample. *)
Definition coarse_map (order Lfft idx_max : Z) : R :=
  if (Lfft / 2 <=? idx_max)%Z
  then IZR (idx_max - Lfft) / IZR (Lfft * order)
  else IZR idx_max / IZR (Lfft * order).

Definition known_mode (mode : string) : bool :=
  String.eqb mode "coarse" || String.eqb mode "gauss"
  || String.eqb mode "interp_1" || String.eqb mode "interp_2".

(** ** Filter-coefficient design *)

(** [np.linspace(a, b, M)] *)
Definition linspace (a b : R) (M : Z) : list R :=
  if (M =? 1)%Z then [a]
  else map (fun i => a + IZR i * ((b - a) / IZR (M - 1))) (range 0 M).

(** [scipy.signal.windows.blackman(M)]: the cosine-sum window with
    weights 0.42, 0.50, 0.08 over [linspace(-pi, pi, M)]. *)
Definition blackman (M : Z) : result (list R) :=
  if (M <? 0)%Z then Raise ValueError
  else if (M =? 0)%Z then Ok []
  else if (M =? 1)%Z then Ok [1]
  else Ok (map (fun fac => 0.42 + 0.50 * cos fac + 0.08 * cos (2 * fac))
               (linspace (- PI) PI M)).

(** [(-1)**n] for an integer-valued [n] *)
Definition pow_m1 (n : Z) : R := if Z.even n then 1 else -1.

(** Python's [a / b] on scalars. *)
Definition pydiv (a b : R) : result R :=
  if Req_dec_T b 0 then Raise ZeroDivisionError else Ok (a / b).

Definition createDerivativeFilter (N : Z) (Tsamp : R) : result (list R) :=
  if negb ((N + 1) mod 4 =? 0)%Z
  then Raise (Exception "createDerivativeFilter: N must be of form 4*n-1")
  else
    (* N is odd here, so (N-1)/2 is an integer *)
    let ndmin := (- ((N - 1) / 2))%Z in
    let ndmax := ((N - 1) / 2)%Z in
    let nd := range ndmin (ndmax + 1) in
    inv <- pydiv 1 Tsamp ;;
    let d := map (fun n => if (n =? 0)%Z then 0 else inv * pow_m1 n / IZR n) nd in
    w <- blackman N ;;
    broadcast2 Rmult d w.

Definition fractionalDelayCoeffs (T dT : R) (L : Z) : result (list R) :=
  let n := range (- L) (L + 1) in
  q <- pydiv dT T ;;
  let x := map (fun n => (IZR n + q) * PI) n in
  Ok (map (fun x => if Req_dec_T x 0 then 1 else sin x / x) x).

(** ** Edge-corrected filtering *)

(** [int((N-1)/2)]: truncation toward zero. *)
Definition pad_of (N : Z) : Z := Z.quot (N - 1) 2.

(** [np.arange(hi, 0, step=-1)] and [np.arange(1, hi+1)] *)
Definition arange_down (hi : Z) : list Z := map (fun k => (hi - k)%Z) (range 0 hi).
Definition arange_up (hi : Z) : list Z := range 1 (hi + 1).

Definition derivativeFilter2 (x : list C) (N : Z) (Tsamp : R) (zero_edge : bool)
  : result (list C) :=
  d <- createDerivativeFilter N Tsamp ;;
  let pad := pad_of N in
  c <- convolveC x d ;;
  let xd := slice c pad (- pad) in
  if zero_edge then
    let xd := fillslice xd 0 pad C0 in
    let xd := fillslice xd (- pad) (-1) C0 in
    setitem xd (-1) C0
  else Ok xd.

(** Lines 278-286 and 310-318 of the module are the same text: the signal
    is stored into a real buffer [x2] (a complex sample keeps its real
    part only), extended linearly on both sides, convolved and trimmed. *)
Definition extrapolate_convolve (x : list C) (pad : Z) (d : list R)
  : result (list R) :=
  x2 <- zeros (len x + 2 * pad) ;;
  x2 <- setslice x2 pad (- pad) (map Re x) ;;
  x_0 <- getitem x 0 ;;
  x_1 <- getitem x 1 ;;
  let left := map (fun k => Csub x_0 (Cscale (Csub x_1 x_0) (IZR k))) (arange_down pad) in
  x2 <- setslice x2 0 pad (map Re left) ;;
  x_m1 <- getitem x (-1) ;;
  x_m2 <- getitem x (-2) ;;
  let right := map (fun k => Cadd x_m1 (Cscale (Csub x_m1 x_m2) (IZR k))) (arange_up pad) in
  x2 <- setslice x2 (len x2 - pad) (len x2) (map Re right) ;;
  c <- convolveR x2 d ;;
  Ok (slice c (2 * pad) (- (2 * pad))).

Definition derivativeFilter (x : list C) (N : Z) (Tsamp : R) : result (list R) :=
  d <- createDerivativeFilter N Tsamp ;;
  extrapolate_convolve x (pad_of N) d.

Definition fractionalDelayFilter (x : list C) (gamma : R) (N : Z) : result (list R) :=
  d <- fractionalDelayCoeffs 1 gamma (N / 2) ;;
  extrapolate_convolve x (pad_of N) d.

(** ** Pulse shaping *)

(** [rcosdesign] compares sample times for equality and divides by
    expressions that vanish at isolated times, so what it returns depends
    on how the times are rounded.  Its arithmetic is modelled in binary64
    itself: IEEE 754 doubles with 53 bits of precision, rounded to nearest
    even, with their zeros, infinities and NaN. *)
Abbreviation f64 := spec_float.

Definition fadd : f64 -> f64 -> f64 := SFadd 53 1024.
Definition fsub : f64 -> f64 -> f64 := SFsub 53 1024.
Definition fmul : f64 -> f64 -> f64 := SFmul 53 1024.
Definition fdiv : f64 -> f64 -> f64 := SFdiv 53 1024.
Definition fsqrt : f64 -> f64 := SFsqrt 53 1024.
Definition fneg : f64 -> f64 := SFopp.

(** [a == b] on doubles: false when either side is NaN, true for the two
    zeros. *)
Definition feqb : f64 -> f64 -> bool := SFeqb.

(** The double nearest to an integer. *)
Definition f64_of_Z (z : Z) : f64 := binary_normalize 53 1024 z 0 false.

(** [np.pi], the double 0x1.921fb54442d18p+1. *)
Definition np_pi : f64 := S754_finite false 7074237752028440 (-51).

(** [float(n)] of a Python int. *)
Definition float_of_int (n : Z) : result f64 :=
  match f64_of_Z n with
  | S754_infinity _ => Raise OverflowError
  | f => Ok f
  end.

(** [a / b] on Python floats. *)
Definition float_truediv (a b : f64) : result f64 :=
  if feqb b (f64_of_Z 0) then Raise ZeroDivisionError else Ok (fdiv a b).

(** [np.zeros(n, dtype=float)] *)
Definition f64_zeros (n : Z) : result (list f64) :=
  if (n <? 0)%Z then Raise ValueError
  else Ok (replicate (Z.to_nat n) (f64_of_Z 0)).

(** [a @ b] on one-dimensional arrays, the products added in the order of
    the samples. *)
Definition fdot (a b : list f64) : f64 :=
  fold_left fadd (zip_with fmul a b) (f64_of_Z 0).

(** [(x - N/2) * T_delta]: the time of sample [x]. *)
Definition sample_time (N : Z) (T_delta : f64) (x : Z) : f64 :=
  fmul (fsub (f64_of_Z x) (fdiv (f64_of_Z N) (f64_of_Z 2))) T_delta.

(** [h / np.sqrt(h @ h)] *)
Definition normalise (h : list f64) : list f64 :=
  map (fun hk => fdiv hk (fsqrt (fdot h h))) h.

Section PulseShaping.

(** [np.sin] and [np.cos] on doubles are the functions of the platform's
    mathematical library; their roundings are not fixed by a standard,
    and they are parameters here. *)
Variable np_sin np_cos : f64 -> f64.

(** The divisor of the general formula of the 'sqrt' branch. *)
Definition rrc_denominator (alpha Ts t : f64) : f64 :=
  fdiv (fmul (fmul np_pi t)
             (fsub (f64_of_Z 1)
                   (fmul (fdiv (fmul (fmul (f64_of_Z 4) alpha) t) Ts)
                         (fdiv (fmul (fmul (f64_of_Z 4) alpha) t) Ts))))
       Ts.

(** The value stored at [t = Ts/(4*alpha)] and at [t = -Ts/(4*alpha)]. *)
Definition rrc_special (alpha : f64) : f64 :=
  fmul (fdiv alpha (fsqrt (f64_of_Z 2)))
       (fadd (fmul (fadd (f64_of_Z 1) (fdiv (f64_of_Z 2) np_pi))
                   (np_sin (fdiv np_pi (fmul (f64_of_Z 4) alpha))))
             (fmul (fsub (f64_of_Z 1) (fdiv (f64_of_Z 2) np_pi))
                   (np_cos (fdiv np_pi (fmul (f64_of_Z 4) alpha))))).

(** One iteration of the loop of the 'sqrt' branch, at time [t]. *)
Definition rrc_tap (alpha Ts t : f64) : f64 :=
  if feqb t (f64_of_Z 0) then
    fadd (fsub (f64_of_Z 1) alpha) (fdiv (fmul (f64_of_Z 4) alpha) np_pi)
  else if negb (feqb alpha (f64_of_Z 0))
          && feqb t (fdiv Ts (fmul (f64_of_Z 4) alpha)) then
    rrc_special alpha
  else if negb (feqb alpha (f64_of_Z 0))
          && feqb t (fdiv (fneg Ts) (fmul (f64_of_Z 4) alpha)) then
    rrc_special alpha
  else
    fdiv (fadd (np_sin (fdiv (fmul (fmul np_pi t) (fsub (f64_of_Z 1) alpha)) Ts))
               (fmul (fmul (fmul (f64_of_Z 4) alpha) (fdiv t Ts))
                     (np_cos (fdiv (fmul (fmul np_pi t) (fadd (f64_of_Z 1) alpha)) Ts))))
         (rrc_denominator alpha Ts t).

(** The divisor of the general formula of the 'normal' branch. *)
Definition rc_denominator (alpha Ts t : f64) : f64 :=
  fsub (f64_of_Z 1)
       (fmul (fdiv (fmul (fmul (f64_of_Z 2) alpha) t) Ts)
             (fdiv (fmul (fmul (f64_of_Z 2) alpha) t) Ts)).

(** [np.sin(np.pi*t/Ts)/(np.pi*t/Ts)] *)
Definition rc_sinc (Ts t : f64) : f64 :=
  fdiv (np_sin (fdiv (fmul np_pi t) Ts)) (fdiv (fmul np_pi t) Ts).

(** One iteration of the loop of the 'normal' branch, at time [t]. *)
Definition rc_tap (alpha Ts t : f64) : f64 :=
  if feqb t (f64_of_Z 0) then f64_of_Z 1
  else if negb (feqb alpha (f64_of_Z 0))
          && feqb t (fdiv Ts (fmul (f64_of_Z 2) alpha)) then
    fmul (fdiv np_pi (f64_of_Z 4)) (rc_sinc Ts t)
  else if negb (feqb alpha (f64_of_Z 0))
          && feqb t (fdiv (fneg Ts) (fmul (f64_of_Z 2) alpha)) then
    fmul (fdiv np_pi (f64_of_Z 4)) (rc_sinc Ts t)
  else
    fmul (rc_sinc Ts t)
         (fdiv (np_cos (fdiv (fmul (fmul np_pi alpha) t) Ts))
               (rc_denominator alpha Ts t)).

(** The taps before normalisation: the loop over [sample_num] followed by
    [np.append(h, h[0])]. *)
Definition rcos_raw (alpha : f64) (span sps : Z) (Ts : f64) (shape : string)
  : result (list f64) :=
  let N := (span * sps)%Z in
  fsps <- float_of_int sps ;;
  T_delta <- float_truediv Ts fsps ;;
  h <- f64_zeros N ;;
  let sample_num := range 0 N in
  let tap_at (tap : f64 -> f64 -> f64 -> f64) :=
    map (fun x => tap alpha Ts (sample_time N T_delta x)) sample_num in
  let h := if String.eqb shape "sqrt" then tap_at rrc_tap
           else if String.eqb shape "normal" then tap_at rc_tap
           else h in
  h0 <- getitem h 0 ;;
  Ok (h ++ [h0]).

Definition rcosdesign (alpha : f64) (span sps : Z) (Ts : f64) (shape : string)
  : result (list f64 * list f64) :=
  let N := (span * sps)%Z in
  fsps <- float_of_int sps ;;
  T_delta <- float_truediv Ts fsps ;;
  let time_idx := map (sample_time N T_delta) (range 0 (N + 1)) in
  h <- rcos_raw alpha span sps Ts shape ;;
  Ok (normalise h, time_idx).

End PulseShaping.

(** A double that is an infinity or NaN. *)
Definition not_finite (x : f64) : bool :=
  match x with
  | S754_nan | S754_infinity _ => true
  | _ => false
  end.

Definition is_zero (x : f64) : bool :=
  match x with
  | S754_zero _ => true
  | _ => false
  end.

(** The time [t] passes none of the three equality tests of the 'sqrt'
    branch, and the divisor of the general formula is zero there. *)
Definition rrc_missed (alpha Ts t : f64) : bool :=
  negb (feqb t (f64_of_Z 0))
  && negb (negb (feqb alpha (f64_of_Z 0))
           && feqb t (fdiv Ts (fmul (f64_of_Z 4) alpha)))
  && negb (negb (feqb alpha (f64_of_Z 0))
           && feqb t (fdiv (fneg Ts) (fmul (f64_of_Z 4) alpha)))
  && is_zero (rrc_denominator alpha Ts t).

(** The same for the 'normal' branch. *)
Definition rc_missed (alpha Ts t : f64) : bool :=
  negb (feqb t (f64_of_Z 0))
  && negb (negb (feqb alpha (f64_of_Z 0))
           && feqb t (fdiv Ts (fmul (f64_of_Z 2) alpha)))
  && negb (negb (feqb alpha (f64_of_Z 0))
           && feqb t (fdiv (fneg Ts) (fmul (f64_of_Z 2) alpha)))
  && is_zero (rc_denominator alpha Ts t).

(** ** Noise injection *)

(** The process-wide pseudorandom source, passed explicitly: the draws of
    a standard normal still to come and the position reached. *)
Record rng : Type := mkRng { draws : nat -> R; position : nat }.

(** [np.random.normal(scale=s, size=(n,))] *)
Definition random_normal (s : R) (n : nat) (g : rng) : list R * rng :=
  (map (fun k => s * draws g (position g + k)%nat) (seq 0 n),
   mkRng (draws g) (position g + n)).

Definition noiseVariance (SNR Eb : R) : R := Eb / Rpower 10 (SNR / 10).

(** [kwargs[key]] *)
Definition kwarg (kwargs : gmap string R) (key : string) : result R :=
  match kwargs !! key with
  | Some v => Ok v
  | None => Raise (KeyError key)
  end.

(** [key in kwargs.keys()] *)
Definition has_key (kwargs : gmap string R) (key : string) : bool :=
  bool_decide (is_Some (kwargs !! key)).

(** Truth value of a non-empty string literal. *)
Definition truthy (s : string) : bool := negb (String.eqb s "").

Definition addNoise (iqs : list C) (kwargs : gmap string R) (g : rng)
  : result (list C * rng) :=
  N0 <- (if truthy "SNR" && has_key kwargs "Eb" then
           SNR <- kwarg kwargs "SNR" ;;
           Eb <- kwarg kwargs "Eb" ;;
           Ok (noiseVariance SNR Eb)
         else if has_key kwargs "N0" then kwarg kwargs "N0"
         else Raise (Exception "addNoise(): must specify N0 or SNR & Eb in kwargs.")) ;;
  let var := N0 / 2 in
  let (nr, g) := random_normal (sqrt var) (length iqs) g in
  let (ni, g) := random_normal (sqrt var) (length iqs) g in
  noise <- broadcast2 (fun a b => Cadd (RtoC a) (Cmul (mkC 0 1) (RtoC b))) nr ni ;;
  out <- broadcast2 Cadd iqs noise ;;
  Ok (out, g).

(** ** Vocabulary of the statements *)

Definition is_bit (b : Z) : Prop := b = 0%Z \/ b = 1%Z.

(** The number a group of bits denotes, most significant bit first. *)
Definition msb_value (c : list Z) : Z :=
  fold_left (fun acc b => (2 * acc + b)%Z) c 0%Z.

Definition bit_char (b : Z) : ascii :=
  if (b =? 0)%Z then "0"%char else "1"%char.

(** The first [k] groups of [n] items of a sequence. *)
Fixpoint chunks {A : Type} (n k : nat) (l : list A) : list (list A) :=
  match k with
  | O => []
  | S k' => take n l :: chunks n k' (drop n l)
  end.

Definition sumZ (l : list Z) : Z := fold_right Z.add 0%Z l.

Definition pow2_desc (n : Z) : list Z :=
  map (fun k => (2 ^ (n - 1 - k))%Z) (range 0 n).

(** Tap [i] of the derivative filter in closed form: the kernel at the
    centred index times the window. *)
Definition deriv_tap (N : Z) (Tsamp : R) (i : Z) : R :=
  let n := (- ((N - 1) / 2) + i)%Z in
  let fac := - PI + IZR i * ((PI - - PI) / IZR (N - 1)) in
  (if (n =? 0)%Z then 0 else 1 / Tsamp * pow_m1 n / IZR n)
  * (0.42 + 0.50 * cos fac + 0.08 * cos (2 * fac)).

(** Tap [i] of the fractional-delay filter in closed form. *)
Definition delay_tap (T dT : R) (L : Z) (i : Z) : R :=
  let x := (IZR (- L + i) + dT / T) * PI in
  if Req_dec_T x 0 then 1 else sin x / x.


Definition rmap {A B : Type} (f : A -> B) (r : result A) : result B :=
  match r with
  | Ok a => Ok (f a)
  | Raise e => Raise e
  end.

(** Blocks of two samples used to exercise the estimators: unit samples
    a small negative angle apart, and the pair (1, 1+j). *)
Definition rx_last_bin_qpsk : list C := [C1; Cexpj (- (PI / 8))].
Definition rx_last_bin_16apsk : list C := [C1; Cexpj (- (PI / 24))].
Definition rx_half_band : list C := [C1; mkC 1 1].

(** ** Peripheral layer *)

(** A loop that builds a sequence, one item per iteration. *)
Fixpoint mapM {A B : Type} (f : A -> result B) (l : list A) : result (list B) :=
  match l with
  | [] => Ok []
  | a :: l' => b <- f a ;; bs <- mapM f l' ;; Ok (b :: bs)
  end.

(** [constellation[syms]]: indexing with an array of indexes. *)
Definition symbolsToIq (syms : list Z) (constellation : list C) : result (list C) :=
  mapM (getitem constellation) syms.

Definition convolveCC : list C -> list C -> result (list C) :=
  convolve Cmul Cadd C0.

Definition matchedFilter (x p : list C) : result (list C) :=
  convolveCC x (rev (map Cconj p)).

(** [np.count_nonzero] *)
Definition count_nonzero (l : list Z) : Z :=
  len (filter (fun d => d <> 0%Z) l).

(** What a division returns: a real number or, where numpy divides by
    zero without raising, an infinity or NaN. *)
Inductive quotient : Type :=
| QNum (r : R)
| QInf (negative : bool)
| QNaN.

(** [count / n] for a count of type numpy integer and a Python int [n]:
    numpy warns on a zero divisor and returns an infinity or NaN. *)
Definition np_true_divide (count n : Z) : quotient :=
  if (n =? 0)%Z then (if (count =? 0)%Z then QNaN else QInf (count <? 0)%Z)
  else QNum (IZR count / IZR n).

(** [np.count_nonzero(d) / n].  Depending on the numpy version
    [np.count_nonzero] returns a numpy integer or a Python int, and the
    division is numpy's or Python's; [numpy_count] is true for the
    former. *)
Definition count_ratio (numpy_count : bool) (count n : Z) : result quotient :=
  if numpy_count then Ok (np_true_divide count n)
  else r <- pydiv (IZR count) (IZR n) ;; Ok (QNum r).

Definition calculateBer (numpy_count : bool) (b1 b2 : list Z) : result quotient :=
  d <- broadcast2 (fun a b => wrap64 (a - b)) b1 b2 ;;
  count_ratio numpy_count (count_nonzero d) (len b1).

Fixpoint argmin_from (l : list R) (i : nat) (best : R) (ibest : nat) : nat :=
  match l with
  | [] => ibest
  | x :: t => if Rlt_dec x best then argmin_from t (S i) x i
              else argmin_from t (S i) best ibest
  end.

(** [np.argmin]: the index of the first minimum. *)
Definition argmin (l : list R) : result Z :=
  match l with
  | [] => Raise ValueError
  | x :: t => Ok (Z.of_nat (argmin_from t 1 x 0))
  end.

Definition makeDecision (iq : C) (constellation : list C) : result Z :=
  argmin (map (fun c => Cabs (Csub c iq)) constellation).

(** An integer reduced to the range of [int8]. *)
Definition wrap8 (x : Z) : Z := ((x + 128) mod 256 - 128)%Z.

(** The value an [int8] array holds after an index is stored into it.
    An index outside [-128, 127] is refused with OverflowError by the
    numpy versions that check the range of a stored integer, and wraps
    around silently in the others; [checked] is true for the former. *)
Definition store_int8 (checked : bool) (x : Z) : result Z :=
  if ((-128 <=? x) && (x <? 128))%Z then Ok x
  else if checked then Raise OverflowError
  else Ok (wrap8 x).

Definition makeDecisions (checked : bool) (iqs constellation : list C)
  : result (list Z) :=
  let idxs := replicate (length iqs) 0%Z in
  for_each (fun i idxs =>
              iq <- getitem iqs i ;;
              k <- makeDecision iq constellation ;;
              v <- store_int8 checked k ;;
              setitem idxs i v)
           (range 0 (len iqs)) idxs.

(** [np.zeros((len(x), L))], its first column set to [x], flattened and
    cut by [0:-(L-1)]. *)
Definition zeroInsert (x : list C) (L : Z) : result (list C) :=
  if (L <? 0)%Z then Raise ValueError
  else
    let z := replicate (length x) (replicate (Z.to_nat L) C0) in
    if (L =? 0)%Z then Raise IndexError
    else
      let z := zip_with (fun row xk => <[0%nat := xk]> row) z x in
      Ok (slice (concat z) 0 (- (L - 1))).

Definition upsample (x p : list C) (L : Z) : result (list C) :=
  train <- zeroInsert x L ;;
  convolveCC train p.



(** [np.arange(-(n-1)//2, (n-1)//2+1)]; the unary minus binds before [//]. *)
Definition zeroCenteredArray (n : Z) : list Z :=
  range ((- (n - 1)) / 2) ((n - 1) / 2 + 1).

Definition frequencyAxis (n : Z) (fs : R) : list R :=
  map (fun k => IZR k / IZR n * fs) (zeroCenteredArray n).

Definition arrayCenter (x y : list R) : result (list R * list R) :=
  let n := len x in
  let m := len y in
  let '(x, y, n, m) := if (n <? m)%Z then (y, x, len y, len x) else (x, y, n, m) in
  z <- zeros n ;;
  let zi := ((n - m) / 2)%Z in
  z <- setslice z zi (zi + m) y ;;
  Ok (x, z).

(** [range(start, -1, -1)] *)
Definition range_downto (start : Z) : list Z := rev (range 0 (start + 1)).

(** The loop of [valleyFill] on a copy of [x]. *)
Definition valleyFill_pass (x : list R) : result (list R) :=
  for_each (fun i x =>
              xi <- getitem x i ;;
              xj <- getitem x (i + 1) ;;
              if Rlt_dec xi xj then setitem x i xj else Ok x)
           (range_downto (len x - 2)) x.

Definition valleyFill (x : list R) (flip : bool) : result (list R) :=
  if flip then rmap (@rev R) (valleyFill_pass (rev x))
  else valleyFill_pass x.

Definition addFrequencyOffset (iqs : list C) (nuT : R) : result (list C) :=
  broadcast2 Cmul iqs
    (map (fun k => Cexpj (2 * PI * IZR k * nuT)) (range 0 (len iqs))).

(** [phase] is [None] or a number; [None] draws a phase from the
    pseudorandom source ([np.random.rand], uniform on [0, 1)). *)
Definition addPhaseOffset (iqs : list C) (phase : option R) (g : rng)
  : list C * rng :=
  let '(phase, g) :=
    match phase with
    | None => (2 * PI * draws g (position g), mkRng (draws g) (position g + 1))
    | Some p => (p, g)
    end in
  (map (fun z => Cmul z (Cexpj phase)) iqs, g).

Definition phaseAmbiguity (rx uw : list C) : result R :=
  p <- broadcast2 Cmul rx (map Cconj uw) ;;
  Ok (angle (Csum p)).

Definition phaseAmbiguityResolution (rx rxuw uw : list C) (g : rng)
  : result (list C * rng) :=
  a <- phaseAmbiguity rxuw uw ;;
  Ok (addPhaseOffset rx (Some (- a)) g).

(** ** Vocabulary of the added statements *)

(** Number of positions at which two sequences differ. *)
Definition differing (b1 b2 : list Z) : Z :=
  len (filter (fun ab => fst ab <> snd ab) (zip b1 b2)).

Definition int64 (x : Z) : Prop := (- 2 ^ 63 <= x < 2 ^ 63)%Z.

(** The running maximum from the right. *)
Fixpoint suffix_max (l : list R) : list R :=
  match l with
  | [] => []
  | a :: l' =>
      match suffix_max l' with
      | [] => [a]
      | b :: r => (if Rlt_dec a b then b else a) :: b :: r
      end
  end.

Fixpoint non_increasing (l : list R) : Prop :=
  match l with
  | [] => True
  | a :: l' => match l' with [] => True | b :: _ => b <= a end /\ non_increasing l'
  end.

Definition rotate (theta : R) (l : list C) : list C :=
  map (fun z => Cmul z (Cexpj theta)) l.

Definition energy (l : list C) : R :=
  fold_right Rplus 0 (map (fun z => Re z * Re z + Im z * Im z) l).

(** The correlation of two sequences at zero lag. *)
Fixpoint corr0 {X D O : Type} (mul : X -> D -> O) (add : O -> O -> O) (zero : O)
         (x : list X) (q : list D) : O :=
  match x, q with
  | x0 :: x', q0 :: q' => add (mul x0 q0) (corr0 mul add zero x' q')
  | _, _ => zero
  end.

(** The samples and the generator [addNoise] returns for a variance [N0]. *)
Definition noisy (iqs : list C) (N0 : R) (g : rng) : list C * rng :=
  let s := sqrt (N0 / 2) in
  let n := length iqs in
  (zip_with Cadd iqs
     (zip_with (fun a b => Cadd (RtoC a) (Cmul (mkC 0 1) (RtoC b)))
        (map (fun k => s * draws g (position g + k)%nat) (seq 0 n))
        (map (fun k => s * draws g (position g + n + k)%nat) (seq 0 n))),
   mkRng (draws g) (position g + n + n)).

(** ** Frequency pulses *)

(** [int(x)] of a float: truncation toward zero. *)
Definition int_trunc (x : R) : Z :=
  if Rle_dec 0 x then Int_part x else (- Int_part (- x))%Z.

(** [np.linspace(a, b, num=M)] with its check of [num]. *)
Definition np_linspace (a b : R) (M : Z) : result (list R) :=
  if (M <? 0)%Z then Raise ValueError else Ok (linspace a b M).

(** [np.ones((n,))] *)
Definition ones (n : Z) : result (list R) :=
  if (n <? 0)%Z then Raise ValueError else Ok (replicate (Z.to_nat n) 1).

Definition lrecPulse (L T fsamp : R) : result (list R * list R) :=
  let leng := int_trunc (L * T * fsamp) in
  t <- np_linspace 0 (L * T) leng ;;
  c <- pydiv 1 (2 * L * T) ;;
  o <- ones leng ;;
  Ok (map (Rmult c) o, t).

Definition lrcPulse (L T fsamp : R) : result (list R * list R) :=
  let leng := int_trunc (L * T * fsamp) in
  t <- np_linspace 0 (L * T) leng ;;
  c <- pydiv 1 (2 * L * T) ;;
  let shape := map (fun tk => c * (1 - cos (2 * PI * tk / (L * T)))) t in
  o <- ones leng ;;
  g <- broadcast2 Rmult shape o ;;
  Ok (g, t).

(** The sum of the samples of a pulse. *)
Definition Rsum (l : list R) : R := fold_right Rplus 0 l.

(** ** Integers to bits *)

(** [bin(v)[2:]] *)
Definition bin_digits (v : Z) : list ascii :=
  match v with
  | Z0 => ["0"%char]
  | Zpos p => pos_digits p
  | Zneg p => "b"%char :: pos_digits p
  end.

(** [np.binary_repr(num, width=width)] for an integer [width].  Where the
    width is too small for the number, recent numpy raises ValueError and
    earlier versions warn and return the longer string; [strict] selects
    the former. *)
Definition binary_repr (strict : bool) (num width : Z) : result (list ascii) :=
  match num with
  | Z0 => Ok (replicate (Z.to_nat (if (width =? 0)%Z then 1 else width)) "0"%char)
  | Zpos _ =>
      let binary := bin_digits num in
      let binwidth := len binary in
      let outwidth := Z.max binwidth width in
      if strict && (width <? binwidth)%Z then Raise ValueError
      else Ok (zero_pad (Z.to_nat outwidth) binary)
  | Zneg _ =>
      let poswidth := len (bin_digits (- num)) in
      let poswidth := if (2 ^ (poswidth - 1) =? - num)%Z then (poswidth - 1)%Z else poswidth in
      let twocomp := (2 ^ (poswidth + 1) + num)%Z in
      let binary := bin_digits twocomp in
      let binwidth := len binary in
      let outwidth := Z.max binwidth width in
      if strict && (width <? binwidth)%Z then Raise ValueError
      else Ok (replicate (Z.to_nat (outwidth - binwidth)) "1"%char ++ binary)
  end.

(** The digits are joined with commas and read back with
    [np.fromstring(t, dtype=int, sep=',')], one integer per digit. *)
Definition intToBinary (strict : bool) (n nbits : Z) : result (list Z) :=
  s <- binary_repr strict n nbits ;;
  mapM int_of_char s.

(** The [n] binary digits of a number, most significant first. *)
Fixpoint to_bits (n : nat) (s : Z) : list Z :=
  match n with
  | O => []
  | S n' => to_bits n' (s / 2) ++ [(s mod 2)%Z]
  end.

(** * Properties *)

(** ** Results *)

Lemma rbind_Ok {A B : Type} (r : result A) (k : A -> result B) (a : A) :
  r = Ok a -> rbind r k = k a.
Proof. intros ->. reflexivity. Qed.

Lemma rbind_inv_Ok {A B : Type} (r : result A) (k : A -> result B) (b : B) :
  rbind r k = Ok b -> exists a, r = Ok a /\ k a = Ok b.
Proof. destruct r as [a|e]; simpl; [eauto | discriminate]. Qed.

(** ** Worked examples from the docstrings *)

Example bitsToSymbols_doc :
  bitsToSymbols [0;1;0;1; 0;0;0;0; 1;1;1;1; 1;0;1;0]%Z 16 = Ok [5; 0; 15; 10]%Z.
Proof. vm_compute. reflexivity. Qed.

Example symbolsToBits_doc :
  symbolsToBits [5; 0; 15; 10]%Z 16 = Ok [0;1;0;1; 0;0;0;0; 1;1;1;1; 1;0;1;0]%Z.
Proof. vm_compute. reflexivity. Qed.

Example bitsToSymbols_M1 : bitsToSymbols [] 1 = Raise ZeroDivisionError.
Proof. vm_compute. reflexivity. Qed.

(** ** Loops that fill an array block by block *)

Lemma for_each_app {S I : Type} (body : I -> S -> result S) (l1 l2 : list I) (s : S) :
  for_each body (l1 ++ l2) s = (s' <- for_each body l1 s ;; for_each body l2 s').
Proof.
  revert s. induction l1 as [|i l1 IH]; intros s; simpl; [reflexivity|].
  destruct (body i s) as [s'|e]; simpl; [apply IH | reflexivity].
Qed.

Lemma range_length (lo hi : Z) : length (range lo hi) = Z.to_nat (hi - lo).
Proof. unfold range. rewrite length_map, length_seq. reflexivity. Qed.

Lemma range_snoc (m : nat) :
  range 0 (Z.of_nat (S m)) = range 0 (Z.of_nat m) ++ [Z.of_nat m].
Proof.
  unfold range. rewrite !Z.sub_0_r, !Nat2Z.id, seq_S, map_app. reflexivity.
Qed.

Lemma range_lookup (lo hi : Z) (k : nat) :
  (k < Z.to_nat (hi - lo))%nat -> range lo hi !! k = Some (lo + Z.of_nat k)%Z.
Proof.
  intros Hk. unfold range. rewrite list_lookup_fmap, lookup_seq_lt by assumption.
  reflexivity.
Qed.

Lemma setitem_nat {A : Type} (l : list A) (i : nat) (v : A) :
  (i < length l)%nat -> setitem l (Z.of_nat i) v = Ok (<[i := v]> l).
Proof.
  intros Hi. unfold setitem, len.
  destruct (Z.ltb_spec (Z.of_nat i) 0) as [?|_]; [lia|].
  destruct (Z.ltb_spec (Z.of_nat i) 0) as [?|_]; [lia|].
  destruct (Z.leb_spec (Z.of_nat (length l)) (Z.of_nat i)) as [?|_]; [lia|].
  simpl. rewrite Nat2Z.id. reflexivity.
Qed.

Lemma getitem_nat {A : Type} (l : list A) (i : nat) (a : A) :
  l !! i = Some a -> getitem l (Z.of_nat i) = Ok a.
Proof.
  intros Hi. unfold getitem.
  destruct (Z.ltb_spec (Z.of_nat i) 0) as [?|_]; [lia|].
  destruct (Z.ltb_spec (Z.of_nat i) 0) as [?|_]; [lia|].
  rewrite Nat2Z.id, Hi. reflexivity.
Qed.

Section Blocks.
Context {A : Type}.
Variable body : Z -> list A -> result (list A).
Variable n base : nat.

(** When iteration [i] overwrites the [i]-th block of width [n] after
    [base], the loop leaves the blocks in order in the array. *)
Lemma for_each_blocks (blks : list (list A)) (l : list A) :
  Forall (fun b => length b = n) blks ->
  (base + length blks * n <= length l)%nat ->
  (forall (i : nat) blk s,
      blks !! i = Some blk -> length s = length l ->
      body (Z.of_nat i) s
      = Ok (take (base + i * n) s ++ blk ++ drop (base + i * n + n) s)) ->
  for_each body (range 0 (len blks)) l
  = Ok (take base l ++ concat blks ++ drop (base + length blks * n) l).
Proof.
  induction blks as [|blk blks IH] using rev_ind; intros Hn Hlen Hbody.
  - simpl. rewrite Nat.add_0_r, take_drop. reflexivity.
  - apply Forall_app in Hn as [Hn Hblk].
    rewrite Forall_singleton in Hblk.
    rewrite length_app in Hlen. simpl in Hlen.
    unfold len. rewrite length_app. simpl length.
    replace (length blks + 1)%nat with (S (length blks)) by lia.
    rewrite range_snoc, for_each_app.
    fold (len blks). rewrite IH; [|assumption|lia|].
    2:{ intros i b s Hi Hs. apply Hbody; [|assumption].
        rewrite lookup_app_l; [assumption|]. eapply lookup_lt_Some; eassumption. }
    simpl. unfold len.
    assert (Hcat : length (concat blks) = (length blks * n)%nat).
    { clear -Hn. induction Hn as [|b bs Hb _ IHb]; simpl; [reflexivity|].
      rewrite length_app, IHb, Hb. reflexivity. }
    rewrite (Hbody (length blks) blk).
    2:{ rewrite lookup_app_r by lia. rewrite Nat.sub_diag. reflexivity. }
    2:{ rewrite !length_app, length_take, length_drop, Hcat. lia. }
    simpl. f_equal.
    rewrite concat_app. simpl. rewrite app_nil_r.
    rewrite take_app_ge; [|rewrite length_take; lia].
    rewrite length_take, Nat.min_l by lia.
    rewrite take_app_ge; [|rewrite Hcat; lia].
    rewrite Hcat.
    replace (base + length blks * n - base - length blks * n)%nat with 0%nat by lia.
    rewrite take_0, app_nil_r.
    rewrite drop_app_ge; [|rewrite length_take; lia].
    rewrite length_take, Nat.min_l by lia.
    rewrite drop_app_ge; [|rewrite Hcat; lia].
    rewrite Hcat, drop_drop.
    rewrite <- !app_assoc. do 3 f_equal. f_equal. lia.
Qed.
End Blocks.

(** The same with blocks of one cell written by [setitem]. *)
Lemma for_each_cells {A : Type} (body : Z -> list A -> result (list A))
      (base : nat) (vals l : list A) :
  (base + length vals <= length l)%nat ->
  (forall (j : nat) v s,
      vals !! j = Some v -> length s = length l ->
      body (Z.of_nat j) s = setitem s (Z.of_nat (base + j)) v) ->
  for_each body (range 0 (len vals)) l
  = Ok (take base l ++ vals ++ drop (base + length vals) l).
Proof.
  intros Hlen Hbody.
  pose proof (for_each_blocks body 1 base (map (fun v => [v]) vals) l) as H.
  unfold len in *. rewrite length_map in H.
  rewrite H; clear H.
  - f_equal. f_equal. f_equal.
    + clear. induction vals; simpl; congruence.
    + f_equal. lia.
  - apply Forall_forall. intros b Hb. apply list_elem_of_fmap in Hb as (v & -> & _).
    reflexivity.
  - lia.
  - intros i blk s Hi Hs. rewrite list_lookup_fmap in Hi.
    destruct (vals !! i) as [v|] eqn:Hv; [|discriminate]. simpl in Hi.
    injection Hi as <-.
    pose proof (lookup_lt_Some _ _ _ Hv) as Hlt.
    rewrite (Hbody i v s Hv Hs), setitem_nat by lia. f_equal.
    rewrite Nat.mul_1_r.
    rewrite insert_take_drop by lia. simpl. do 3 f_equal. lia.
Qed.

(** ** 64-bit arithmetic that does not wrap *)

Lemma wrap64_id (x : Z) : (- 2 ^ 63 <= x < 2 ^ 63)%Z -> wrap64 x = x.
Proof.
  intros Hx. unfold wrap64.
  rewrite Z.mod_small; lia.
Qed.

Lemma sum64_from (p : list Z) (acc : Z) :
  Forall (fun x => 0 <= x)%Z p -> (0 <= acc)%Z -> (acc + sumZ p < 2 ^ 63)%Z ->
  fold_left (fun a x => wrap64 (a + x)) p acc = (acc + sumZ p)%Z.
Proof.
  revert acc. induction p as [|x p IH]; intros acc Hp Hacc Hsum; simpl in *.
  - lia.
  - inversion Hp as [|? ? Hx Hp']; subst.
    assert (0 <= sumZ p)%Z.
    { clear -Hp'. induction Hp'; simpl; lia. }
    rewrite wrap64_id by lia. rewrite IH by (assumption || lia). lia.
Qed.

Lemma sum64_nowrap (p : list Z) :
  Forall (fun x => 0 <= x)%Z p -> (sumZ p < 2 ^ 63)%Z -> sum64 p = sumZ p.
Proof.
  intros Hp Hs. unfold sum64. rewrite sum64_from by (assumption || lia). lia.
Qed.

Lemma range_elem (lo hi k : Z) : k ∈ range lo hi -> (lo <= k < hi)%Z.
Proof.
  unfold range. intros Hk. apply list_elem_of_fmap in Hk as (j & -> & Hj).
  apply list_elem_of_In, in_seq in Hj. lia.
Qed.

Lemma weights_nowrap (n : Z) : (n <= 63)%Z -> weights n = pow2_desc n.
Proof.
  intros Hn. unfold weights, pow2_desc.
  apply map_ext_in. intros k Hk. apply list_elem_of_In, range_elem in Hk.
  apply wrap64_id. split.
  - pose proof (Z.pow_nonneg 2 (n - 1 - k)). lia.
  - apply Z.pow_lt_mono_r; lia.
Qed.

Lemma pow2_desc_snoc (m : nat) :
  pow2_desc (Z.of_nat (S m)) = map (Z.mul 2) (pow2_desc (Z.of_nat m)) ++ [1%Z].
Proof.
  unfold pow2_desc. rewrite range_snoc, map_app. simpl. f_equal.
  - rewrite map_map. apply map_ext_in. intros k Hk.
    apply list_elem_of_In, range_elem in Hk.
    rewrite <- Z.pow_succ_r by lia. f_equal. lia.
  - f_equal. replace (Z.of_nat (S m) - 1 - Z.of_nat m)%Z with 0%Z by lia. reflexivity.
Qed.

Lemma pow2_desc_length (m : nat) : length (pow2_desc (Z.of_nat m)) = m.
Proof. unfold pow2_desc. rewrite length_map, range_length. lia. Qed.

Lemma sumZ_app (a b : list Z) : sumZ (a ++ b) = (sumZ a + sumZ b)%Z.
Proof. induction a; simpl; lia. Qed.

Lemma sumZ_scaled (c w : list Z) :
  sumZ (zip_with Z.mul c (map (Z.mul 2) w)) = (2 * sumZ (zip_with Z.mul c w))%Z.
Proof.
  revert w. induction c as [|b c IH]; intros [|x w]; simpl; try lia.
  rewrite IH. lia.
Qed.

Lemma msb_value_snoc (c : list Z) (b : Z) :
  msb_value (c ++ [b]) = (2 * msb_value c + b)%Z.
Proof. unfold msb_value. rewrite fold_left_app. reflexivity. Qed.

Lemma weighted_sum_msb (c : list Z) :
  sumZ (zip_with Z.mul c (pow2_desc (len c))) = msb_value c.
Proof.
  induction c as [|b c IH] using rev_ind; [reflexivity|].
  unfold len in *. rewrite length_app. simpl length.
  replace (length c + 1)%nat with (S (length c)) by lia.
  rewrite pow2_desc_snoc, zip_with_app by (rewrite length_map, pow2_desc_length; reflexivity).
  rewrite sumZ_app, sumZ_scaled, IH, msb_value_snoc. simpl. lia.
Qed.

Lemma msb_value_bound (c : list Z) :
  Forall is_bit c -> (0 <= msb_value c < 2 ^ len c)%Z.
Proof.
  induction c as [|b c IH] using rev_ind; intros Hc.
  - unfold msb_value, len. simpl. lia.
  - apply Forall_app in Hc as [Hc Hb]. rewrite Forall_singleton in Hb.
    specialize (IH Hc). rewrite msb_value_snoc.
    unfold len in *. rewrite length_app. simpl length.
    replace (Z.of_nat (length c + 1)) with (Z.succ (Z.of_nat (length c))) by lia.
    rewrite Z.pow_succ_r by lia. destruct Hb; subst b; lia.
Qed.

Lemma products_nowrap (c w : list Z) :
  Forall is_bit c -> Forall (fun x => 0 <= x < 2 ^ 63)%Z w ->
  zip_with (fun b wk => wrap64 (b * wk)) c w = zip_with Z.mul c w
  /\ Forall (fun x => 0 <= x)%Z (zip_with Z.mul c w).
Proof.
  intros Hc. revert w. induction Hc as [|b c Hb Hc IH]; intros w Hw.
  - simpl. split; [reflexivity | constructor].
  - destruct Hw as [|x w Hx Hw]; simpl; [split; [reflexivity|constructor]|].
    destruct (IH w Hw) as [IH1 IH2]. rewrite IH1. split.
    + f_equal. apply wrap64_id. destruct Hb; subst b; lia.
    + constructor; [destruct Hb; subst b; lia | assumption].
Qed.

Lemma pow2_desc_range (n : Z) :
  (n <= 63)%Z -> Forall (fun x => 0 <= x < 2 ^ 63)%Z (pow2_desc n).
Proof.
  intros Hn. unfold pow2_desc. apply Forall_forall. intros x Hx.
  apply list_elem_of_fmap in Hx as (k & -> & Hk). apply range_elem in Hk. split.
  - apply Z.pow_nonneg. lia.
  - apply Z.pow_lt_mono_r; lia.
Qed.

(** One iteration of [bitsToSymbols]: the weighted sum of a group. *)
Lemma group_symbol (c : list Z) (n : Z) :
  Forall is_bit c -> len c = n -> (n <= 63)%Z ->
  (p <- broadcast2 (fun b wk => wrap64 (b * wk)) c (weights n) ;; Ok (sum64 p))
  = Ok (msb_value c).
Proof.
  intros Hc Hlen Hn. unfold broadcast2.
  rewrite weights_nowrap by assumption. subst n.
  unfold len at 1. rewrite pow2_desc_length, Nat.eqb_refl. simpl. f_equal.
  destruct (products_nowrap c (pow2_desc (len c)) Hc (pow2_desc_range _ Hn)) as [-> Hpos].
  rewrite sum64_nowrap; [apply weighted_sum_msb | assumption |].
  rewrite weighted_sum_msb.
  pose proof (msb_value_bound c Hc) as [_ Hlt].
  eapply Z.lt_le_trans; [exact Hlt|]. apply Z.pow_le_mono_r; lia.
Qed.

(** ** Binary formatting of a group of bits *)

Lemma msb_value_nonneg (c : list Z) : Forall is_bit c -> (0 <= msb_value c)%Z.
Proof. intros Hc. apply (msb_value_bound c Hc). Qed.

Lemma zero_pad_snoc (w : nat) (d : list ascii) (ch : ascii) :
  zero_pad (S w) (d ++ [ch]) = zero_pad w d ++ [ch].
Proof.
  unfold zero_pad. rewrite length_app. simpl length.
  replace (S w - (length d + 1))%nat with (w - length d)%nat by lia.
  rewrite app_assoc. reflexivity.
Qed.

Lemma format_0b_double (v b : Z) (w : nat) :
  (0 < v)%Z -> is_bit b ->
  format_0b (2 * v + b) (S w) = format_0b v w ++ [bit_char b].
Proof.
  intros Hv Hb. destruct v as [|p|p]; try lia.
  destruct Hb; subst b; simpl; apply zero_pad_snoc.
Qed.

Lemma format_0b_bit (b : Z) (w : nat) :
  is_bit b -> format_0b b (S w) = replicate w "0"%char ++ [bit_char b].
Proof.
  intros [-> | ->]; simpl; unfold zero_pad; simpl;
    rewrite Nat.sub_0_r; reflexivity.
Qed.

Lemma format_0b_bits (c : list Z) :
  Forall is_bit c -> c <> [] ->
  format_0b (msb_value c) (length c) = map bit_char c.
Proof.
  induction c as [|b c IH] using rev_ind; intros Hc Hne; [congruence|].
  apply Forall_app in Hc as [Hc Hb]. rewrite Forall_singleton in Hb.
  rewrite msb_value_snoc, length_app, map_app. simpl.
  replace (length c + 1)%nat with (S (length c)) by lia.
  destruct c as [|b0 c0].
  - unfold msb_value. simpl fold_left. rewrite Z.mul_0_r, Z.add_0_l.
    apply (format_0b_bit b 0 Hb).
  - specialize (IH Hc ltac:(discriminate)).
    pose proof (msb_value_nonneg _ Hc) as Hv.
    destruct (Z.eq_dec (msb_value (b0 :: c0)) 0%Z) as [E|E].
    + rewrite E in *. rewrite Z.mul_0_r, Z.add_0_l, format_0b_bit by assumption.
      f_equal. rewrite <- IH. simpl. unfold zero_pad. simpl.
      rewrite Nat.sub_0_r. clear.
      induction (length c0); simpl; congruence.
    + rewrite format_0b_double by (assumption || lia). rewrite IH. reflexivity.
Qed.

Lemma int_of_bit_char (b : Z) : is_bit b -> int_of_char (bit_char b) = Ok b.
Proof. intros [-> | ->]; reflexivity. Qed.

(** ** Groups of a sequence *)

Lemma slice_nat {A : Type} (l : list A) (a b : nat) :
  (a <= b <= length l)%nat ->
  slice l (Z.of_nat a) (Z.of_nat b) = take (b - a) (drop a l).
Proof.
  intros H. unfold slice, slice_len, slice_start, slice_bound, len.
  destruct (Z.ltb_spec (Z.of_nat a) 0); [lia|].
  destruct (Z.ltb_spec (Z.of_nat b) 0); [lia|].
  rewrite !Z.min_l by lia.
  f_equal; [|f_equal]; lia.
Qed.

Lemma concat_length_uniform {A : Type} (n : nat) (cs : list (list A)) :
  Forall (fun c => length c = n) cs -> length (concat cs) = (length cs * n)%nat.
Proof.
  induction 1 as [|c cs Hc _ IH]; simpl; [reflexivity|].
  rewrite length_app, IH, Hc. reflexivity.
Qed.

Lemma concat_group {A : Type} (n : nat) (cs : list (list A)) (i : nat) (c : list A) :
  Forall (fun c => length c = n) cs -> cs !! i = Some c ->
  take n (drop (i * n) (concat cs)) = c.
Proof.
  intros Hcs. revert i. induction Hcs as [|c0 cs Hc0 Hcs IH]; intros i Hi.
  - discriminate.
  - destruct i as [|i]; simpl in *.
    + injection Hi as ->. rewrite drop_0, take_app_length'; [reflexivity|congruence].
    + rewrite drop_app_ge by lia.
      replace (n + i * n - length c0)%nat with (i * n)%nat by lia.
      apply IH. assumption.
Qed.

Lemma chunks_spec {A : Type} (n k : nat) (l : list A) :
  length l = (k * n)%nat ->
  concat (chunks n k l) = l
  /\ Forall (fun c => length c = n) (chunks n k l)
  /\ length (chunks n k l) = k.
Proof.
  revert l. induction k as [|k IH]; intros l Hl; simpl in *.
  - destruct l; [repeat split; constructor | discriminate].
  - destruct (IH (drop n l)) as (H1 & H2 & H3).
    { rewrite length_drop. lia. }
    rewrite H1, take_drop, H3. repeat split.
    constructor; [rewrite length_take; lia | assumption].
Qed.

Lemma chunks_Forall {A : Type} (P : A -> Prop) (n k : nat) (l : list A) :
  Forall P l -> Forall (Forall P) (chunks n k l).
Proof.
  revert l. induction k as [|k IH]; intros l Hl; simpl; constructor.
  - apply Forall_take. assumption.
  - apply IH, Forall_drop. assumption.
Qed.

(** ** Bits to symbols and back *)

Lemma int_log2_pow2 (n : Z) : (0 <= n <= 63)%Z -> int_log2 (2 ^ n) = Ok n.
Proof.
  intros Hn. unfold int_log2.
  assert (0 < 2 ^ n)%Z by (apply Z.pow_pos_nonneg; lia).
  assert (2 ^ n < 2 ^ 64)%Z by (apply Z.pow_lt_mono_r; lia).
  destruct (Z.eqb_spec (2 ^ n) 0); [lia|].
  destruct (Z.ltb_spec (2 ^ n) 0); [lia|].
  destruct (Z.leb_spec (2 ^ 64) (2 ^ n)); [lia|].
  rewrite Z.log2_pow2 by lia. reflexivity.
Qed.

Lemma group_slice (n : nat) (cs : list (list Z)) (j : nat) (c : list Z) :
  Forall (fun c => length c = n) cs -> cs !! j = Some c ->
  slice (concat cs) (Z.of_nat j * Z.of_nat n) ((Z.of_nat j + 1) * Z.of_nat n) = c.
Proof.
  intros Hcs Hj.
  pose proof (lookup_lt_Some _ _ _ Hj) as Hlt.
  replace (Z.of_nat j * Z.of_nat n)%Z with (Z.of_nat (j * n)) by lia.
  replace ((Z.of_nat j + 1) * Z.of_nat n)%Z with (Z.of_nat (j * n + n)) by lia.
  rewrite slice_nat.
  - replace (j * n + n - j * n)%nat with n by lia. eapply concat_group; eassumption.
  - rewrite (concat_length_uniform n) by assumption. nia.
Qed.

Lemma bitsToSymbols_groups (n : nat) (cs : list (list Z)) :
  (1 <= n <= 63)%nat ->
  Forall (fun c => length c = n) cs -> Forall (Forall is_bit) cs ->
  bitsToSymbols (concat cs) (2 ^ Z.of_nat n) = Ok (map msb_value cs).
Proof.
  intros Hn Hlen Hbits. unfold bitsToSymbols.
  rewrite int_log2_pow2 by lia. simpl rbind.
  destruct (Z.eqb_spec (Z.of_nat n) 0); [lia|]. simpl rbind.
  assert (Hq : (len (concat cs) / Z.of_nat n)%Z = len (map msb_value cs)).
  { unfold len. rewrite (concat_length_uniform n), length_map by assumption.
    rewrite Nat2Z.inj_mul. apply Z.div_mul. lia. }
  rewrite Hq.
  rewrite (for_each_cells _ 0 (map msb_value cs)).
  - simpl. unfold len. rewrite Nat2Z.id, length_map.
    rewrite drop_ge by (rewrite length_replicate; lia).
    rewrite app_nil_r. reflexivity.
  - unfold len. rewrite Nat2Z.id, length_replicate. simpl. lia.
  - intros j v s Hv Hs. rewrite list_lookup_fmap in Hv.
    destruct (cs !! j) as [c|] eqn:Hc; [|discriminate]. injection Hv as <-.
    rewrite (group_slice n cs j c) by assumption.
    assert (Hc1 : Forall is_bit c).
    { eapply (proj1 (Forall_forall _ _) Hbits). eapply list_elem_of_lookup_2. eassumption. }
    assert (Hc2 : length c = n).
    { eapply (proj1 (Forall_forall _ _) Hlen c). eapply list_elem_of_lookup_2. eassumption. }
    pose proof (group_symbol c (Z.of_nat n) Hc1 ltac:(unfold len; lia) ltac:(lia)) as Hg.
    apply rbind_inv_Ok in Hg as (p & -> & Hp). simpl. congruence.
Qed.

Lemma symbolsToBits_groups (n : nat) (cs : list (list Z)) :
  (1 <= n <= 63)%nat ->
  Forall (fun c => length c = n) cs -> Forall (Forall is_bit) cs ->
  symbolsToBits (map msb_value cs) (2 ^ Z.of_nat n) = Ok (concat cs).
Proof.
  intros Hn Hlen Hbits. unfold symbolsToBits.
  rewrite int_log2_pow2 by lia. simpl rbind.
  assert (Hq : len (map msb_value cs) = len cs) by (unfold len; rewrite length_map; reflexivity).
  rewrite Hq.
  rewrite (for_each_blocks _ n 0 cs); [| assumption | |].
  - simpl. rewrite drop_ge, app_nil_r; [reflexivity|].
    rewrite length_replicate. unfold len. lia.
  - rewrite length_replicate. unfold len. lia.
  - intros i c s Hc Hs.
    assert (Hc1 : Forall is_bit c).
    { eapply (proj1 (Forall_forall _ _) Hbits). eapply list_elem_of_lookup_2. eassumption. }
    assert (Hc2 : length c = n).
    { eapply (proj1 (Forall_forall _ _) Hlen c). eapply list_elem_of_lookup_2. eassumption. }
    rewrite (getitem_nat _ i (msb_value c)) by (rewrite list_lookup_fmap, Hc; reflexivity).
    simpl rbind. rewrite Nat2Z.id, <- Hc2.
    rewrite format_0b_bits by (assumption || (intros ->; simpl in Hc2; lia)).
    rewrite Hc2. replace (Z.of_nat n) with (len c) at 1 by (unfold len; lia).
    rewrite (for_each_cells _ (i * n) c).
    + rewrite Hc2. reflexivity.
    + pose proof (lookup_lt_Some _ _ _ Hc). rewrite Hs, length_replicate.
      unfold len. nia.
    + intros j b t Hb Ht.
      rewrite (getitem_nat _ j (bit_char b)) by (rewrite list_lookup_fmap, Hb; reflexivity).
      simpl rbind. rewrite int_of_bit_char.
      * simpl rbind. f_equal. lia.
      * eapply (proj1 (Forall_forall _ _) Hc1). eapply list_elem_of_lookup_2. eassumption.
Qed.

(** C7 (amended): for every constellation size [M = 2^n] with
    [1 <= n <= 63] and every sequence of bits (values 0 or 1) whose length
    is a multiple of [n], converting the bits to symbols and the symbols
    back to bits returns the bits: [bitsToSymbols] groups [n] bits per
    symbol, most significant first, and [symbolsToBits] inverts it. *)
Theorem bits_symbols_roundtrip (n : Z) (bits : list Z) :
  (1 <= n <= 63)%Z -> Forall is_bit bits -> (len bits mod n = 0)%Z ->
  (syms <- bitsToSymbols bits (2 ^ n) ;; symbolsToBits syms (2 ^ n)) = Ok bits.
Proof.
  intros Hn Hbits Hmod.
  apply Z.mod_divide in Hmod; [|lia]. destruct Hmod as [k Hk].
  assert (Hk0 : (0 <= k)%Z) by (unfold len in Hk; nia).
  pose proof (chunks_spec (Z.to_nat n) (Z.to_nat k) bits) as Hc.
  destruct Hc as (Hcat & Hlen & _); [unfold len in Hk; nia|].
  pose proof (chunks_Forall is_bit (Z.to_nat n) (Z.to_nat k) bits Hbits) as Hcb.
  rewrite <- (Z2Nat.id n) by lia.
  rewrite <- Hcat at 1.
  rewrite bitsToSymbols_groups by (assumption || lia). simpl rbind.
  rewrite symbolsToBits_groups by (assumption || lia).
  rewrite Hcat. reflexivity.
Qed.

Lemma bits_symbols_roundtrip_witness :
  (syms <- bitsToSymbols [1; 0; 0; 1]%Z (2 ^ 2) ;; symbolsToBits syms (2 ^ 2))
  = Ok [1; 0; 0; 1]%Z.
Proof.
  apply (bits_symbols_roundtrip 2 [1; 0; 0; 1]%Z).
  - lia.
  - repeat (constructor; [unfold is_bit; lia|]). constructor.
  - reflexivity.
Defined.

(** C7 as stated fails for the one-point constellation: [M = 1] is a
    power of two, [log2(M) = 0], the empty bit sequence has a length that
    is a multiple of it, and [bitsToSymbols] divides by zero.  At the
    other end, [M = 2^64] is beyond the 64-bit integers of numpy. *)
Lemma bits_symbols_roundtrip_fails_M1 :
  1%Z = (2 ^ 0)%Z /\ Forall is_bit [] /\ (len (@nil Z) mod Z.log2 1 = 0)%Z
  /\ bitsToSymbols [] 1 = Raise ZeroDivisionError
  /\ (syms <- bitsToSymbols [] 1 ;; symbolsToBits syms 1) <> Ok []
  /\ (syms <- bitsToSymbols [] (2 ^ 64) ;; symbolsToBits syms (2 ^ 64)) <> Ok [].
Proof.
  repeat split; try constructor; vm_compute; discriminate.
Qed.

(** ** Noise injection: the keyword arguments *)

Lemma has_key_true (kwargs : gmap string R) (key : string) :
  has_key kwargs key = true <-> is_Some (kwargs !! key).
Proof. unfold has_key. apply bool_decide_eq_true. Qed.

Lemma has_key_false (kwargs : gmap string R) (key : string) :
  has_key kwargs key = false <-> kwargs !! key = None.
Proof.
  unfold has_key. rewrite bool_decide_eq_false, <- eq_None_not_Some. reflexivity.
Qed.

(** With neither [Eb] nor [N0] among the keyword arguments the call is
    refused with the module's own exception. *)
Lemma addNoise_no_Eb_no_N0 (iqs : list C) (kwargs : gmap string R) (g : rng) :
  kwargs !! "Eb" = None -> kwargs !! "N0" = None ->
  addNoise iqs kwargs g
  = Raise (Exception "addNoise(): must specify N0 or SNR & Eb in kwargs.").
Proof.
  intros HEb HN0. unfold addNoise.
  rewrite (proj2 (has_key_false kwargs "Eb") HEb).
  rewrite (proj2 (has_key_false kwargs "N0") HN0).
  reflexivity.
Qed.

(** C6 (the code at the failing input): the test
    ['SNR' and 'Eb' in kwargs.keys()] only looks for [Eb]; with [Eb] given
    and [SNR] missing the call reads [kwargs['SNR']] and fails with
    [KeyError], not with the parameter error. *)
Theorem addNoise_Eb_without_SNR (iqs : list C) (kwargs : gmap string R) (g : rng) :
  is_Some (kwargs !! "Eb") -> kwargs !! "SNR" = None ->
  addNoise iqs kwargs g = Raise (KeyError "SNR")
  /\ fails_with_InvalidParameterError (addNoise iqs kwargs g) = false.
Proof.
  intros HEb HSNR.
  assert (H : addNoise iqs kwargs g = Raise (KeyError "SNR")).
  { unfold addNoise. rewrite (proj2 (has_key_true kwargs "Eb") HEb).
    simpl. unfold kwarg. rewrite HSNR. reflexivity. }
  rewrite H. split; reflexivity.
Qed.

Lemma addNoise_Eb_without_SNR_witness :
  addNoise [C1] {[ "Eb" := 1 ]} (mkRng (fun _ => 0) 0) = Raise (KeyError "SNR")
  /\ fails_with_InvalidParameterError
       (addNoise [C1] {[ "Eb" := 1 ]} (mkRng (fun _ => 0) 0)) = false.
Proof.
  apply (addNoise_Eb_without_SNR [C1] {[ "Eb" := 1 ]} (mkRng (fun _ => 0) 0)).
  - rewrite lookup_singleton_eq. eexists. reflexivity.
  - apply lookup_singleton_ne. discriminate.
Defined.

(** ** Lengths of slices and convolutions *)

Section SliceLengths.
Context {A : Type}.
Implicit Types l v : list A.

Lemma slice_length l (start stop : Z) :
  length (slice l start stop)
  = Nat.min (slice_len l start stop) (length l - slice_start l start).
Proof. unfold slice. rewrite length_take, length_drop. reflexivity. Qed.

(** [l[a:-b]] keeps [len l - a - b] items. *)
Lemma slice_trim_length l (a b : Z) :
  (0 <= a)%Z -> (0 < b)%Z -> (a + b <= len l)%Z ->
  len (slice l a (- b)) = (len l - a - b)%Z.
Proof.
  intros Ha Hb Hab. unfold len in *. rewrite slice_length.
  unfold slice_len, slice_start, slice_bound, len.
  destruct (Z.ltb_spec (- b) 0); [|lia].
  destruct (Z.ltb_spec a 0); lia.
Qed.

Lemma setslice_exact l (start stop : Z) v :
  length v = slice_len l start stop ->
  setslice l start stop v
  = Ok (take (slice_start l start) l ++ v
        ++ drop (slice_start l start + slice_len l start stop) l).
Proof. intros H. unfold setslice. rewrite H, Nat.eqb_refl. reflexivity. Qed.

Lemma splice_length l (s n : nat) v :
  length v = n -> (s + n <= length l)%nat ->
  length (take s l ++ v ++ drop (s + n) l) = length l.
Proof.
  intros Hv Hs. rewrite !length_app, length_take, length_drop. lia.
Qed.

Lemma fillslice_length l (start stop : Z) (a : A) :
  length (fillslice l start stop a) = length l.
Proof.
  unfold fillslice.
  destruct (Nat.le_gt_cases (slice_start l start + slice_len l start stop) (length l)).
  - apply splice_length; [apply length_replicate | assumption].
  - rewrite !length_app, length_take, length_drop, length_replicate.
    unfold slice_len, slice_start, slice_bound, len in *.
    destruct (Z.ltb_spec start 0); destruct (Z.ltb_spec stop 0); lia.
Qed.
End SliceLengths.

Section ConvolveLength.
Context {X D O : Type}.
Variable mul : X -> D -> O.
Variable add : O -> O -> O.
Variable zero : O.

Lemma padd_length (a b : list O) :
  length (padd add a b) = Nat.max (length a) (length b).
Proof.
  revert b. induction a as [|x a IH]; intros [|y b]; simpl; try reflexivity.
  rewrite IH. reflexivity.
Qed.

Lemma convolve_full_length (x : list X) (d : list D) :
  x <> [] -> d <> [] ->
  length (convolve_full mul add zero x d) = (length x + length d - 1)%nat.
Proof.
  intros Hx Hd. destruct d as [|d0 d]; [congruence|]. clear Hd.
  induction x as [|x0 x IH]; [congruence|]. clear Hx.
  cbn [convolve_full]. rewrite padd_length, length_map.
  destruct x as [|x1 x].
  - simpl. lia.
  - cbn [length]. rewrite IH by discriminate. simpl. lia.
Qed.

Lemma convolve_length (x : list X) (d : list D) :
  x <> [] -> d <> [] ->
  exists c, convolve mul add zero x d = Ok c
            /\ len c = (len x + len d - 1)%Z.
Proof.
  intros Hx Hd. exists (convolve_full mul add zero x d). split.
  - destruct x; [congruence|]. destruct d; [congruence|]. reflexivity.
  - unfold len. rewrite convolve_full_length by assumption.
    destruct x; [congruence|]. simpl. lia.
Qed.
End ConvolveLength.

Lemma len_nonempty {A : Type} (l : list A) : (1 <= len l)%Z -> l <> [].
Proof. intros H ->. unfold len in H. simpl in H. lia. Qed.

(** ** The designed taps in closed form *)

Lemma zip_with_range {A B C' : Type} (f : A -> B -> C') (g : Z -> A) (h : Z -> B)
      (lo1 lo2 : Z) (n : nat) :
  zip_with f (map g (range lo1 (lo1 + Z.of_nat n))) (map h (range lo2 (lo2 + Z.of_nat n)))
  = map (fun k => f (g (lo1 + k)%Z) (h (lo2 + k)%Z)) (range 0 (Z.of_nat n)).
Proof.
  unfold range.
  replace (lo1 + Z.of_nat n - lo1)%Z with (Z.of_nat n) by lia.
  replace (lo2 + Z.of_nat n - lo2)%Z with (Z.of_nat n) by lia.
  rewrite Z.sub_0_r, Nat2Z.id. generalize (seq 0 n) as ks.
  induction ks as [|k ks IH]; simpl; [reflexivity|]. rewrite IH. reflexivity.
Qed.

Lemma pydiv_Ok (a b : R) : b <> 0 -> pydiv a b = Ok (a / b).
Proof. intros Hb. unfold pydiv. destruct (Req_dec_T b 0); [contradiction|reflexivity]. Qed.

Lemma createDerivativeFilter_refused (N : Z) (Tsamp : R) :
  ((N + 1) mod 4 <> 0)%Z ->
  createDerivativeFilter N Tsamp
  = Raise (Exception "createDerivativeFilter: N must be of form 4*n-1").
Proof.
  intros HN. unfold createDerivativeFilter.
  destruct (Z.eqb_spec ((N + 1) mod 4) 0); [contradiction|reflexivity].
Qed.

Lemma createDerivativeFilter_taps (N : Z) (Tsamp : R) :
  ((N + 1) mod 4 = 0)%Z -> (0 <= N)%Z -> Tsamp <> 0 ->
  createDerivativeFilter N Tsamp = Ok (map (deriv_tap N Tsamp) (range 0 N)).
Proof.
  intros HN H0 HT. unfold createDerivativeFilter.
  destruct (Z.eqb_spec ((N + 1) mod 4) 0) as [_|]; [|contradiction]. simpl negb. cbv iota.
  rewrite pydiv_Ok by assumption. simpl rbind.
  assert (HN3 : (3 <= N)%Z).
  { destruct (Z.eq_dec N 0%Z) as [->|]; [discriminate|].
    destruct (Z.eq_dec N 1%Z) as [->|]; [discriminate|].
    destruct (Z.eq_dec N 2%Z) as [->|]; [discriminate|]. lia. }
  assert (Hodd : (N = 2 * ((N - 1) / 2) + 1)%Z).
  { pose proof (Z.div_mod (N - 1) 2 ltac:(lia)) as Hd.
    assert ((N - 1) mod 2 = 0)%Z; [|lia].
    pose proof (Z.div_mod (N + 1) 4 ltac:(lia)) as Hq. rewrite HN in Hq.
    replace (N - 1)%Z with ((2 * ((N + 1) / 4) - 1) * 2)%Z by lia.
    apply Z.mod_mul. lia. }
  unfold blackman, linspace.
  destruct (Z.ltb_spec N 0); [lia|].
  destruct (Z.eqb_spec N 0); [lia|].
  destruct (Z.eqb_spec N 1); [lia|]. simpl rbind.
  set (h := ((N - 1) / 2)%Z) in *.
  rewrite map_map.
  assert (Hr1 : range (- h) (h + 1) = range (- h) (- h + Z.of_nat (Z.to_nat N))).
  { f_equal. lia. }
  assert (Hr2 : range 0 N = range 0 (0 + Z.of_nat (Z.to_nat N))).
  { f_equal. lia. }
  rewrite Hr1, Hr2. unfold broadcast2.
  rewrite !length_map, !range_length.
  replace (Z.to_nat (- h + Z.of_nat (Z.to_nat N) - - h)) with (Z.to_nat N) by lia.
  replace (Z.to_nat (0 + Z.of_nat (Z.to_nat N) - 0)) with (Z.to_nat N) by lia.
  rewrite Nat.eqb_refl, zip_with_range. f_equal.
Qed.

Lemma createDerivativeFilter_length (N : Z) (Tsamp : R) :
  ((N + 1) mod 4 = 0)%Z -> (0 <= N)%Z -> Tsamp <> 0 ->
  exists d, createDerivativeFilter N Tsamp = Ok d /\ len d = N.
Proof.
  intros HN H0 HT. eexists. split; [apply createDerivativeFilter_taps; assumption|].
  unfold len. rewrite length_map, range_length. lia.
Qed.

Lemma fractionalDelayCoeffs_taps (T dT : R) (L : Z) :
  T <> 0 ->
  fractionalDelayCoeffs T dT L = Ok (map (delay_tap T dT L) (range 0 (2 * L + 1))).
Proof.
  intros HT. unfold fractionalDelayCoeffs. rewrite pydiv_Ok by assumption.
  simpl rbind. f_equal. rewrite map_map. unfold range.
  replace (L + 1 - - L)%Z with (2 * L + 1 - 0)%Z by lia.
  rewrite !map_map. apply map_ext. intros k. unfold delay_tap.
  rewrite Z.add_0_l. reflexivity.
Qed.

(** C8: a filter length [N] with [(N+1) mod 4 <> 0] (such as 50) is
    refused by [createDerivativeFilter] with the parameter error; a
    length [N] with [(N+1) mod 4 = 0], with a non-zero sample period,
    yields a sequence of [N] real taps. *)
Theorem createDerivativeFilter_length_check (N : Z) (Tsamp : R) :
  (((N + 1) mod 4 <> 0)%Z ->
   fails_with_InvalidParameterError (createDerivativeFilter N Tsamp) = true)
  /\ (((N + 1) mod 4 = 0)%Z -> (0 <= N)%Z -> Tsamp <> 0 ->
      exists d : list R, createDerivativeFilter N Tsamp = Ok d /\ len d = N).
Proof.
  split.
  - intros HN. rewrite createDerivativeFilter_refused by assumption. reflexivity.
  - apply createDerivativeFilter_length.
Qed.

Lemma createDerivativeFilter_length_check_witness :
  fails_with_InvalidParameterError (createDerivativeFilter 50 1) = true
  /\ exists d : list R, createDerivativeFilter 51 1 = Ok d /\ len d = 51%Z.
Proof.
  split.
  - apply (proj1 (createDerivativeFilter_length_check 50 1)). vm_compute. discriminate.
  - apply (proj2 (createDerivativeFilter_length_check 51 1)).
    + reflexivity.
    + lia.
    + lra.
Defined.

(** ** Edge-corrected filtering keeps the length *)

Lemma zeros_Ok (n : Z) : (0 <= n)%Z -> zeros n = Ok (replicate (Z.to_nat n) 0).
Proof. intros Hn. unfold zeros. destruct (Z.ltb_spec n 0); [lia|reflexivity]. Qed.

Lemma getitem_Ok {A : Type} (l : list A) (i : Z) :
  (- len l <= i < len l)%Z -> exists a, getitem l i = Ok a.
Proof.
  intros Hi. unfold getitem, len in *.
  set (j := if (i <? 0)%Z then (i + Z.of_nat (length l))%Z else i).
  assert (Hj : (0 <= j < Z.of_nat (length l))%Z).
  { unfold j. destruct (Z.ltb_spec i 0); lia. }
  destruct (Z.ltb_spec j 0); [lia|].
  destruct (lookup_lt_is_Some_2 l (Z.to_nat j) ltac:(lia)) as [a ->]. eauto.
Qed.

Lemma getitem_out {A : Type} (l : list A) (i : Z) :
  (len l <= i)%Z -> (0 <= i)%Z -> getitem l i = Raise IndexError.
Proof.
  intros Hi H0. unfold getitem, len in *.
  destruct (Z.ltb_spec i 0); [lia|].
  destruct (Z.ltb_spec i 0); [lia|].
  rewrite lookup_ge_None_2 by lia. reflexivity.
Qed.

Lemma extrapolate_convolve_length (x : list C) (pad : Z) (d : list R) :
  (1 <= pad)%Z -> (2 <= len x)%Z -> len d = (2 * pad + 1)%Z ->
  exists xd, extrapolate_convolve x pad d = Ok xd /\ len xd = len x.
Proof.
  intros Hpad Hx Hd. unfold extrapolate_convolve.
  rewrite zeros_Ok by (unfold len in *; lia). simpl rbind.
  set (x2 := replicate _ 0).
  assert (H2 : len x2 = (len x + 2 * pad)%Z).
  { unfold x2, len. rewrite length_replicate. lia. }
  (* x2[pad:-pad] = x *)
  rewrite setslice_exact.
  2:{ rewrite length_map. unfold slice_len, slice_bound. rewrite H2.
      destruct (Z.ltb_spec (- pad) 0); [|lia].
      destruct (Z.ltb_spec pad 0); unfold len in *; lia. }
  simpl rbind.
  set (x2a := take _ x2 ++ _ ++ _).
  assert (H2a : len x2a = (len x + 2 * pad)%Z).
  { rewrite <- H2. unfold len. f_equal. apply splice_length.
    - rewrite length_map. unfold slice_len, slice_bound. rewrite H2.
      destruct (Z.ltb_spec (- pad) 0); [|lia].
      destruct (Z.ltb_spec pad 0); unfold len in *; lia.
    - unfold slice_start, slice_len, slice_bound. rewrite H2.
      destruct (Z.ltb_spec (- pad) 0); [|lia].
      destruct (Z.ltb_spec pad 0); unfold len in *; lia. }
  clearbody x2a. clear x2 H2.
  destruct (getitem_Ok x 0 ltac:(lia)) as [x_0 ->].
  destruct (getitem_Ok x 1 ltac:(lia)) as [x_1 ->]. simpl rbind.
  (* x2[0:pad] = left *)
  rewrite setslice_exact.
  2:{ rewrite !length_map. unfold arange_down. rewrite length_map, range_length.
      unfold slice_len, slice_bound. rewrite H2a.
      destruct (Z.ltb_spec pad 0); [lia|].
      destruct (Z.ltb_spec 0 0); unfold len in *; lia. }
  simpl rbind.
  set (x2b := take _ x2a ++ _ ++ _).
  assert (H2b : len x2b = (len x + 2 * pad)%Z).
  { rewrite <- H2a. unfold len. f_equal. apply splice_length.
    - rewrite !length_map. unfold arange_down. rewrite length_map, range_length.
      unfold slice_len, slice_bound. rewrite H2a.
      destruct (Z.ltb_spec pad 0); [lia|].
      destruct (Z.ltb_spec 0 0); unfold len in *; lia.
    - unfold slice_start, slice_len, slice_bound. rewrite H2a.
      destruct (Z.ltb_spec pad 0); [lia|].
      destruct (Z.ltb_spec 0 0); unfold len in *; lia. }
  clearbody x2b. clear x2a H2a.
  destruct (getitem_Ok x (-1) ltac:(lia)) as [x_m1 ->].
  destruct (getitem_Ok x (-2) ltac:(lia)) as [x_m2 ->]. simpl rbind.
  (* x2[len(x2)-pad:len(x2)] = right *)
  rewrite setslice_exact.
  2:{ rewrite !length_map. unfold arange_up. rewrite range_length.
      unfold slice_len, slice_bound. rewrite H2b.
      destruct (Z.ltb_spec (len x + 2 * pad - pad) 0); [lia|].
      destruct (Z.ltb_spec (len x + 2 * pad) 0); unfold len in *; lia. }
  simpl rbind.
  set (x2c := take _ x2b ++ _ ++ _).
  assert (H2c : len x2c = (len x + 2 * pad)%Z).
  { rewrite <- H2b. unfold len. f_equal. apply splice_length.
    - rewrite !length_map. unfold arange_up. rewrite range_length.
      unfold slice_len, slice_bound. rewrite H2b.
      destruct (Z.ltb_spec (len x + 2 * pad - pad) 0); [lia|].
      destruct (Z.ltb_spec (len x + 2 * pad) 0); unfold len in *; lia.
    - unfold slice_start, slice_len, slice_bound. rewrite H2b.
      destruct (Z.ltb_spec (len x + 2 * pad - pad) 0); [lia|].
      destruct (Z.ltb_spec (len x + 2 * pad) 0); unfold len in *; lia. }
  clearbody x2c. clear x2b H2b.
  destruct (convolve_length Rmult Rplus 0 x2c d) as (c & Hc & Hlen).
  { apply len_nonempty. lia. }
  { apply len_nonempty. lia. }
  unfold convolveR. rewrite Hc. simpl rbind.
  eexists. split; [reflexivity|].
  rewrite slice_trim_length; lia.
Qed.

Lemma extrapolate_convolve_one_sample (x : list C) (pad : Z) (d : list R) :
  (1 <= pad)%Z -> len x = 1%Z -> extrapolate_convolve x pad d = Raise IndexError.
Proof.
  intros Hpad Hx. unfold extrapolate_convolve.
  rewrite zeros_Ok by lia. simpl rbind.
  rewrite setslice_exact.
  2:{ rewrite length_map. unfold slice_len, slice_bound, len in *.
      rewrite length_replicate.
      destruct (Z.ltb_spec (- pad) 0); [|lia].
      destruct (Z.ltb_spec pad 0); lia. }
  simpl rbind.
  destruct (getitem_Ok x 0 ltac:(lia)) as [x_0 ->]. simpl rbind.
  rewrite (getitem_out x 1) by lia. reflexivity.
Qed.

Lemma pad_of_odd (N : Z) : (1 <= N)%Z -> (N mod 2 = 1)%Z ->
  (N = 2 * pad_of N + 1)%Z /\ (N / 2 = pad_of N)%Z.
Proof.
  intros H1 Hodd. unfold pad_of. rewrite Z.quot_div_nonneg by lia.
  pose proof (Z.div_mod N 2 ltac:(lia)) as Hd. rewrite Hodd in Hd.
  assert (Hq : ((N - 1) / 2 = N / 2)%Z).
  { replace (N - 1)%Z with (N / 2 * 2)%Z by lia. apply Z.div_mul. lia. }
  rewrite Hq. lia.
Qed.

Lemma valid_derivative_length (N : Z) :
  ((N + 1) mod 4 = 0)%Z -> (0 <= N)%Z -> (3 <= N)%Z /\ (N mod 2 = 1)%Z.
Proof.
  intros HN H0.
  pose proof (Z.div_mod (N + 1) 4 ltac:(lia)) as Hq. rewrite HN in Hq.
  split; [lia|].
  replace N with (1 + (2 * ((N + 1) / 4) - 1) * 2)%Z by lia.
  rewrite Z.mod_add by lia. reflexivity.
Qed.

Lemma setitem_last_length {A : Type} (l : list A) (a : A) :
  (1 <= len l)%Z -> exists l', setitem l (-1) a = Ok l' /\ length l' = length l.
Proof.
  intros Hl. unfold setitem, len in *. cbv zeta.
  change (-1 <? 0)%Z with true. cbv iota.
  destruct (Z.ltb_spec (-1 + Z.of_nat (length l)) 0); [lia|].
  destruct (Z.leb_spec (Z.of_nat (length l)) (-1 + Z.of_nat (length l))); [lia|].
  simpl. eexists. split; [reflexivity|]. apply length_insert.
Qed.

Lemma derivativeFilter_length (x : list C) (N : Z) (Tsamp : R) :
  ((N + 1) mod 4 = 0)%Z -> (0 <= N)%Z -> Tsamp <> 0 -> (2 <= len x)%Z ->
  exists xd, derivativeFilter x N Tsamp = Ok xd /\ len xd = len x.
Proof.
  intros HN H0 HT Hx. unfold derivativeFilter.
  destruct (createDerivativeFilter_length N Tsamp HN H0 HT) as (d & -> & Hd).
  simpl rbind.
  destruct (valid_derivative_length N HN H0) as [H3 Hodd].
  destruct (pad_of_odd N ltac:(lia) Hodd) as [Hp _].
  apply extrapolate_convolve_length; lia.
Qed.

Lemma derivativeFilter2_length (x : list C) (N : Z) (Tsamp : R) (zero_edge : bool) :
  ((N + 1) mod 4 = 0)%Z -> (0 <= N)%Z -> Tsamp <> 0 -> (1 <= len x)%Z ->
  exists xd, derivativeFilter2 x N Tsamp zero_edge = Ok xd /\ len xd = len x.
Proof.
  intros HN H0 HT Hx. unfold derivativeFilter2.
  destruct (createDerivativeFilter_length N Tsamp HN H0 HT) as (d & -> & Hd).
  simpl rbind.
  destruct (valid_derivative_length N HN H0) as [H3 Hodd].
  destruct (pad_of_odd N ltac:(lia) Hodd) as [Hp _].
  destruct (convolve_length Cscale Cadd C0 x d) as (c & Hc & Hlen).
  { apply len_nonempty. lia. }
  { apply len_nonempty. lia. }
  unfold convolveC. rewrite Hc. simpl rbind.
  assert (Hs : len (slice c (pad_of N) (- pad_of N)) = len x).
  { rewrite slice_trim_length; lia. }
  destruct zero_edge.
  - set (xd := fillslice (fillslice _ _ _ _) _ _ _).
    assert (Hxd : len xd = len x).
    { rewrite <- Hs. unfold xd, len. rewrite !fillslice_length. reflexivity. }
    destruct (setitem_last_length xd C0 ltac:(lia)) as (xd' & -> & Hl).
    exists xd'. split; [reflexivity|]. unfold len in *. lia.
  - eexists. split; [reflexivity|assumption].
Qed.

Lemma fractionalDelayFilter_length (x : list C) (gamma : R) (N : Z) :
  (N mod 2 = 1)%Z -> (3 <= N)%Z -> (2 <= len x)%Z ->
  exists xd, fractionalDelayFilter x gamma N = Ok xd /\ len xd = len x.
Proof.
  intros Hodd H3 Hx. unfold fractionalDelayFilter.
  rewrite fractionalDelayCoeffs_taps by lra. simpl rbind.
  destruct (pad_of_odd N ltac:(lia) Hodd) as [Hp Hh].
  apply extrapolate_convolve_length; [lia | lia |].
  unfold len. rewrite length_map, range_length. lia.
Qed.

(** C1 (amended): the edge-corrected filters return as many samples as
    they are given; [derivativeFilter2] for every non-empty signal,
    [derivativeFilter] and [fractionalDelayFilter], which extrapolate
    from the first two and the last two samples, for every signal of at
    least two samples.  The admissible filter lengths are those
    [createDerivativeFilter] accepts, and the odd lengths from 3 on for
    the fractional delay. *)
Theorem edge_corrected_filters_keep_length
        (x : list C) (N : Z) (Tsamp gamma : R) (zero_edge : bool) :
  (((N + 1) mod 4 = 0)%Z -> (0 <= N)%Z -> Tsamp <> 0 -> (2 <= len x)%Z ->
   exists xd, derivativeFilter x N Tsamp = Ok xd /\ len xd = len x)
  /\ (((N + 1) mod 4 = 0)%Z -> (0 <= N)%Z -> Tsamp <> 0 -> (1 <= len x)%Z ->
      exists xd, derivativeFilter2 x N Tsamp zero_edge = Ok xd /\ len xd = len x)
  /\ ((N mod 2 = 1)%Z -> (3 <= N)%Z -> (2 <= len x)%Z ->
      exists xd, fractionalDelayFilter x gamma N = Ok xd /\ len xd = len x).
Proof.
  split; [|split].
  - apply derivativeFilter_length.
  - apply derivativeFilter2_length.
  - apply fractionalDelayFilter_length.
Qed.

Lemma edge_corrected_filters_keep_length_witness :
  let x := [C1; C0; C1] in
  (exists xd, derivativeFilter x 51 1 = Ok xd /\ len xd = len x)
  /\ (exists xd, derivativeFilter2 x 51 1 true = Ok xd /\ len xd = len x)
  /\ (exists xd, fractionalDelayFilter x (1 / 4) 51 = Ok xd /\ len xd = len x).
Proof.
  intros x.
  pose proof (edge_corrected_filters_keep_length x 51 1 (1 / 4) true) as (H1 & H2 & H3).
  split; [|split].
  - apply H1; [reflexivity | lia | lra | unfold x, len; simpl; lia].
  - apply H2; [reflexivity | lia | lra | unfold x, len; simpl; lia].
  - apply H3; [reflexivity | lia | unfold x, len; simpl; lia].
Defined.

(** C1 as stated fails on a signal of one sample: [x[1]] does not exist. *)
Lemma one_sample_signal_not_filtered :
  (1 <= len [C1])%Z
  /\ derivativeFilter [C1] 3 1 = Raise IndexError
  /\ fractionalDelayFilter [C1] 0 3 = Raise IndexError.
Proof.
  split; [unfold len; simpl; lia|]. split.
  - unfold derivativeFilter.
    rewrite createDerivativeFilter_taps by (reflexivity || lia || lra).
    simpl rbind. apply extrapolate_convolve_one_sample; [|reflexivity].
    vm_compute. discriminate.
  - unfold fractionalDelayFilter.
    rewrite fractionalDelayCoeffs_taps by lra.
    simpl rbind. apply extrapolate_convolve_one_sample; [|reflexivity].
    vm_compute. discriminate.
Qed.

(** ** Complex input *)

Section MapCommutes.
Context {A B : Type}.
Variable g : A -> B.

Lemma len_map (l : list A) : len (map g l) = len l.
Proof. unfold len. rewrite length_map. reflexivity. Qed.

Lemma getitem_map (l : list A) (i : Z) :
  getitem (map g l) i = rmap g (getitem l i).
Proof.
  unfold getitem. rewrite len_map.
  destruct (_ <? 0)%Z; [reflexivity|].
  rewrite list_lookup_fmap. destruct (l !! _); reflexivity.
Qed.



End MapCommutes.

(** A component of a complex signal passes through a convolution with
    real taps. *)
Section ComponentConvolve.
Variable g : C -> C.
Hypothesis g_zero : g C0 = C0.
Hypothesis g_add : forall a b, g (Cadd a b) = Cadd (g a) (g b).
Hypothesis g_scale : forall z r, g (Cscale z r) = Cscale (g z) r.




End ComponentConvolve.



(** ** Symmetry of the designed taps *)

Lemma getitem_tabulated {A : Type} (f : Z -> A) (n i : Z) :
  (0 <= i < n)%Z -> getitem (map f (range 0 n)) i = Ok (f i).
Proof.
  intros Hi. rewrite <- (Z2Nat.id i) at 1 by lia.
  apply getitem_nat. rewrite list_lookup_fmap, range_lookup by lia.
  simpl. f_equal. f_equal. lia.
Qed.

Lemma pow_m1_opp (n : Z) : pow_m1 (- n) = pow_m1 n.
Proof. unfold pow_m1. rewrite Z.even_opp. reflexivity. Qed.

Lemma deriv_tap_mirror (N : Z) (Tsamp : R) (i : Z) :
  (3 <= N)%Z -> (N mod 2 = 1)%Z -> Tsamp <> 0 ->
  deriv_tap N Tsamp (N - 1 - i) = - deriv_tap N Tsamp i.
Proof.
  intros H3 Hodd HT.
  destruct (pad_of_odd N ltac:(lia) Hodd) as [Hp Hh].
  assert (Hhalf : ((N - 1) / 2 = pad_of N)%Z).
  { replace (N - 1)%Z with (pad_of N * 2)%Z by lia. apply Z.div_mul. lia. }
  unfold deriv_tap. cbv zeta. rewrite Hhalf.
  set (h := pad_of N) in *.
  replace (- h + (N - 1 - i))%Z with (- (- h + i))%Z by lia.
  set (n := (- h + i)%Z).
  assert (HN1 : IZR (N - 1) <> 0).
  { apply not_0_IZR. lia. }
  replace (- PI + IZR (N - 1 - i) * ((PI - - PI) / IZR (N - 1)))
    with (- (- PI + IZR i * ((PI - - PI) / IZR (N - 1)))).
  2:{ rewrite (minus_IZR (N - 1) i). field. assumption. }
  set (fac := - PI + IZR i * ((PI - - PI) / IZR (N - 1))).
  replace (2 * - fac) with (- (2 * fac)) by ring.
  rewrite !cos_neg.
  destruct (Z.eqb_spec n 0) as [E|E].
  - rewrite E. simpl. ring.
  - destruct (Z.eqb_spec (- n) 0) as [E'|_]; [lia|].
    rewrite pow_m1_opp, opp_IZR. field.
    split; try assumption; apply not_0_IZR; assumption.
Qed.

Lemma delay_tap_mirror (T dT : R) (L i : Z) :
  delay_tap T (- dT) L (2 * L - i) = delay_tap T dT L i.
Proof.
  unfold delay_tap. cbv zeta.
  replace ((IZR (- L + (2 * L - i)) + - dT / T) * PI)
    with (- ((IZR (- L + i) + dT / T) * PI)).
  2:{ rewrite !plus_IZR, minus_IZR, mult_IZR, opp_IZR. unfold Rdiv. simpl. ring. }
  set (x := (IZR (- L + i) + dT / T) * PI).
  destruct (Req_dec_T x 0) as [E|E]; destruct (Req_dec_T (- x) 0) as [E'|E']; try lra.
  rewrite sin_neg. field. assumption.
Qed.

(** C4 (amended): the taps of the derivative filter are antisymmetric
    about the centre, [d[i] = -d[N-1-i]]; the [2L+1] taps of the
    fractional-delay filter are the mirror image of the taps designed for
    the opposite delay, [r(dT)[i] = r(-dT)[2L-i]], and hence symmetric
    about the centre when the delay [dT] is zero. *)
Theorem designed_taps_symmetry (N : Z) (Tsamp T dT : R) (L : Z) :
  (((N + 1) mod 4 = 0)%Z -> (0 <= N)%Z -> Tsamp <> 0 ->
   exists d, createDerivativeFilter N Tsamp = Ok d /\ len d = N
     /\ forall i, (0 <= i < N)%Z ->
          exists a, getitem d i = Ok a /\ getitem d (N - 1 - i) = Ok (- a))
  /\ (T <> 0 -> (0 <= L)%Z ->
      exists r r', fractionalDelayCoeffs T dT L = Ok r
        /\ fractionalDelayCoeffs T (- dT) L = Ok r'
        /\ len r = (2 * L + 1)%Z
        /\ forall i, (0 <= i <= 2 * L)%Z ->
             exists a, getitem r i = Ok a /\ getitem r' (2 * L - i) = Ok a)
  /\ (T <> 0 -> (0 <= L)%Z ->
      exists r, fractionalDelayCoeffs T 0 L = Ok r
        /\ len r = (2 * L + 1)%Z
        /\ forall i, (0 <= i <= 2 * L)%Z ->
             exists a, getitem r i = Ok a /\ getitem r (2 * L - i) = Ok a).
Proof.
  split; [|split].
  - intros HN H0 HT.
    destruct (valid_derivative_length N HN H0) as [H3 Hodd].
    eexists. split; [apply createDerivativeFilter_taps; assumption|]. split.
    + unfold len. rewrite length_map, range_length. lia.
    + intros i Hi. exists (deriv_tap N Tsamp i).
      rewrite !getitem_tabulated by lia. split; [reflexivity|].
      f_equal. apply deriv_tap_mirror; assumption.
  - intros HT HL.
    do 2 eexists. split; [apply fractionalDelayCoeffs_taps; assumption|].
    split; [apply fractionalDelayCoeffs_taps; assumption|]. split.
    + unfold len. rewrite length_map, range_length. lia.
    + intros i Hi. exists (delay_tap T dT L i).
      rewrite !getitem_tabulated by lia. split; [reflexivity|].
      f_equal. apply delay_tap_mirror.
  - intros HT HL.
    eexists. split; [apply fractionalDelayCoeffs_taps; assumption|]. split.
    + unfold len. rewrite length_map, range_length. lia.
    + intros i Hi. exists (delay_tap T 0 L i).
      rewrite !getitem_tabulated by lia. split; [reflexivity|].
      f_equal. rewrite <- (delay_tap_mirror T 0 L i). rewrite Ropp_0. reflexivity.
Qed.

Lemma designed_taps_symmetry_witness :
  (exists d, createDerivativeFilter 7 1 = Ok d /\ len d = 7%Z
     /\ forall i, (0 <= i < 7)%Z ->
          exists a, getitem d i = Ok a /\ getitem d (7 - 1 - i) = Ok (- a))
  /\ (exists r r', fractionalDelayCoeffs 1 (1 / 2) 1 = Ok r
        /\ fractionalDelayCoeffs 1 (- (1 / 2)) 1 = Ok r'
        /\ len r = (2 * 1 + 1)%Z
        /\ forall i, (0 <= i <= 2 * 1)%Z ->
             exists a, getitem r i = Ok a /\ getitem r' (2 * 1 - i) = Ok a).
Proof.
  pose proof (designed_taps_symmetry 7 1 1 (1 / 2) 1) as (H1 & H2 & _).
  split.
  - apply H1; [reflexivity | lia | lra].
  - apply H2; [lra | lia].
Defined.

(** C4 as stated fails for a delay of half a sample: with [T = 1],
    [dT = 1/2], [L = 1] the outer taps are [2/pi] and [-2/(3 pi)]. *)
Lemma delayed_taps_not_symmetric :
  exists r a b,
    fractionalDelayCoeffs 1 (1 / 2) 1 = Ok r /\ len r = (2 * 1 + 1)%Z
    /\ getitem r 0 = Ok a /\ getitem r (2 * 1 - 0) = Ok b /\ a <> b.
Proof.
  exists (map (delay_tap 1 (1 / 2) 1) (range 0 (2 * 1 + 1))),
         (delay_tap 1 (1 / 2) 1 0), (delay_tap 1 (1 / 2) 1 2).
  split; [apply fractionalDelayCoeffs_taps; lra|].
  split; [reflexivity|].
  split; [apply getitem_tabulated; lia|].
  split; [apply (getitem_tabulated (delay_tap 1 (1 / 2) 1) (2 * 1 + 1) 2); lia|].
  pose proof PI_RGT_0 as Hpi.
  assert (Ha : delay_tap 1 (1 / 2) 1 0 = 2 / PI).
  { unfold delay_tap. cbv zeta. change (- (1) + 0)%Z with (-1)%Z.
    replace ((IZR (-1) + 1 / 2 / 1) * PI) with (- (PI / 2)) by field.
    destruct (Req_dec_T (- (PI / 2)) 0); [lra|].
    rewrite sin_neg, sin_PI2. field. lra. }
  assert (Hb : delay_tap 1 (1 / 2) 1 2 = - (2 / (3 * PI))).
  { unfold delay_tap. cbv zeta. change (- (1) + 2)%Z with 1%Z.
    replace ((IZR 1 + 1 / 2 / 1) * PI) with (3 * (PI / 2)) by field.
    destruct (Req_dec_T (3 * (PI / 2)) 0); [lra|].
    rewrite sin_3PI2. field. lra. }
  rewrite Ha, Hb.
  assert (0 < 2 / PI) by (apply Rdiv_lt_0_compat; lra).
  assert (0 < 2 / (3 * PI)) by (apply Rdiv_lt_0_compat; lra).
  lra.
Qed.

(** ** The spectrum of a two-sample block *)

Lemma C_eq (a b : C) : Re a = Re b -> Im a = Im b -> a = b.
Proof. destruct a, b. simpl. intros -> ->. reflexivity. Qed.

Lemma twiddle_0 (n k : nat) : twiddle n k 0 = C1.
Proof.
  unfold twiddle, Cexpj. simpl INR.
  replace (- (2 * PI * INR k * 0 / INR n)) with 0 by (unfold Rdiv; ring).
  rewrite cos_0, sin_0. reflexivity.
Qed.

Lemma twiddle_4_0 : twiddle 4 0 1 = C1.
Proof.
  unfold twiddle, Cexpj. simpl INR.
  replace (- (2 * PI * 0 * 1 / (1 + 1 + 1 + 1))) with 0 by (unfold Rdiv; ring).
  rewrite cos_0, sin_0. reflexivity.
Qed.

Lemma twiddle_4_1 : twiddle 4 1 1 = mkC 0 (-1).
Proof.
  unfold twiddle, Cexpj. simpl INR.
  replace (- (2 * PI * 1 * 1 / (1 + 1 + 1 + 1))) with (- (PI / 2)) by field.
  rewrite cos_neg, sin_neg, cos_PI2, sin_PI2. reflexivity.
Qed.

Lemma twiddle_4_2 : twiddle 4 2 1 = mkC (-1) 0.
Proof.
  unfold twiddle, Cexpj. simpl INR.
  replace (- (2 * PI * (1 + 1) * 1 / (1 + 1 + 1 + 1))) with (- PI) by field.
  rewrite cos_neg, sin_neg, cos_PI, sin_PI. apply C_eq; simpl; ring.
Qed.

Lemma twiddle_4_3 : twiddle 4 3 1 = mkC 0 1.
Proof.
  unfold twiddle, Cexpj. simpl INR.
  replace (- (2 * PI * (1 + 1 + 1) * 1 / (1 + 1 + 1 + 1))) with (- (3 * (PI / 2))) by field.
  rewrite cos_neg, sin_neg, cos_3PI2, sin_3PI2. apply C_eq; simpl; ring.
Qed.

Lemma dft_bin_two (z0 z1 : C) (k : nat) :
  dft_bin [z0; z1; C0; C0] 4 k = Cadd z0 (Cmul z1 (twiddle 4 k 1)).
Proof.
  unfold dft_bin, Csum. cbn [imap fold_right compose].
  rewrite twiddle_0.
  generalize (twiddle 4 k 1) (twiddle 4 k 2) (twiddle 4 k 3). intros t1 t2 t3.
  apply C_eq; simpl; ring.
Qed.

Lemma fft_two (z0 z1 : C) :
  fft [z0; z1] 4
  = Ok [Cadd z0 z1; Cadd z0 (Cmul z1 (mkC 0 (-1)));
        Cadd z0 (Cmul z1 (mkC (-1) 0)); Cadd z0 (Cmul z1 (mkC 0 1))].
Proof.
  unfold fft. change (4 <? 1)%Z with false. cbv iota.
  change (Z.to_nat 4) with 4%nat.
  change (resize [z0; z1] 4) with [z0; z1; C0; C0].
  cbn [seq map]. rewrite !dft_bin_two.
  rewrite twiddle_4_0, twiddle_4_1, twiddle_4_2, twiddle_4_3.
  do 2 f_equal. apply C_eq; simpl; ring.
Qed.

(** Comparisons of numpy's complex order on known values. *)
Lemma Clt_by_real_part (a b : C) : Re a < Re b -> Clt a b = true.
Proof. intros H. unfold Clt. destruct (Rlt_dec (Re a) (Re b)); [reflexivity|contradiction]. Qed.

Lemma Clt_not_by_real_part (a b : C) : Re b < Re a -> Clt a b = false.
Proof.
  intros H. unfold Clt.
  destruct (Rlt_dec (Re a) (Re b)); [lra|].
  destruct (Req_dec_T (Re a) (Re b)); [lra|reflexivity].
Qed.

Lemma Clt_irrefl_value (a b : C) : Re a = Re b -> Im a = Im b -> Clt a b = false.
Proof.
  intros H1 H2. unfold Clt.
  destruct (Rlt_dec (Re a) (Re b)); [lra|].
  destruct (Req_dec_T (Re a) (Re b)); [|reflexivity].
  destruct (Rlt_dec (Im a) (Im b)); [lra|reflexivity].
Qed.

(** ** The run of the estimators *)

Lemma fft_length (z : list C) (n : Z) :
  (1 <= n)%Z -> exists ZZ, fft z n = Ok ZZ /\ len ZZ = n.
Proof.
  intros Hn. unfold fft. destruct (Z.ltb_spec n 1); [lia|].
  eexists. split; [reflexivity|].
  unfold len. rewrite length_map, length_seq. lia.
Qed.

Lemma argmax_from_bound (l : list C) (i : nat) (best : C) (ibest : nat) :
  (ibest < i)%nat -> (argmax_from l i best ibest < i + length l)%nat.
Proof.
  revert i best ibest. induction l as [|x l IH]; intros i best ibest Hi; simpl.
  - lia.
  - destruct (Clt best x).
    + specialize (IH (S i) x i ltac:(lia)). lia.
    + specialize (IH (S i) best ibest ltac:(lia)). lia.
Qed.

Lemma argmax_bound (l : list C) :
  (1 <= len l)%Z -> exists idx, argmax l = Ok idx /\ (0 <= idx < len l)%Z.
Proof.
  intros Hl. destruct l as [|x l]; [unfold len in Hl; simpl in Hl; lia|].
  eexists. split; [reflexivity|].
  pose proof (argmax_from_bound l 1 x 0 ltac:(lia)).
  unfold len. simpl length. lia.
Qed.

Lemma nonLinearXform_len (order : Z) (rx : list C) :
  len (nonLinearXform order rx) = len rx.
Proof. unfold nonLinearXform. apply len_map. Qed.

Lemma known_mode_coarse : known_mode "coarse" = true.
Proof. reflexivity. Qed.

Lemma mode_dispatch (mode : string) (v1 v2 v3 v4 : R) :
  (if String.eqb mode "interp_1" then Ok v1
   else if String.eqb mode "interp_2" then Ok v2
   else if String.eqb mode "gauss" then Ok v3
   else if String.eqb mode "coarse" then Ok v4
   else Raise (Exception "Invalid mode."))
  = if known_mode mode
    then Ok (if String.eqb mode "interp_1" then v1
             else if String.eqb mode "interp_2" then v2
             else if String.eqb mode "gauss" then v3 else v4)
    else Raise (Exception "Invalid mode.").
Proof.
  unfold known_mode.
  destruct (String.eqb mode "interp_1"), (String.eqb mode "interp_2"),
    (String.eqb mode "gauss"), (String.eqb mode "coarse"); reflexivity.
Qed.

(** What a call does, by the position of the peak bin. *)
Lemma estimator_run (order : Z) (rx : list C) (mode : string) :
  (1 <= len rx)%Z ->
  exists idx,
    peak_bin order rx = Ok idx /\ (0 <= idx < 2 * len rx)%Z
    /\ (idx = (2 * len rx - 1)%Z ->
        freqOffsetEstimation order rx mode = Raise IndexError)
    /\ ((idx < 2 * len rx - 1)%Z -> known_mode mode = false ->
        freqOffsetEstimation order rx mode = Raise (Exception "Invalid mode."))
    /\ ((idx < 2 * len rx - 1)%Z -> known_mode mode = true ->
        exists v, freqOffsetEstimation order rx mode = Ok v)
    /\ ((idx < 2 * len rx - 1)%Z ->
        freqOffsetEstimation order rx "coarse"
        = Ok (coarse_map order (2 * len rx) idx)).
Proof.
  intros Hrx. unfold peak_bin, freqOffsetEstimation. cbv zeta.
  rewrite nonLinearXform_len.
  destruct (fft_length (nonLinearXform order rx) (2 * len rx) ltac:(lia))
    as (ZZ & -> & HZZ).
  simpl rbind.
  set (PP2 := zip_with Cmul ZZ (map Cconj ZZ)).
  assert (HPP : len PP2 = (2 * len rx)%Z).
  { rewrite <- HZZ. unfold PP2, len. rewrite length_zip_with, length_map. lia. }
  clearbody PP2.
  destruct (argmax_bound PP2 ltac:(lia)) as (idx & -> & Hidx).
  simpl rbind. rewrite HPP in Hidx.
  exists idx. split; [reflexivity|]. split; [assumption|].
  destruct (getitem_Ok PP2 (idx - 1) ltac:(lia)) as [p1 ->].
  destruct (getitem_Ok PP2 idx ltac:(lia)) as [p2 ->]. simpl rbind.
  split; [|split; [|split]].
  - intros ->. rewrite (getitem_out PP2) by lia. reflexivity.
  - intros Hlt Hmode.
    destruct (getitem_Ok PP2 (idx + 1) ltac:(lia)) as [p3 ->]. simpl rbind.
    rewrite mode_dispatch, Hmode. reflexivity.
  - intros Hlt Hmode.
    destruct (getitem_Ok PP2 (idx + 1) ltac:(lia)) as [p3 ->]. simpl rbind.
    rewrite mode_dispatch, Hmode. eexists. reflexivity.
  - intros Hlt.
    destruct (getitem_Ok PP2 (idx + 1) ltac:(lia)) as [p3 ->]. simpl rbind.
    reflexivity.
Qed.

Lemma estimator_empty (order : Z) (mode : string) :
  freqOffsetEstimation order [] mode = Raise ValueError.
Proof. reflexivity. Qed.

(** ** The range of the coarse estimate *)

Lemma coarse_map_range (order Lfft idx : Z) :
  (0 < order)%Z -> (0 < Lfft)%Z -> (Lfft mod 2 = 0)%Z -> (0 <= idx < Lfft)%Z ->
  - (1 / (2 * IZR order)) <= coarse_map order Lfft idx < 1 / (2 * IZR order).
Proof.
  intros Ho HL Heven Hidx. unfold coarse_map.
  assert (Hhalf : (Lfft = 2 * (Lfft / 2))%Z).
  { pose proof (Z.div_mod Lfft 2 ltac:(lia)). lia. }
  assert (HoR : 0 < IZR order) by (apply IZR_lt; assumption).
  assert (HLR : 0 < IZR Lfft) by (apply IZR_lt; assumption).
  rewrite mult_IZR.
  destruct (Z.leb_spec (Lfft / 2) idx) as [Hge|Hlt].
  - assert (H1 : IZR Lfft <= 2 * IZR idx).
    { rewrite <- mult_IZR. apply IZR_le. lia. }
    assert (H2 : IZR idx < IZR Lfft) by (apply IZR_lt; lia).
    rewrite minus_IZR. split.
    + enough (0 <= (IZR idx - IZR Lfft) / (IZR Lfft * IZR order) - - (1 / (2 * IZR order))) by lra.
      replace ((IZR idx - IZR Lfft) / (IZR Lfft * IZR order) - - (1 / (2 * IZR order)))
        with ((2 * IZR idx - IZR Lfft) / (2 * IZR Lfft * IZR order)) by (field; lra).
      apply Rmult_le_pos; [lra|]. apply Rlt_le, Rinv_0_lt_compat. nra.
    + enough (0 < 1 / (2 * IZR order) - (IZR idx - IZR Lfft) / (IZR Lfft * IZR order)) by lra.
      replace (1 / (2 * IZR order) - (IZR idx - IZR Lfft) / (IZR Lfft * IZR order))
        with ((3 * IZR Lfft - 2 * IZR idx) / (2 * IZR Lfft * IZR order)) by (field; lra).
      apply Rmult_lt_0_compat; [lra|]. apply Rinv_0_lt_compat. nra.
  - assert (H1 : 2 * IZR idx < IZR Lfft).
    { rewrite <- mult_IZR. apply IZR_lt. lia. }
    assert (H2 : 0 <= IZR idx) by (apply IZR_le; lia).
    split.
    + enough (0 <= IZR idx / (IZR Lfft * IZR order) - - (1 / (2 * IZR order))) by lra.
      replace (IZR idx / (IZR Lfft * IZR order) - - (1 / (2 * IZR order)))
        with ((2 * IZR idx + IZR Lfft) / (2 * IZR Lfft * IZR order)) by (field; lra).
      apply Rmult_le_pos; [lra|]. apply Rlt_le, Rinv_0_lt_compat. nra.
    + enough (0 < 1 / (2 * IZR order) - IZR idx / (IZR Lfft * IZR order)) by lra.
      replace (1 / (2 * IZR order) - IZR idx / (IZR Lfft * IZR order))
        with ((IZR Lfft - 2 * IZR idx) / (2 * IZR Lfft * IZR order)) by (field; lra).
      apply Rmult_lt_0_compat; [lra|]. apply Rinv_0_lt_compat. nra.
Qed.

(** ** Concrete blocks *)

Lemma Cexpj_0 : Cexpj 0 = C1.
Proof. unfold Cexpj. rewrite cos_0, sin_0. reflexivity. Qed.

Lemma angle_Cexpj (theta : R) :
  - (PI / 2) < theta < PI / 2 -> angle (Cexpj theta) = theta.
Proof.
  intros [H1 H2]. unfold angle, arctan2, Cexpj. simpl.
  pose proof (cos_gt_0 theta H1 H2) as Hc.
  destruct (Rlt_dec 0 (cos theta)); [|contradiction].
  change (sin theta / cos theta) with (tan theta).
  apply atan_tan. split; assumption.
Qed.

Lemma xform_phasor (order : Z) (theta : R) :
  - (PI / 2) < theta < PI / 2 ->
  nonLinearXform order [Cexpj theta] = [Cexpj (IZR order * theta)].
Proof.
  intros H. unfold nonLinearXform. cbn [map]. rewrite angle_Cexpj by assumption.
  f_equal. pose proof (sin2_cos2 theta) as Hsc. unfold Rsqr in Hsc.
  set (phi := IZR order * theta).
  apply C_eq; unfold Cexpj; simpl.
  - replace (cos theta * cos theta - sin theta * - sin theta)
      with (sin theta * sin theta + cos theta * cos theta) by ring.
    rewrite Hsc. ring.
  - replace (cos theta * cos theta - sin theta * - sin theta)
      with (sin theta * sin theta + cos theta * cos theta) by ring.
    rewrite Hsc. ring.
Qed.

Lemma xform_one (order : Z) : nonLinearXform order [C1] = [C1].
Proof.
  pose proof PI_RGT_0.
  rewrite <- Cexpj_0, xform_phasor by lra.
  rewrite Rmult_0_r. reflexivity.
Qed.

Lemma nonLinearXform_cons (order : Z) (z : C) (l : list C) :
  nonLinearXform order (z :: l) = nonLinearXform order [z] ++ nonLinearXform order l.
Proof. reflexivity. Qed.

Lemma xform_last_bin_qpsk :
  nonLinearXform 4 rx_last_bin_qpsk = [C1; mkC 0 (-1)].
Proof.
  pose proof PI_RGT_0. unfold rx_last_bin_qpsk.
  rewrite nonLinearXform_cons, xform_one, (xform_phasor 4 (- (PI / 8))) by lra.
  replace (4 * - (PI / 8)) with (- (PI / 2)) by field.
  unfold Cexpj. rewrite cos_neg, sin_neg, cos_PI2, sin_PI2. reflexivity.
Qed.

Lemma xform_last_bin_16apsk :
  nonLinearXform 12 rx_last_bin_16apsk = [C1; mkC 0 (-1)].
Proof.
  pose proof PI_RGT_0. unfold rx_last_bin_16apsk.
  rewrite nonLinearXform_cons, xform_one, (xform_phasor 12 (- (PI / 24))) by lra.
  replace (12 * - (PI / 24)) with (- (PI / 2)) by field.
  unfold Cexpj. rewrite cos_neg, sin_neg, cos_PI2, sin_PI2. reflexivity.
Qed.

Lemma angle_1_1 : angle (mkC 1 1) = PI / 4.
Proof.
  unfold angle, arctan2. simpl.
  destruct (Rlt_dec 0 1); [|lra].
  replace (1 / 1) with 1 by field. apply atan_1.
Qed.

Lemma xform_half_band_qpsk :
  nonLinearXform 4 rx_half_band = [C1; mkC (-2) 0].
Proof.
  unfold rx_half_band. rewrite nonLinearXform_cons, xform_one.
  unfold nonLinearXform. cbn [map app]. rewrite angle_1_1.
  replace (4 * (PI / 4)) with PI by field.
  unfold Cexpj. rewrite cos_PI, sin_PI.
  do 2 f_equal. apply C_eq; simpl; ring.
Qed.

Lemma xform_half_band_16apsk :
  nonLinearXform 12 rx_half_band = [C1; mkC (-2) 0].
Proof.
  unfold rx_half_band. rewrite nonLinearXform_cons, xform_one.
  unfold nonLinearXform. cbn [map app]. rewrite angle_1_1.
  replace (12 * (PI / 4)) with (PI + 2 * INR 1 * PI) by (simpl; field).
  unfold Cexpj. rewrite cos_period, sin_period, cos_PI, sin_PI.
  do 2 f_equal. apply C_eq; simpl; ring.
Qed.

(** The power spectrum and its peak for the two transformed blocks. *)
Lemma peak_of_1_mj (order : Z) (rx : list C) :
  nonLinearXform order rx = [C1; mkC 0 (-1)] -> peak_bin order rx = Ok 3%Z.
Proof.
  intros Hz. unfold peak_bin. rewrite Hz.
  change (2 * len [C1; mkC 0 (-1)])%Z with 4%Z.
  rewrite fft_two. simpl rbind. cbn [map zip_with].
  assert (E0 : Cmul (Cadd C1 (mkC 0 (-1))) (Cconj (Cadd C1 (mkC 0 (-1)))) = mkC 2 0)
    by (apply C_eq; simpl; ring).
  assert (E1 : Cmul (Cadd C1 (Cmul (mkC 0 (-1)) (mkC 0 (-1))))
                    (Cconj (Cadd C1 (Cmul (mkC 0 (-1)) (mkC 0 (-1))))) = mkC 0 0)
    by (apply C_eq; simpl; ring).
  assert (E2 : Cmul (Cadd C1 (Cmul (mkC 0 (-1)) (mkC (-1) 0)))
                    (Cconj (Cadd C1 (Cmul (mkC 0 (-1)) (mkC (-1) 0)))) = mkC 2 0)
    by (apply C_eq; simpl; ring).
  assert (E3 : Cmul (Cadd C1 (Cmul (mkC 0 (-1)) (mkC 0 1)))
                    (Cconj (Cadd C1 (Cmul (mkC 0 (-1)) (mkC 0 1)))) = mkC 4 0)
    by (apply C_eq; simpl; ring).
  rewrite E0, E1, E2, E3. unfold argmax. cbn [argmax_from].
  rewrite (Clt_not_by_real_part (mkC 2 0) (mkC 0 0)) by (simpl; lra).
  rewrite (Clt_irrefl_value (mkC 2 0) (mkC 2 0)) by reflexivity.
  rewrite (Clt_by_real_part (mkC 2 0) (mkC 4 0)) by (simpl; lra).
  reflexivity.
Qed.

Lemma peak_of_1_m2 (order : Z) (rx : list C) :
  nonLinearXform order rx = [C1; mkC (-2) 0] -> peak_bin order rx = Ok 2%Z.
Proof.
  intros Hz. unfold peak_bin. rewrite Hz.
  change (2 * len [C1; mkC (-2) 0])%Z with 4%Z.
  rewrite fft_two. simpl rbind. cbn [map zip_with].
  assert (E0 : Cmul (Cadd C1 (mkC (-2) 0)) (Cconj (Cadd C1 (mkC (-2) 0))) = mkC 1 0)
    by (apply C_eq; simpl; ring).
  assert (E1 : Cmul (Cadd C1 (Cmul (mkC (-2) 0) (mkC 0 (-1))))
                    (Cconj (Cadd C1 (Cmul (mkC (-2) 0) (mkC 0 (-1))))) = mkC 5 0)
    by (apply C_eq; simpl; ring).
  assert (E2 : Cmul (Cadd C1 (Cmul (mkC (-2) 0) (mkC (-1) 0)))
                    (Cconj (Cadd C1 (Cmul (mkC (-2) 0) (mkC (-1) 0)))) = mkC 9 0)
    by (apply C_eq; simpl; ring).
  assert (E3 : Cmul (Cadd C1 (Cmul (mkC (-2) 0) (mkC 0 1)))
                    (Cconj (Cadd C1 (Cmul (mkC (-2) 0) (mkC 0 1)))) = mkC 5 0)
    by (apply C_eq; simpl; ring).
  rewrite E0, E1, E2, E3. unfold argmax. cbn [argmax_from].
  rewrite (Clt_by_real_part (mkC 1 0) (mkC 5 0)) by (simpl; lra).
  rewrite (Clt_by_real_part (mkC 5 0) (mkC 9 0)) by (simpl; lra).
  rewrite (Clt_not_by_real_part (mkC 9 0) (mkC 5 0)) by (simpl; lra).
  reflexivity.
Qed.

Lemma half_band_coarse (order : Z) :
  nonLinearXform order rx_half_band = [C1; mkC (-2) 0] ->
  freqOffsetEstimation order rx_half_band "coarse"
  = Ok (IZR (2 - 4) / IZR (4 * order)).
Proof.
  intros Hz.
  destruct (estimator_run order rx_half_band "coarse" ltac:(unfold len; simpl; lia))
    as (idx & Hidx & _ & _ & _ & _ & Hc).
  rewrite (peak_of_1_m2 order rx_half_band Hz) in Hidx. injection Hidx as <-.
  rewrite Hc by (unfold len; simpl; lia). reflexivity.
Qed.

(** ** The estimators: claims *)

(** C9: there are non-empty blocks whose power spectrum after the
    nonlinear transform peaks at the last FFT bin, [2*len(rx) - 1], and on
    every such block both estimators raise [IndexError] whatever the
    mode, [coarse] included: [PP2[idx_max+1]] is read before the mode is
    looked at. *)
Theorem last_bin_peak_raises_IndexError :
  (exists rx, (1 <= len rx)%Z /\ peak_bin 4 rx = Ok (2 * len rx - 1)%Z)
  /\ (exists rx, (1 <= len rx)%Z /\ peak_bin 12 rx = Ok (2 * len rx - 1)%Z)
  /\ (forall rx mode, (1 <= len rx)%Z -> peak_bin 4 rx = Ok (2 * len rx - 1)%Z ->
        freqOffsetEstimationQpsk rx mode = Raise IndexError)
  /\ (forall rx mode, (1 <= len rx)%Z -> peak_bin 12 rx = Ok (2 * len rx - 1)%Z ->
        freqOffsetEstimation16Apsk rx mode = Raise IndexError).
Proof.
  split; [|split; [|split]].
  - exists rx_last_bin_qpsk. split; [unfold len; simpl; lia|].
    apply peak_of_1_mj, xform_last_bin_qpsk.
  - exists rx_last_bin_16apsk. split; [unfold len; simpl; lia|].
    apply peak_of_1_mj, xform_last_bin_16apsk.
  - intros rx mode Hrx Hpeak.
    destruct (estimator_run 4 rx mode Hrx) as (idx & Hidx & _ & Hlast & _).
    apply Hlast. congruence.
  - intros rx mode Hrx Hpeak.
    destruct (estimator_run 12 rx mode Hrx) as (idx & Hidx & _ & Hlast & _).
    apply Hlast. congruence.
Qed.

Lemma last_bin_peak_raises_IndexError_witness :
  freqOffsetEstimationQpsk rx_last_bin_qpsk "coarse" = Raise IndexError
  /\ freqOffsetEstimation16Apsk rx_last_bin_16apsk "coarse" = Raise IndexError.
Proof.
  destruct last_bin_peak_raises_IndexError as (_ & _ & Hq & Ha).
  split.
  - apply Hq; [unfold len; simpl; lia|].
    apply peak_of_1_mj, xform_last_bin_qpsk.
  - apply Ha; [unfold len; simpl; lia|].
    apply peak_of_1_mj, xform_last_bin_16apsk.
Defined.

(** C5 (amended): on a non-empty block whose peak is not at the last
    bin, a mode outside coarse, gauss, interp_1, interp_2 makes both
    estimators fail with the parameter error, and a mode among the four
    returns a value: the mode is the only thing checked. *)
Theorem unknown_mode_refused (order : Z) (rx : list C) (mode : string) (idx : Z) :
  (1 <= len rx)%Z -> peak_bin order rx = Ok idx -> (idx < 2 * len rx - 1)%Z ->
  (known_mode mode = false ->
   freqOffsetEstimation order rx mode = Raise (Exception "Invalid mode.")
   /\ fails_with_InvalidParameterError (freqOffsetEstimation order rx mode) = true)
  /\ (known_mode mode = true -> exists v, freqOffsetEstimation order rx mode = Ok v).
Proof.
  intros Hrx Hpeak Hlt.
  destruct (estimator_run order rx mode Hrx) as (idx' & Hidx & _ & _ & Hbad & Hgood & _).
  assert (idx' = idx) by congruence. subst idx'.
  split.
  - intros Hmode. rewrite (Hbad Hlt Hmode). split; reflexivity.
  - intros Hmode. apply Hgood; assumption.
Qed.

Lemma unknown_mode_refused_witness :
  (freqOffsetEstimationQpsk rx_half_band "fine" = Raise (Exception "Invalid mode.")
   /\ fails_with_InvalidParameterError (freqOffsetEstimationQpsk rx_half_band "fine") = true)
  /\ (freqOffsetEstimation16Apsk rx_half_band "fine" = Raise (Exception "Invalid mode.")
      /\ fails_with_InvalidParameterError
           (freqOffsetEstimation16Apsk rx_half_band "fine") = true).
Proof.
  split.
  - apply (unknown_mode_refused 4 rx_half_band "fine" 2).
    + unfold len. simpl. lia.
    + apply peak_of_1_m2, xform_half_band_qpsk.
    + unfold len. simpl. lia.
    + reflexivity.
  - apply (unknown_mode_refused 12 rx_half_band "fine" 2).
    + unfold len. simpl. lia.
    + apply peak_of_1_m2, xform_half_band_16apsk.
    + unfold len. simpl. lia.
    + reflexivity.
Defined.

(** C5 as stated fails on the empty block: the FFT of length zero is
    refused by numpy with [ValueError] before the mode is looked at. *)
Lemma unknown_mode_on_empty_block :
  known_mode "fine" = false
  /\ freqOffsetEstimationQpsk [] "fine" = Raise ValueError
  /\ freqOffsetEstimation16Apsk [] "fine" = Raise ValueError
  /\ fails_with_InvalidParameterError (freqOffsetEstimationQpsk [] "fine") = false
  /\ fails_with_InvalidParameterError (freqOffsetEstimation16Apsk [] "fine") = false.
Proof. repeat split. Qed.

(** C2 (amended): on a non-empty block whose peak bin [idx_max] is not
    the last one, mode [coarse] returns [(idx_max - Lfft)/(Lfft*order)]
    when [idx_max >= Lfft/2] and [idx_max/(Lfft*order)] otherwise, with
    [Lfft = 2*len(rx)], and the value lies in
    [[-1/(2*order), 1/(2*order))]. *)
Theorem coarse_estimate (order : Z) (rx : list C) (idx_max : Z) :
  (order = 4 \/ order = 12)%Z ->
  (1 <= len rx)%Z -> peak_bin order rx = Ok idx_max -> (idx_max < 2 * len rx - 1)%Z ->
  let Lfft := (2 * len rx)%Z in
  freqOffsetEstimation order rx "coarse"
  = Ok (if (Lfft / 2 <=? idx_max)%Z
        then IZR (idx_max - Lfft) / IZR (Lfft * order)
        else IZR idx_max / IZR (Lfft * order))
  /\ forall v, freqOffsetEstimation order rx "coarse" = Ok v ->
       - (1 / (2 * IZR order)) <= v < 1 / (2 * IZR order).
Proof.
  intros Ho Hrx Hpeak Hlt Lfft.
  destruct (estimator_run order rx "coarse" Hrx) as (idx & Hidx & Hr & _ & _ & _ & Hc).
  assert (idx = idx_max) by congruence. subst idx.
  rewrite (Hc Hlt). split; [reflexivity|].
  intros v Hv. injection Hv as <-.
  apply coarse_map_range; try lia.
  replace (2 * len rx)%Z with (len rx * 2)%Z by lia. apply Z.mod_mul. lia.
Qed.

Lemma coarse_estimate_witness :
  freqOffsetEstimationQpsk rx_half_band "coarse" = Ok (IZR (2 - 4) / IZR (4 * 4))
  /\ freqOffsetEstimation16Apsk rx_half_band "coarse" = Ok (IZR (2 - 4) / IZR (4 * 12)).
Proof.
  split.
  - apply (coarse_estimate 4 rx_half_band 2).
    + left. reflexivity.
    + unfold len. simpl. lia.
    + apply peak_of_1_m2, xform_half_band_qpsk.
    + unfold len. simpl. lia.
  - apply (coarse_estimate 12 rx_half_band 2).
    + right. reflexivity.
    + unfold len. simpl. lia.
    + apply peak_of_1_m2, xform_half_band_16apsk.
    + unfold len. simpl. lia.
Defined.

(** C2 as stated fails at the half-band bin: for the block (1, 1+j) the
    peak is bin [Lfft/2], QPSK returns [-1/8] and 16-APSK [-1/24], the
    lower end the claimed interval leaves out. *)
Lemma coarse_estimate_reaches_lower_end :
  (exists v, freqOffsetEstimationQpsk rx_half_band "coarse" = Ok v
             /\ ~ (- (1 / (2 * 4)) < v <= 1 / (2 * 4)))
  /\ (exists v, freqOffsetEstimation16Apsk rx_half_band "coarse" = Ok v
                /\ ~ (- (1 / (2 * 12)) < v <= 1 / (2 * 12))).
Proof.
  split.
  - exists (- (1 / 8)). split; [|lra].
    unfold freqOffsetEstimationQpsk.
    rewrite (half_band_coarse 4 xform_half_band_qpsk).
    f_equal. change (IZR (2 - 4) / IZR (4 * 4)) with (-2 / 16). lra.
  - exists (- (1 / 24)). split; [|lra].
    unfold freqOffsetEstimation16Apsk.
    rewrite (half_band_coarse 12 xform_half_band_16apsk).
    f_equal. change (IZR (2 - 4) / IZR (4 * 12)) with (-2 / 48). lra.
Qed.

(** ** Pulse shaping: samples the equality tests miss *)

Lemma fdiv_by_zero (x z : f64) : is_zero z = true -> not_finite (fdiv x z) = true.
Proof. destruct z; try discriminate. intros _. destruct x; reflexivity. Qed.

Lemma fmul_not_finite_r (x y : f64) :
  not_finite y = true -> not_finite (fmul x y) = true.
Proof. destruct y; try discriminate; intros _; destruct x; reflexivity. Qed.

Lemma fmul_self_not_finite (x : f64) :
  not_finite x = true -> not_finite (fmul x x) = true.
Proof. apply fmul_not_finite_r. Qed.

Lemma fadd_not_finite_l (x y : f64) :
  not_finite x = true -> not_finite (fadd x y) = true.
Proof.
  destruct x as [| sx | |]; try discriminate; intros _.
  - destruct y as [| sy | |]; try reflexivity. destruct sx, sy; reflexivity.
  - destruct y; reflexivity.
Qed.

Lemma fadd_not_finite_r (x y : f64) :
  not_finite y = true -> not_finite (fadd x y) = true.
Proof.
  destruct y as [| sy | |]; try discriminate; intros _.
  - destruct x as [| sx | |]; try reflexivity. destruct sx, sy; reflexivity.
  - destruct x; reflexivity.
Qed.

Lemma fadd_nan_l (y : f64) : fadd S754_nan y = S754_nan.
Proof. destruct y; reflexivity. Qed.

Lemma fadd_nan_r (x : f64) : fadd x S754_nan = S754_nan.
Proof. destruct x; reflexivity. Qed.

Lemma fsqrt_not_finite (x : f64) : not_finite x = true -> not_finite (fsqrt x) = true.
Proof. destruct x as [| [|] | |]; try discriminate; reflexivity. Qed.

Lemma fdiv_not_finite (x y : f64) :
  not_finite x = true -> not_finite y = true -> fdiv x y = S754_nan.
Proof. destruct x, y; try discriminate; reflexivity. Qed.

(** An infinity or a NaN among the terms of a sum stays in the sum. *)
Lemma sum_not_finite (l : list f64) (acc : f64) :
  not_finite acc = true \/ Exists (fun p => not_finite p = true) l ->
  not_finite (fold_left fadd l acc) = true.
Proof.
  revert acc. induction l as [|p l IH]; intros acc [H|H]; simpl.
  - exact H.
  - inversion H.
  - apply IH. left. apply fadd_not_finite_l, H.
  - apply IH. inversion H as [? ? Hp | ? ? Hl]; subst.
    + left. apply fadd_not_finite_r, Hp.
    + right. exact Hl.
Qed.

Lemma sum_nan (l : list f64) (acc : f64) :
  acc = S754_nan \/ In S754_nan l -> fold_left fadd l acc = S754_nan.
Proof.
  revert acc. induction l as [|p l IH]; intros acc [H|H]; simpl.
  - exact H.
  - destruct H.
  - apply IH. left. subst acc. apply fadd_nan_l.
  - apply IH. destruct H as [->|H]; [left; apply fadd_nan_r | right; exact H].
Qed.

Lemma fdot_not_finite (h : list f64) (i : nat) (v : f64) :
  h !! i = Some v -> not_finite v = true -> not_finite (fdot h h) = true.
Proof.
  intros Hi Hv. unfold fdot. apply sum_not_finite. right.
  apply Exists_exists. exists (fmul v v). split.
  - apply (list_elem_of_lookup_2 _ i).
    rewrite lookup_zip_with, Hi. reflexivity.
  - apply fmul_self_not_finite, Hv.
Qed.

Lemma fdot_nan (h : list f64) (i : nat) :
  h !! i = Some S754_nan -> fdot h h = S754_nan.
Proof.
  intros Hi. unfold fdot. apply sum_nan. right.
  apply list_elem_of_In, (list_elem_of_lookup_2 _ i).
  rewrite lookup_zip_with, Hi. reflexivity.
Qed.

(** One tap that is not finite before the normalisation makes the energy
    the taps are divided by infinite or NaN: the tap itself comes out as
    NaN, and so does the energy of what is returned. *)
Lemma normalise_not_finite (raw : list f64) (i : nat) (v : f64) :
  raw !! i = Some v -> not_finite v = true ->
  normalise raw !! i = Some S754_nan
  /\ fdot (normalise raw) (normalise raw) = S754_nan.
Proof.
  intros Hi Hv.
  assert (Hn : normalise raw !! i = Some S754_nan).
  { unfold normalise. rewrite list_lookup_fmap, Hi. simpl. f_equal.
    apply fdiv_not_finite; [exact Hv|].
    apply fsqrt_not_finite, (fdot_not_finite raw i v); assumption. }
  split; [exact Hn | apply (fdot_nan _ i), Hn].
Qed.

Section MissedSamples.
Variable np_sin np_cos : f64 -> f64.

Lemma rrc_tap_missed (alpha Ts t : f64) :
  rrc_missed alpha Ts t = true ->
  not_finite (rrc_tap np_sin np_cos alpha Ts t) = true.
Proof.
  unfold rrc_missed, rrc_tap. intros H.
  apply andb_prop in H as [H Hz]. apply andb_prop in H as [H H3].
  apply andb_prop in H as [H1 H2].
  apply negb_true_iff in H1, H2, H3. rewrite H1, H2, H3.
  apply fdiv_by_zero, Hz.
Qed.

Lemma rc_tap_missed (alpha Ts t : f64) :
  rc_missed alpha Ts t = true ->
  not_finite (rc_tap np_sin np_cos alpha Ts t) = true.
Proof.
  unfold rc_missed, rc_tap. intros H.
  apply andb_prop in H as [H Hz]. apply andb_prop in H as [H H3].
  apply andb_prop in H as [H1 H2].
  apply negb_true_iff in H1, H2, H3. rewrite H1, H2, H3.
  apply fmul_not_finite_r, fdiv_by_zero, Hz.
Qed.

(** The run of [rcosdesign] on parameters it accepts. *)
Lemma rcosdesign_run (alpha : f64) (span sps : Z) (Ts : f64) (shape : string)
      (fsps T_delta : f64) (tap : f64 -> f64 -> f64 -> f64) :
  float_of_int sps = Ok fsps -> float_truediv Ts fsps = Ok T_delta ->
  (0 < span * sps)%Z ->
  (shape = "sqrt" /\ tap = rrc_tap np_sin np_cos
   \/ shape = "normal" /\ tap = rc_tap np_sin np_cos) ->
  let N := (span * sps)%Z in
  let raw := map (fun x => tap alpha Ts (sample_time N T_delta x)) (range 0 N) in
  rcosdesign np_sin np_cos alpha span sps Ts shape
  = Ok (normalise (raw ++ [tap alpha Ts (sample_time N T_delta 0)]),
        map (sample_time N T_delta) (range 0 (N + 1))).
Proof.
  intros Hf Hd HN Hshape N raw.
  unfold rcosdesign, rcos_raw. rewrite Hf. simpl rbind. rewrite Hd. simpl rbind.
  unfold f64_zeros. fold N. destruct (Z.ltb_spec N 0); [lia|]. simpl rbind.
  assert (H0 : forall f : Z -> f64, getitem (map f (range 0 N)) 0 = Ok (f 0%Z)).
  { intros f. apply getitem_tabulated. lia. }
  destruct Hshape as [[-> ->] | [-> ->]].
  - change (String.eqb "sqrt" "sqrt") with true. cbv iota.
    rewrite (H0 (fun x => rrc_tap np_sin np_cos alpha Ts (sample_time N T_delta x))).
    reflexivity.
  - change (String.eqb "normal" "sqrt") with false.
    change (String.eqb "normal" "normal") with true. cbv iota.
    rewrite (H0 (fun x => rc_tap np_sin np_cos alpha Ts (sample_time N T_delta x))).
    reflexivity.
Qed.

(** A sample whose tap is not finite before the normalisation: the call
    returns, the tap comes out as NaN and the energy of the taps is NaN. *)
Lemma rcosdesign_tap_not_finite (alpha : f64) (span sps : Z) (Ts : f64)
      (shape : string) (fsps T_delta : f64) (tap : f64 -> f64 -> f64 -> f64) (x : Z) :
  float_of_int sps = Ok fsps -> float_truediv Ts fsps = Ok T_delta ->
  (0 <= x < span * sps)%Z ->
  (shape = "sqrt" /\ tap = rrc_tap np_sin np_cos
   \/ shape = "normal" /\ tap = rc_tap np_sin np_cos) ->
  not_finite (tap alpha Ts (sample_time (span * sps) T_delta x)) = true ->
  exists h t,
    rcosdesign np_sin np_cos alpha span sps Ts shape = Ok (h, t)
    /\ len h = (span * sps + 1)%Z
    /\ getitem h x = Ok S754_nan
    /\ fdot h h = S754_nan.
Proof.
  intros Hf Hd Hx Hshape Hv.
  rewrite (rcosdesign_run alpha span sps Ts shape fsps T_delta tap Hf Hd ltac:(lia) Hshape).
  set (N := (span * sps)%Z) in *.
  set (raw := map (fun x => tap alpha Ts (sample_time N T_delta x)) (range 0 N)
              ++ [tap alpha Ts (sample_time N T_delta 0)]).
  assert (Hi : raw !! Z.to_nat x = Some (tap alpha Ts (sample_time N T_delta x))).
  { unfold raw. rewrite lookup_app_l by (rewrite length_map, range_length; lia).
    rewrite list_lookup_fmap, range_lookup by lia. simpl. do 3 f_equal. lia. }
  destruct (normalise_not_finite raw _ _ Hi Hv) as [Hn He].
  eexists _, _. split; [reflexivity|]. split; [|split].
  - unfold len, normalise, raw. rewrite length_map, length_app, length_map, range_length.
    simpl. lia.
  - rewrite <- (Z2Nat.id x) by lia. apply getitem_nat, Hn.
  - exact He.
Qed.

End MissedSamples.

(** At [alpha = 0.75], [sps = 33] and [Ts = 1] the time of sample 44 is
    the double next above [Ts/(4*alpha)], and four times [alpha] times
    that time rounds to 1.  The same happens at sample 55 for
    [Ts/(2*alpha)]. *)
Lemma singular_times_at_one_ulp :
  let alpha := fdiv (f64_of_Z 3) (f64_of_Z 4) in
  let Ts := f64_of_Z 1 in
  let T_delta := fdiv Ts (f64_of_Z 33) in
  sample_time 66 T_delta 44 = S754_finite false 6004799503160662 (-54)
  /\ fdiv Ts (fmul (f64_of_Z 4) alpha) = S754_finite false 6004799503160661 (-54)
  /\ fmul (fmul (f64_of_Z 4) alpha) (sample_time 66 T_delta 44) = f64_of_Z 1
  /\ sample_time 66 T_delta 55 = S754_finite false 6004799503160662 (-53)
  /\ fdiv Ts (fmul (f64_of_Z 2) alpha) = S754_finite false 6004799503160661 (-53)
  /\ fmul (fmul (f64_of_Z 2) alpha) (sample_time 66 T_delta 55) = f64_of_Z 1.
Proof. vm_compute. repeat split. Qed.

(** C3 (the code misses its own special case): [rcosdesign(0.75, 2, 33)]
    is a call with valid parameters.  Whatever doubles [np.sin] and
    [np.cos] return, the samples 22 and 44 of the 'sqrt' shape, and the
    samples 11 and 55 of the 'normal' shape, pass none of the equality
    tests written for the singular times, the general formula divides by
    zero there, and the taps returned hold NaN at those samples: their
    energy is NaN, not 1. *)
Theorem rcosdesign_misses_singular_samples (np_sin np_cos : f64 -> f64) :
  let alpha := fdiv (f64_of_Z 3) (f64_of_Z 4) in
  let Ts := f64_of_Z 1 in
  (exists h t,
      rcosdesign np_sin np_cos alpha 2 33 Ts "sqrt" = Ok (h, t)
      /\ len h = 67%Z
      /\ getitem h 22 = Ok S754_nan /\ getitem h 44 = Ok S754_nan
      /\ fdot h h = S754_nan)
  /\ (exists h t,
         rcosdesign np_sin np_cos alpha 2 33 Ts "normal" = Ok (h, t)
         /\ len h = 67%Z
         /\ getitem h 11 = Ok S754_nan /\ getitem h 55 = Ok S754_nan
         /\ fdot h h = S754_nan).
Proof.
  intros alpha Ts.
  set (fsps := f64_of_Z 33). set (T_delta := fdiv Ts fsps).
  assert (Hf : float_of_int 33 = Ok fsps) by (vm_compute; reflexivity).
  assert (Hd : float_truediv Ts fsps = Ok T_delta) by (vm_compute; reflexivity).
  split.
  - destruct (rcosdesign_tap_not_finite np_sin np_cos alpha 2 33 Ts "sqrt" fsps T_delta
                (rrc_tap np_sin np_cos) 22 Hf Hd ltac:(lia) ltac:(left; split; reflexivity))
      as (h & t & Hr & Hl & H22 & He).
    { apply rrc_tap_missed. vm_compute. reflexivity. }
    destruct (rcosdesign_tap_not_finite np_sin np_cos alpha 2 33 Ts "sqrt" fsps T_delta
                (rrc_tap np_sin np_cos) 44 Hf Hd ltac:(lia) ltac:(left; split; reflexivity))
      as (h' & t' & Hr' & _ & H44 & _).
    { apply rrc_tap_missed. vm_compute. reflexivity. }
    rewrite Hr in Hr'. injection Hr' as <- <-.
    exists h, t. repeat split; assumption.
  - destruct (rcosdesign_tap_not_finite np_sin np_cos alpha 2 33 Ts "normal" fsps T_delta
                (rc_tap np_sin np_cos) 11 Hf Hd ltac:(lia) ltac:(right; split; reflexivity))
      as (h & t & Hr & Hl & H11 & He).
    { apply rc_tap_missed. vm_compute. reflexivity. }
    destruct (rcosdesign_tap_not_finite np_sin np_cos alpha 2 33 Ts "normal" fsps T_delta
                (rc_tap np_sin np_cos) 55 Hf Hd ltac:(lia) ltac:(right; split; reflexivity))
      as (h' & t' & Hr' & _ & H55 & _).
    { apply rc_tap_missed. vm_compute. reflexivity. }
    rewrite Hr in Hr'. injection Hr' as <- <-.
    exists h, t. repeat split; assumption.
Qed.

(** * Further properties of the module *)

(** ** Bit error rate *)

Lemma wrap64_sub_zero (a b : Z) :
  int64 a -> int64 b -> (wrap64 (a - b) = 0%Z <-> a = b).
Proof.
  unfold int64, wrap64. intros Ha Hb.
  change (2 ^ 63)%Z with 9223372036854775808%Z in *.
  change (2 ^ 64)%Z with 18446744073709551616%Z in *.
  pose proof (Z.div_mod (a - b + 9223372036854775808) 18446744073709551616 ltac:(lia)) as Hd.
  pose proof (Z.mod_pos_bound (a - b + 9223372036854775808) 18446744073709551616 ltac:(lia)) as Hm.
  split; intros H; [|subst b; rewrite Z.sub_diag; reflexivity].
  lia.
Qed.

Lemma count_nonzero_differing (b1 b2 : list Z) :
  Forall int64 b1 -> Forall int64 b2 ->
  count_nonzero (zip_with (fun a b => wrap64 (a - b)) b1 b2) = differing b1 b2.
Proof.
  unfold count_nonzero, differing, len. intros H1. revert b2.
  induction H1 as [|a b1 Ha H1 IH]; intros b2 H2; [reflexivity|].
  destruct H2 as [|b b2 Hb H2]; [reflexivity|]. cbn [zip_with zip].
  rewrite !filter_cons. specialize (IH b2 H2). apply Nat2Z.inj in IH.
  pose proof (wrap64_sub_zero a b Ha Hb) as Hw. cbn [fst snd].
  destruct (decide (wrap64 (a - b) <> 0%Z)) as [Hd|Hd];
    destruct (decide (a <> b)) as [He|He]; cbn [length]; try (rewrite IH; reflexivity).
  - exfalso. apply Hd. apply Hw. destruct (Z.eq_dec a b); [assumption|contradiction].
  - exfalso. apply Hd. intros H0. apply He, Hw, H0.
Qed.

Lemma differing_bounds (b1 b2 : list Z) :
  (0 <= differing b1 b2 <= len b1)%Z.
Proof.
  unfold differing, len. split; [lia|].
  apply inj_le. etransitivity; [apply length_filter|].
  rewrite length_zip. lia.
Qed.

Lemma differing_zero (b1 b2 : list Z) :
  length b1 = length b2 -> (differing b1 b2 = 0%Z <-> b1 = b2).
Proof.
  unfold differing, len. revert b2.
  induction b1 as [|a b1 IH]; intros [|b b2] Hlen; try discriminate.
  - split; reflexivity.
  - cbn [zip zip_with]. rewrite filter_cons. cbn [fst snd].
    injection Hlen as Hlen. specialize (IH b2 Hlen).
    destruct (decide (a <> b)) as [Hd|Hd]; cbn [length].
    + split; [lia | intros [= -> _]; contradiction].
    + assert (a = b) as -> by (destruct (Z.eq_dec a b); [assumption|contradiction]).
      rewrite IH. split; [intros ->; reflexivity | intros [= ->]; reflexivity].
Qed.

Lemma count_ratio_Ok (numpy_count : bool) (count n : Z) :
  n <> 0%Z -> count_ratio numpy_count count n = Ok (QNum (IZR count / IZR n)).
Proof.
  intros Hn. unfold count_ratio, np_true_divide. destruct numpy_count.
  - destruct (Z.eqb_spec n 0); [contradiction|reflexivity].
  - rewrite pydiv_Ok; [reflexivity|]. intros H. apply eq_IZR in H. contradiction.
Qed.

(** The bit error rate of two equally long, non-empty int64 arrays is the
    number of positions where they differ over the length; it lies in
    [0, 1] and is zero exactly when the arrays are equal. *)
Theorem calculateBer_counts_differences (numpy_count : bool) (b1 b2 : list Z) :
  length b1 = length b2 -> b1 <> [] -> Forall int64 b1 -> Forall int64 b2 ->
  exists ber,
    calculateBer numpy_count b1 b2 = Ok (QNum ber)
    /\ ber = IZR (differing b1 b2) / IZR (len b1)
    /\ 0 <= ber <= 1
    /\ (ber = 0 <-> b1 = b2).
Proof.
  intros Hlen Hne H1 H2.
  assert (Hn : (0 < len b1)%Z).
  { unfold len. destruct b1; [congruence|]. simpl. lia. }
  assert (HnR : 0 < IZR (len b1)) by (apply IZR_lt; assumption).
  pose proof (differing_bounds b1 b2) as [Hd0 Hd1].
  apply IZR_le in Hd0, Hd1.
  eexists. split; [|split; [reflexivity|split]].
  - unfold calculateBer, broadcast2. rewrite Hlen, Nat.eqb_refl. simpl rbind.
    rewrite count_nonzero_differing by assumption.
    apply count_ratio_Ok. lia.
  - split.
    + apply Rmult_le_pos; [assumption|]. apply Rlt_le, Rinv_0_lt_compat. assumption.
    + apply (Rmult_le_reg_r (IZR (len b1))); [assumption|].
      unfold Rdiv. rewrite Rmult_assoc, Rinv_l by lra. lra.
  - rewrite <- (differing_zero b1 b2 Hlen). split.
    + intros H. apply eq_IZR.
      apply (Rmult_eq_reg_r (/ IZR (len b1))); [|apply Rinv_neq_0_compat; lra].
      unfold Rdiv in H. rewrite H. ring.
    + intros ->. unfold Rdiv. ring.
Qed.

Lemma calculateBer_counts_differences_witness :
  exists ber,
    calculateBer true [1; 0; 1; 1]%Z [1; 1; 1; 0]%Z = Ok (QNum ber)
    /\ ber = IZR (differing [1; 0; 1; 1]%Z [1; 1; 1; 0]%Z) / IZR (len [1; 0; 1; 1]%Z)
    /\ 0 <= ber <= 1
    /\ (ber = 0 <-> [1; 0; 1; 1]%Z = [1; 1; 1; 0]%Z).
Proof.
  apply (calculateBer_counts_differences true [1; 0; 1; 1]%Z [1; 1; 1; 0]%Z).
  - reflexivity.
  - discriminate.
  - repeat constructor; unfold int64; lia.
  - repeat constructor; unfold int64; lia.
Defined.

Lemma pydiv_by_zero (a : R) : pydiv a 0 = Raise ZeroDivisionError.
Proof. unfold pydiv. destruct (Req_dec_T 0 0); [reflexivity|contradiction]. Qed.

(** With an empty first array no bit error rate is returned.  The
    difference is empty when the second array has at most one element,
    and the count 0 is divided by the length 0: numpy's division returns
    NaN, Python's raises ZeroDivisionError.  A longer second array does
    not broadcast against the empty one, and the subtraction raises
    ValueError. *)
Theorem calculateBer_empty_gives_no_rate (numpy_count : bool) (b2 : list Z) :
  calculateBer numpy_count [] b2
  = if (length b2 <=? 1)%nat
    then (if numpy_count then Ok QNaN else Raise ZeroDivisionError)
    else Raise ValueError.
Proof.
  unfold calculateBer, broadcast2, count_ratio.
  destruct b2 as [|b [|b' b2]]; simpl.
  - destruct numpy_count; [reflexivity|]. rewrite pydiv_by_zero. reflexivity.
  - destruct numpy_count; [reflexivity|]. rewrite pydiv_by_zero. reflexivity.
  - reflexivity.
Qed.

(** ** Centred index and frequency axes *)

Lemma getitem_range (lo hi i : Z) :
  (0 <= i < hi - lo)%Z -> getitem (range lo hi) i = Ok (lo + i)%Z.
Proof.
  intros Hi. rewrite <- (Z2Nat.id i) at 1 by lia.
  apply getitem_nat. rewrite range_lookup by lia. f_equal. lia.
Qed.

Lemma centred_bounds (n : Z) :
  (0 <= n)%Z -> ((- (n - 1)) / 2 = - (n / 2))%Z /\ ((n - 1) / 2 + 1 = n - n / 2)%Z.
Proof.
  intros Hn.
  pose proof (Z.div_mod n 2 ltac:(lia)) as Hd.
  pose proof (Z.mod_pos_bound n 2 ltac:(lia)) as Hm.
  assert (Hc : (n mod 2 = 0 \/ n mod 2 = 1)%Z) by lia.
  destruct Hc as [Hc|Hc]; rewrite Hc in Hd.
  - split.
    + replace (- (n - 1))%Z with (1 + - (n / 2) * 2)%Z by lia.
      rewrite Z.div_add by lia. reflexivity.
    + replace (n - 1)%Z with (1 + (n / 2 - 1) * 2)%Z by lia.
      rewrite Z.div_add by lia. change (1 / 2)%Z with 0%Z. lia.
  - split.
    + replace (- (n - 1))%Z with (0 + - (n / 2) * 2)%Z by lia.
      rewrite Z.div_add by lia. reflexivity.
    + replace (n - 1)%Z with (0 + (n / 2) * 2)%Z by lia.
      rewrite Z.div_add by lia. change (0 / 2)%Z with 0%Z. lia.
Qed.

(** [zeroCenteredArray(n)] holds the [n] consecutive integers
    [i - n//2], so the zero sits at index [n//2]. *)
Theorem zeroCenteredArray_layout (n : Z) :
  (0 <= n)%Z ->
  len (zeroCenteredArray n) = n
  /\ forall i, (0 <= i < n)%Z ->
       getitem (zeroCenteredArray n) i = Ok (i - n / 2)%Z.
Proof.
  intros Hn. destruct (centred_bounds n Hn) as [H1 H2].
  unfold zeroCenteredArray. rewrite H1, H2. split.
  - unfold len. rewrite range_length. lia.
  - intros i Hi. rewrite getitem_range by lia. f_equal. lia.
Qed.

Lemma zeroCenteredArray_layout_witness :
  len (zeroCenteredArray 4) = 4%Z
  /\ forall i, (0 <= i < 4)%Z -> getitem (zeroCenteredArray 4) i = Ok (i - 4 / 2)%Z.
Proof. apply (zeroCenteredArray_layout 4). lia. Defined.

Lemma getitem_map_Ok {A B : Type} (f : A -> B) (l : list A) (i : Z) (a : A) :
  getitem l i = Ok a -> getitem (map f l) i = Ok (f a).
Proof. intros H. rewrite getitem_map, H. reflexivity. Qed.

(** [frequencyAxis(n, fs)] has [n] points spaced [fs/n] apart, the zero
    frequency at index [n//2], all within [[-fs/2, fs/2)]. *)
Theorem frequencyAxis_layout (n : Z) (fs : R) :
  (1 <= n)%Z -> 0 < fs ->
  len (frequencyAxis n fs) = n
  /\ forall i, (0 <= i < n)%Z ->
       exists f, getitem (frequencyAxis n fs) i = Ok f
         /\ f = IZR (i - n / 2) / IZR n * fs
         /\ - (fs / 2) <= f < fs / 2
         /\ (f = 0 <-> i = (n / 2)%Z).
Proof.
  intros Hn Hfs. destruct (zeroCenteredArray_layout n ltac:(lia)) as [Hlen Hget].
  unfold frequencyAxis. split; [rewrite len_map; assumption|].
  intros i Hi. eexists. split; [apply getitem_map_Ok, Hget; assumption|].
  split; [reflexivity|].
  assert (HnR : 0 < IZR n) by (apply IZR_lt; lia).
  pose proof (Z.div_mod n 2 ltac:(lia)) as Hd.
  pose proof (Z.mod_pos_bound n 2 ltac:(lia)) as Hm.
  assert (Hlo : (- n <= 2 * (i - n / 2))%Z) by lia.
  assert (Hhi : (2 * (i - n / 2) < n)%Z) by lia.
  apply IZR_le in Hlo. apply IZR_lt in Hhi.
  rewrite mult_IZR in Hlo, Hhi. rewrite opp_IZR in Hlo.
  set (k := IZR (i - n / 2)) in *.
  assert (Hq : k / IZR n * fs * IZR n = k * fs) by (field; lra).
  split; [split|].
  - apply (Rmult_le_reg_r (IZR n)); [assumption|]. rewrite Hq. nra.
  - apply (Rmult_lt_reg_r (IZR n)); [assumption|]. rewrite Hq. nra.
  - split.
    + intros H0. assert (Hk : k = 0).
      { assert (k * fs = 0) by (rewrite <- Hq, H0; ring). nra. }
      unfold k in Hk. apply eq_IZR in Hk. lia.
    + intros ->. unfold k. rewrite Z.sub_diag. unfold Rdiv. ring.
Qed.

Lemma frequencyAxis_layout_witness :
  len (frequencyAxis 8 1) = 8%Z
  /\ forall i, (0 <= i < 8)%Z ->
       exists f, getitem (frequencyAxis 8 1) i = Ok f
         /\ f = IZR (i - 8 / 2) / IZR 8 * 1
         /\ - (1 / 2) <= f < 1 / 2
         /\ (f = 0 <-> i = (8 / 2)%Z).
Proof. apply (frequencyAxis_layout 8 1); [lia | lra]. Defined.

(** ** Centring one array in another *)

Lemma centre_in_zeros (long short : list R) :
  (len short <= len long)%Z ->
  let zi := ((len long - len short) / 2)%Z in
  setslice (replicate (Z.to_nat (len long)) 0) zi (zi + len short) short
  = Ok (replicate (Z.to_nat zi) 0 ++ short
        ++ replicate (length long - length short - Z.to_nat zi) 0)
  /\ (Z.to_nat zi + length short <= length long)%nat.
Proof.
  intros Hle zi. unfold len in *. rewrite Nat2Z.id.
  set (n := length long) in *.
  assert (Hzi : (0 <= zi /\ zi + Z.of_nat (length short) <= Z.of_nat n)%Z).
  { unfold zi.
    pose proof (Z.div_mod (Z.of_nat n - Z.of_nat (length short)) 2 ltac:(lia)).
    pose proof (Z.mod_pos_bound (Z.of_nat n - Z.of_nat (length short)) 2 ltac:(lia)).
    lia. }
  clearbody zi. split; [|lia].
  assert (Hs : slice_start (replicate n 0) zi = Z.to_nat zi).
  { unfold slice_start, slice_bound, len. rewrite length_replicate.
    destruct (Z.ltb_spec zi 0); lia. }
  assert (Hl : slice_len (replicate n 0) zi (zi + Z.of_nat (length short)) = length short).
  { unfold slice_len, slice_bound, len in *. rewrite length_replicate.
    destruct (Z.ltb_spec zi 0); [lia|].
    destruct (Z.ltb_spec (zi + Z.of_nat (length short)) 0); lia. }
  rewrite setslice_exact by (symmetry; assumption).
  rewrite Hs, Hl, take_replicate, drop_replicate. f_equal.
  f_equal; [f_equal; lia|]. f_equal. f_equal. lia.
Qed.

(** [arrayCenter] returns the longer array unchanged and the shorter one
    between [(n-m)//2] zeros on the left and the remaining zeros on the
    right, so both results have the length of the longer array. *)
Theorem arrayCenter_pads_shorter (x y : list R) :
  let long := if (len x <? len y)%Z then y else x in
  let short := if (len x <? len y)%Z then x else y in
  let zi := Z.to_nat ((len long - len short) / 2) in
  exists z,
    arrayCenter x y = Ok (long, z)
    /\ z = replicate zi 0 ++ short ++ replicate (length long - length short - zi) 0
    /\ length z = length long.
Proof.
  intros long short zi. unfold arrayCenter. cbv zeta.
  subst long short zi.
  destruct (Z.ltb_spec (len x) (len y)) as [Hlt|Hge].
  - rewrite zeros_Ok by (unfold len; lia). simpl rbind.
    destruct (centre_in_zeros y x ltac:(lia)) as [-> Hfit].
    simpl rbind. eexists. split; [reflexivity|]. split; [reflexivity|].
    rewrite !length_app, !length_replicate. lia.
  - rewrite zeros_Ok by (unfold len; lia). simpl rbind.
    destruct (centre_in_zeros x y ltac:(lia)) as [-> Hfit].
    simpl rbind. eexists. split; [reflexivity|]. split; [reflexivity|].
    rewrite !length_app, !length_replicate. lia.
Qed.

(** ** Valley fill *)

Lemma suffix_max_length (l : list R) : length (suffix_max l) = length l.
Proof.
  induction l as [|a l IH]; [reflexivity|]. simpl.
  destruct (suffix_max l) as [|b r]; simpl in *; [|rewrite <- IH; reflexivity].
  rewrite <- IH. reflexivity.
Qed.

Lemma suffix_max_fixed (l : list R) : non_increasing l -> suffix_max l = l.
Proof.
  induction l as [|a l IH]; [reflexivity|]. intros [Ha Hl]. simpl.
  rewrite (IH Hl). destruct l as [|b r]; [reflexivity|].
  destruct (Rlt_dec a b); [lra|reflexivity].
Qed.

Lemma suffix_max_non_increasing (l : list R) : non_increasing (suffix_max l).
Proof.
  induction l as [|a l IH]; [exact I|]. simpl.
  destruct (suffix_max l) as [|b r]; [split; exact I|].
  split; [|exact IH]. destruct (Rlt_dec a b); lra.
Qed.

Lemma suffix_max_idem (l : list R) : suffix_max (suffix_max l) = suffix_max l.
Proof. apply suffix_max_fixed, suffix_max_non_increasing. Qed.

Lemma suffix_max_app (p s : list R) :
  suffix_max (p ++ s) = suffix_max (p ++ suffix_max s).
Proof.
  induction p as [|a p IH]; simpl; [symmetry; apply suffix_max_idem|].
  rewrite IH. reflexivity.
Qed.

Lemma getitem_app_middle {A : Type} (p : list A) (a : A) (s : list A) :
  getitem (p ++ a :: s) (len p) = Ok a.
Proof. apply getitem_nat. apply list_lookup_middle. reflexivity. Qed.

Lemma valleyFill_from (pre suf : list R) :
  suf <> [] -> suffix_max suf = suf ->
  for_each (fun i x =>
              xi <- getitem x i ;;
              xj <- getitem x (i + 1) ;;
              if Rlt_dec xi xj then setitem x i xj else Ok x)
           (rev (range 0 (len pre))) (pre ++ suf)
  = Ok (suffix_max (pre ++ suf)).
Proof.
  revert suf. induction pre as [|a p IH] using rev_ind; intros suf Hne Hfix.
  - simpl. rewrite Hfix. reflexivity.
  - destruct suf as [|b r]; [congruence|].
    unfold len. rewrite length_app. simpl length.
    replace (length p + 1)%nat with (S (length p)) by lia.
    rewrite range_snoc, rev_app_distr. simpl rev. cbn [app for_each].
    rewrite <- app_assoc. cbn [app].
    fold (len p). rewrite getitem_app_middle. simpl rbind.
    replace (p ++ a :: b :: r) with ((p ++ [a]) ++ b :: r) at 1
      by (rewrite <- app_assoc; reflexivity).
    replace (len p + 1)%Z with (len (p ++ [a]))
      by (unfold len; rewrite length_app; simpl; lia).
    rewrite getitem_app_middle. simpl rbind.
    set (a' := if Rlt_dec a b then b else a).
    assert (Hstep : (if Rlt_dec a b then setitem (p ++ a :: b :: r) (len p) b
                     else Ok (p ++ a :: b :: r)) = Ok (p ++ a' :: b :: r)).
    { unfold a'. destruct (Rlt_dec a b); [|reflexivity].
      unfold len. rewrite setitem_nat by (rewrite length_app; simpl; lia).
      f_equal. rewrite insert_app_r_alt by lia.
      rewrite Nat.sub_diag. reflexivity. }
    rewrite Hstep. simpl rbind.
    assert (Hfix' : suffix_max (a' :: b :: r) = a' :: b :: r).
    { apply suffix_max_fixed. split.
      - unfold a'. destruct (Rlt_dec a b); lra.
      - rewrite <- Hfix. apply suffix_max_non_increasing. }
    rewrite (IH (a' :: b :: r)) by (discriminate || assumption).
    f_equal. rewrite (suffix_max_app p (a :: b :: r)).
    f_equal. f_equal. simpl. simpl in Hfix. rewrite Hfix. reflexivity.
Qed.

Lemma valleyFill_pass_suffix_max (x : list R) :
  valleyFill_pass x = Ok (suffix_max x).
Proof.
  unfold valleyFill_pass, range_downto.
  destruct x as [|a x] using rev_ind; [reflexivity|].
  replace (len (x ++ [a]) - 2 + 1)%Z with (len x)
    by (unfold len; rewrite length_app; simpl; lia).
  apply valleyFill_from; [discriminate|reflexivity].
Qed.

Lemma suffix_max_spec (l : list R) (i : nat) (yi : R) :
  suffix_max l !! i = Some yi ->
  (exists j, (i <= j)%nat /\ l !! j = Some yi)
  /\ forall j xj, (i <= j)%nat -> l !! j = Some xj -> xj <= yi.
Proof.
  revert i yi. induction l as [|a l IH]; intros i yi Hi; [discriminate|].
  simpl in Hi. destruct (suffix_max l) as [|b r] eqn:Hs.
  - assert (l = []) as ->.
    { apply (f_equal length) in Hs. rewrite suffix_max_length in Hs.
      destruct l; [reflexivity|discriminate]. }
    destruct i as [|i]; [|discriminate]. injection Hi as <-. split.
    + exists 0%nat. split; [lia|reflexivity].
    + intros [|j] xj _ Hj; [injection Hj as <-; lra | discriminate].
  - destruct i as [|i].
    + injection Hi as <-.
      destruct (IH 0%nat b eq_refl) as [(j & _ & Hj) Hub]. split.
      * destruct (Rlt_dec a b); [exists (S j) | exists 0%nat];
          (split; [lia|]); [exact Hj | reflexivity].
      * intros [|j'] xj _ Hx.
        -- injection Hx as <-. destruct (Rlt_dec a b); lra.
        -- specialize (Hub j' xj ltac:(lia) Hx). destruct (Rlt_dec a b); lra.
    + destruct (IH i yi Hi) as [(j & Hij & Hj) Hub]. split.
      * exists (S j). split; [lia|exact Hj].
      * intros [|j'] xj Hle Hx; [lia|]. apply (Hub j' xj); [lia|exact Hx].
Qed.

Lemma suffix_max_ge (l : list R) : Forall2 Rle l (suffix_max l).
Proof.
  induction l as [|a l IH]; [constructor|]. simpl.
  destruct (suffix_max l) as [|b r] eqn:Hs.
  - inversion IH; subst. constructor; [lra|constructor].
  - constructor; [destruct (Rlt_dec a b); lra | exact IH].
Qed.

Lemma Forall2_rev {A : Type} (P : A -> A -> Prop) (l k : list A) :
  Forall2 P l k -> Forall2 P (rev l) (rev k).
Proof.
  induction 1 as [|a b l k Hab _ IH]; [constructor|]. simpl.
  apply Forall2_app; [exact IH | constructor; [exact Hab | constructor]].
Qed.

(** [valleyFill(x)] replaces every sample by the largest sample from its
    position to the end: the result is as long as [x], never increases,
    and filling it again changes nothing. *)
Theorem valleyFill_running_max_from_right (x : list R) :
  exists y,
    valleyFill x false = Ok y
    /\ length y = length x
    /\ non_increasing y
    /\ (forall i yi, y !! i = Some yi ->
          (exists j, (i <= j)%nat /\ x !! j = Some yi)
          /\ forall j xj, (i <= j)%nat -> x !! j = Some xj -> xj <= yi)
    /\ valleyFill y false = Ok y.
Proof.
  exists (suffix_max x). unfold valleyFill. rewrite !valleyFill_pass_suffix_max.
  split; [reflexivity|]. split; [apply suffix_max_length|].
  split; [apply suffix_max_non_increasing|]. split.
  - intros i yi. apply suffix_max_spec.
  - rewrite suffix_max_idem. reflexivity.
Qed.

(** With [flip] the fill runs from the left: the result never decreases,
    lies above [x] sample by sample, and a sequence that never decreases
    is returned unchanged. *)
Theorem valleyFill_flip_running_max_from_left (x : list R) :
  exists y,
    valleyFill x true = Ok y
    /\ length y = length x
    /\ non_increasing (rev y)
    /\ Forall2 Rle x y
    /\ valleyFill y true = Ok y
    /\ (non_increasing (rev x) -> y = x).
Proof.
  exists (rev (suffix_max (rev x))). unfold valleyFill.
  rewrite !valleyFill_pass_suffix_max. cbn [rmap].
  rewrite !rev_involutive, suffix_max_idem.
  split; [reflexivity|]. split; [rewrite length_rev, suffix_max_length, length_rev; reflexivity|].
  split; [apply suffix_max_non_increasing|]. split.
  - rewrite <- (rev_involutive x) at 1. apply Forall2_rev, suffix_max_ge.
  - split; [reflexivity|].
    intros H. rewrite (suffix_max_fixed _ H). apply rev_involutive.
Qed.

(** ** Zero insertion and upsampling *)

Lemma zeroInsert_rows (x : list C) (n : nat) :
  (1 <= n)%nat ->
  zip_with (fun row xk => <[0%nat := xk]> row)
           (replicate (length x) (replicate n C0)) x
  = map (fun xk => xk :: replicate (n - 1) C0) x.
Proof.
  intros Hn. destruct n as [|n]; [lia|]. simpl. rewrite Nat.sub_0_r.
  induction x as [|a x IH]; simpl; [reflexivity|]. rewrite IH. reflexivity.
Qed.

Lemma concat_lookup_uniform {A : Type} (n : nat) (cs : list (list A)) (q r : nat) :
  Forall (fun c => length c = n) cs -> (r < n)%nat ->
  concat cs !! (q * n + r)%nat = cs !! q ≫= (fun c => c !! r).
Proof.
  intros Hcs Hr. revert q. induction Hcs as [|c cs Hc _ IH]; intros q.
  - simpl. rewrite !lookup_nil. reflexivity.
  - destruct q as [|q]; simpl.
    + rewrite lookup_app_l by lia. reflexivity.
    + rewrite lookup_app_r by lia.
      replace (n + q * n + r - length c)%nat with (q * n + r)%nat by lia.
      apply IH.
Qed.

Lemma zeroInsert_Ok (x : list C) (L : Z) :
  (1 <= L)%Z ->
  zeroInsert x L
  = Ok (slice (concat (map (fun xk => xk :: replicate (Z.to_nat L - 1) C0) x))
              0 (- (L - 1))).
Proof.
  intros HL. unfold zeroInsert.
  destruct (Z.ltb_spec L 0); [lia|]. destruct (Z.eqb_spec L 0); [lia|].
  rewrite zeroInsert_rows by lia. reflexivity.
Qed.

Lemma zeroInsert_spread (x : list C) (L : Z) :
  (2 <= L)%Z -> x <> [] ->
  exists out,
    zeroInsert x L = Ok out
    /\ len out = ((len x - 1) * L + 1)%Z
    /\ forall i, (0 <= i < len out)%Z ->
         getitem out i = if (i mod L =? 0)%Z then getitem x (i / L) else Ok C0.
Proof.
  intros HL Hx. rewrite zeroInsert_Ok by lia.
  set (rows := map (fun xk => xk :: replicate (Z.to_nat L - 1) C0) x).
  assert (Hrows : Forall (fun c => length c = Z.to_nat L) rows).
  { unfold rows. apply Forall_forall. intros c Hc.
    apply list_elem_of_fmap in Hc as (xk & -> & _). simpl.
    rewrite length_replicate. lia. }
  assert (Hcat : length (concat rows) = (length x * Z.to_nat L)%nat).
  { rewrite (concat_length_uniform (Z.to_nat L)) by assumption.
    unfold rows. rewrite length_map. reflexivity. }
  assert (Hx1 : (1 <= length x)%nat) by (destruct x; [congruence|simpl; lia]).
  assert (Hlen : len (slice (concat rows) 0 (- (L - 1))) = ((len x - 1) * L + 1)%Z).
  { rewrite slice_trim_length; unfold len; rewrite ?Hcat; nia. }
  eexists. split; [reflexivity|]. split; [exact Hlen|].
  intros i Hi. rewrite Hlen in Hi.
  pose proof (Z.div_mod i L ltac:(lia)) as Hd.
  pose proof (Z.mod_pos_bound i L ltac:(lia)) as Hm.
  assert (Hq : (0 <= i / L < len x)%Z).
  { split; [apply Z.div_pos; lia|]. apply Z.div_lt_upper_bound; nia. }
  rewrite <- (Z2Nat.id i) at 1 by lia.
  unfold getitem at 1.
  destruct (Z.ltb_spec (Z.of_nat (Z.to_nat i)) 0); [lia|].
  destruct (Z.ltb_spec (Z.of_nat (Z.to_nat i)) 0); [lia|].
  rewrite Nat2Z.id. unfold slice.
  rewrite lookup_take_lt.
  2:{ unfold slice_len, slice_bound, len. rewrite Hcat.
      destruct (Z.ltb_spec (- (L - 1)) 0); [|lia].
      destruct (Z.ltb_spec 0 0); [lia|]. unfold len in *. nia. }
  assert (Hs0 : slice_start (concat rows) 0 = 0%nat).
  { unfold slice_start, slice_bound. simpl. rewrite Z.min_l by (unfold len; lia).
    reflexivity. }
  rewrite Hs0, drop_0.
  replace (Z.to_nat i) with (Z.to_nat (i / L) * Z.to_nat L + Z.to_nat (i mod L))%nat by nia.
  rewrite (concat_lookup_uniform (Z.to_nat L)) by (assumption || lia).
  unfold rows. rewrite list_lookup_fmap.
  destruct (lookup_lt_is_Some_2 x (Z.to_nat (i / L)) ltac:(unfold len in Hq; lia)) as [xk Hxk].
  rewrite Hxk. cbn [fmap option_fmap option_map mbind option_bind].
  destruct (Z.eqb_spec (i mod L) 0) as [E|E].
  - rewrite E. simpl.
    rewrite <- (Z2Nat.id (i / L)) by lia. symmetry. apply getitem_nat. assumption.
  - destruct (Z.to_nat (i mod L)) as [|r] eqn:Er; [lia|]. simpl.
    rewrite lookup_replicate_2 by lia. reflexivity.
Qed.

(** With [L >= 2], [zeroInsert(x, L)] spreads a non-empty [x] over
    [(len(x)-1)*L + 1] samples: sample [k] of [x] at index [k*L], zeros in
    between, no trailing zeros. *)
Theorem zeroInsert_layout (x : list C) (L : Z) :
  (2 <= L)%Z -> x <> [] ->
  exists out,
    zeroInsert x L = Ok out
    /\ len out = ((len x - 1) * L + 1)%Z
    /\ forall i, (0 <= i < len out)%Z ->
         getitem out i = if (i mod L =? 0)%Z then getitem x (i / L) else Ok C0.
Proof. apply zeroInsert_spread. Qed.

Lemma zeroInsert_layout_witness :
  exists out,
    zeroInsert [C1; C1] 3 = Ok out
    /\ len out = ((len [C1; C1] - 1) * 3 + 1)%Z
    /\ forall i, (0 <= i < len out)%Z ->
         getitem out i = if (i mod 3 =? 0)%Z then getitem [C1; C1] (i / 3) else Ok C0.
Proof. apply (zeroInsert_layout [C1; C1] 3); [lia | discriminate]. Defined.

(** With [L = 1] the cut [0:-(L-1)] is [0:0]: [zeroInsert] returns an
    empty array whatever [x] is, and [upsample] fails in the convolution. *)
Theorem zeroInsert_by_one_is_empty (x p : list C) :
  zeroInsert x 1 = Ok [] /\ upsample x p 1 = Raise ValueError.
Proof.
  assert (H : zeroInsert x 1 = Ok []).
  { rewrite zeroInsert_Ok by lia. f_equal.
    change (- (1 - 1))%Z with 0%Z.
    unfold slice, slice_len, slice_bound. cbn [Z.ltb Z.compare].
    rewrite Z.sub_diag. reflexivity. }
  split; [exact H|]. unfold upsample. rewrite H. reflexivity.
Qed.

(** For [L >= 2] and non-empty [x] and [p], [upsample] returns
    [(len(x)-1)*L + len(p)] samples. *)
Theorem upsample_length (x p : list C) (L : Z) :
  (2 <= L)%Z -> x <> [] -> p <> [] ->
  exists y, upsample x p L = Ok y /\ len y = ((len x - 1) * L + len p)%Z.
Proof.
  intros HL Hx Hp.
  destruct (zeroInsert_spread x L HL Hx) as (out & Hout & Hlen & _).
  unfold upsample. rewrite Hout. simpl rbind.
  assert (Hx1 : (1 <= len x)%Z) by (unfold len; destruct x; [congruence|simpl; lia]).
  destruct (convolve_length Cmul Cadd C0 out p) as (c & Hc & Hcl).
  { apply len_nonempty. nia. }
  { assumption. }
  exists c. split; [exact Hc|]. lia.
Qed.

Lemma upsample_length_witness :
  exists y, upsample [C1; C1] [C1; C1; C1] 4 = Ok y
            /\ len y = ((len [C1; C1] - 1) * 4 + len [C1; C1; C1])%Z.
Proof. apply (upsample_length [C1; C1] [C1; C1; C1] 4); [lia | discriminate | discriminate]. Defined.

(** ** Symbols to IQ samples and decisions *)

Lemma mapM_Ok {A B : Type} (f : A -> result B) (g : A -> B) (l : list A) :
  Forall (fun a => f a = Ok (g a)) l -> mapM f l = Ok (map g l).
Proof.
  induction 1 as [|a l Ha _ IH]; simpl; [reflexivity|].
  rewrite Ha. simpl. rewrite IH. reflexivity.
Qed.

Lemma argmin_from_keeps (t : list R) (i : nat) (best : R) (ibest : nat) :
  Forall (fun d => best < d) t -> argmin_from t i best ibest = ibest.
Proof.
  intros Ht. revert i. induction Ht as [|d t Hd _ IH]; intros i; simpl; [reflexivity|].
  destruct (Rlt_dec d best); [lra|]. apply IH.
Qed.

Lemma argmin_from_first_zero (pre post : list R) (i : nat) (best : R) (ibest : nat) :
  0 < best -> Forall (fun d => 0 < d) pre -> Forall (fun d => 0 < d) post ->
  argmin_from (pre ++ 0 :: post) i best ibest = (i + length pre)%nat.
Proof.
  intros Hb Hpre Hpost. revert i best ibest Hb.
  induction Hpre as [|d pre Hd _ IH]; intros i best ibest Hb; simpl.
  - destruct (Rlt_dec 0 best); [|lra].
    rewrite argmin_from_keeps by assumption. lia.
  - destruct (Rlt_dec d best); rewrite IH by assumption; lia.
Qed.

Lemma argmin_single_zero (pre post : list R) :
  Forall (fun d => 0 < d) pre -> Forall (fun d => 0 < d) post ->
  argmin (pre ++ 0 :: post) = Ok (Z.of_nat (length pre)).
Proof.
  intros Hpre Hpost. destruct Hpre as [|d pre Hd Hpre]; simpl.
  - rewrite argmin_from_keeps by assumption. reflexivity.
  - rewrite argmin_from_first_zero by assumption. do 2 f_equal.
Qed.

Lemma Cabs_diff_zero (c : C) : Cabs (Csub c c) = 0.
Proof.
  unfold Cabs, Csub. simpl.
  replace ((Re c - Re c) * (Re c - Re c) + (Im c - Im c) * (Im c - Im c)) with 0 by ring.
  apply sqrt_0.
Qed.

Lemma Cabs_diff_pos (a b : C) : a <> b -> 0 < Cabs (Csub a b).
Proof.
  intros Hne. unfold Cabs, Csub. simpl. apply sqrt_lt_R0.
  destruct (Req_dec_T (Re a) (Re b)) as [Hr|Hr].
  - destruct (Req_dec_T (Im a) (Im b)) as [Hi|Hi].
    + exfalso. apply Hne. apply C_eq; assumption.
    + pose proof (Rsqr_pos_lt (Im a - Im b) ltac:(lra)) as H1.
      pose proof (Rle_0_sqr (Re a - Re b)) as H2. unfold Rsqr in *. lra.
  - pose proof (Rsqr_pos_lt (Re a - Re b) ltac:(lra)) as H1.
    pose proof (Rle_0_sqr (Im a - Im b)) as H2. unfold Rsqr in *. lra.
Qed.

Lemma makeDecision_exact (constellation : list C) (k : nat) (c : C) :
  NoDup constellation -> constellation !! k = Some c ->
  makeDecision c constellation = Ok (Z.of_nat k).
Proof.
  intros Hnd Hk. unfold makeDecision.
  pose proof (lookup_lt_Some _ _ _ Hk) as Hlt.
  rewrite <- (take_drop_middle constellation k c Hk) at 1.
  rewrite map_app. cbn [map]. rewrite Cabs_diff_zero.
  rewrite argmin_single_zero.
  - rewrite length_map, length_take. do 2 f_equal. lia.
  - apply Forall_forall. intros d Hd.
    apply list_elem_of_fmap in Hd as (a & -> & Ha).
    apply Cabs_diff_pos. intros ->.
    apply list_elem_of_lookup in Ha as (j & Hj).
    rewrite lookup_take_Some in Hj. destruct Hj as [Hj Hjk].
    pose proof (NoDup_lookup _ _ _ _ Hnd Hj Hk). lia.
  - apply Forall_forall. intros d Hd.
    apply list_elem_of_fmap in Hd as (a & -> & Ha).
    apply Cabs_diff_pos. intros ->.
    apply list_elem_of_lookup in Ha as (j & Hj).
    rewrite lookup_drop in Hj.
    pose proof (NoDup_lookup _ _ _ _ Hnd Hj Hk). lia.
Qed.

Lemma store_int8_small (checked : bool) (k : Z) :
  (- 128 <= k < 128)%Z -> store_int8 checked k = Ok k.
Proof.
  intros Hk. unfold store_int8.
  destruct (Z.leb_spec (-128) k); [|lia]. destruct (Z.ltb_spec k 128); [|lia].
  reflexivity.
Qed.

Lemma store_int8_large (checked : bool) (k : Z) :
  (128 <= k)%Z ->
  store_int8 checked k = if checked then Raise OverflowError else Ok (wrap8 k).
Proof.
  intros Hk. unfold store_int8.
  destruct (Z.ltb_spec k 128); [lia|]. rewrite andb_false_r. reflexivity.
Qed.

(** The loop of [makeDecisions] when every store succeeds. *)
Lemma makeDecisions_values (checked : bool) (iqs constellation : list C)
      (ks vs : list Z) :
  Forall2 (fun iq k => makeDecision iq constellation = Ok k) iqs ks ->
  Forall2 (fun k v => store_int8 checked k = Ok v) ks vs ->
  makeDecisions checked iqs constellation = Ok vs.
Proof.
  intros Hdec Hst. pose proof (Forall2_length _ _ _ Hdec) as Hlen.
  pose proof (Forall2_length _ _ _ Hst) as Hlen'.
  unfold makeDecisions.
  replace (len iqs) with (len vs) by (unfold len; lia).
  rewrite (for_each_cells _ 0).
  - simpl. rewrite drop_ge, app_nil_r; [reflexivity|].
    rewrite length_replicate. lia.
  - rewrite length_replicate. simpl. lia.
  - intros j v s Hv Hs.
    destruct (Forall2_lookup_r _ _ _ _ _ Hst Hv) as (k & Hk & Hkv).
    destruct (Forall2_lookup_r _ _ _ _ _ Hdec Hk) as (iq & Hj & Hd).
    rewrite (getitem_nat _ _ _ Hj). simpl rbind. rewrite Hd. simpl rbind.
    rewrite Hkv. reflexivity.
Qed.

(** The loop of [makeDecisions] when the store of decision number
    [length ks] is refused. *)
Lemma makeDecisions_refused (iqs constellation : list C) (ks vs : list Z)
      (k : Z) (iqs1 iqs2 : list C) (iq : C) :
  iqs = iqs1 ++ iq :: iqs2 ->
  Forall2 (fun iq k => makeDecision iq constellation = Ok k) iqs1 ks ->
  Forall2 (fun k v => store_int8 true k = Ok v) ks vs ->
  makeDecision iq constellation = Ok k -> (128 <= k)%Z ->
  makeDecisions true iqs constellation = Raise OverflowError.
Proof.
  intros -> Hdec Hst Hk Hbig.
  pose proof (Forall2_length _ _ _ Hdec) as Hlen.
  pose proof (Forall2_length _ _ _ Hst) as Hlen'.
  unfold makeDecisions.
  set (n := length (iqs1 ++ iq :: iqs2)).
  assert (Hn : n = (length vs + S (length iqs2))%nat).
  { unfold n. rewrite length_app. simpl. lia. }
  assert (Hr : exists later, range 0 (len (iqs1 ++ iq :: iqs2))
                             = range 0 (len vs) ++ Z.of_nat (length vs) :: later).
  { unfold range, len. fold n. rewrite !Z.sub_0_r, !Nat2Z.id, Hn.
    rewrite seq_app, map_app. cbn [seq map]. eexists.
    replace (0 + Z.of_nat (0 + length vs))%Z with (Z.of_nat (length vs)) by lia.
    reflexivity. }
  destruct Hr as [later Hr]. rewrite Hr, for_each_app.
  rewrite (for_each_cells _ 0 vs).
  - simpl rbind. cbn [for_each].
    assert (Hi : (iqs1 ++ iq :: iqs2) !! length vs = Some iq).
    { rewrite lookup_app_r by lia. replace (length vs - length iqs1)%nat with 0%nat by lia.
      reflexivity. }
    rewrite (getitem_nat _ _ _ Hi). simpl rbind. rewrite Hk. simpl rbind.
    rewrite store_int8_large by assumption. reflexivity.
  - rewrite length_replicate. fold n. simpl. lia.
  - intros j v s Hv Hs.
    destruct (Forall2_lookup_r _ _ _ _ _ Hst Hv) as (k' & Hk' & Hkv).
    destruct (Forall2_lookup_r _ _ _ _ _ Hdec Hk') as (iq' & Hj & Hd).
    assert (Hj' : (iqs1 ++ iq :: iqs2) !! j = Some iq').
    { rewrite lookup_app_l by (apply lookup_lt_Some in Hj; assumption). exact Hj. }
    rewrite (getitem_nat _ _ _ Hj'). simpl rbind. rewrite Hd. simpl rbind.
    rewrite Hkv. reflexivity.
Qed.

Lemma wrap8_small (k : Z) : (- 128 <= k < 128)%Z -> wrap8 k = k.
Proof. intros Hk. unfold wrap8. rewrite Z.mod_small; lia. Qed.

Lemma symbolsToIq_decided (syms : list Z) (constellation : list C) :
  NoDup constellation ->
  Forall (fun s => 0 <= s < len constellation)%Z syms ->
  exists iqs, symbolsToIq syms constellation = Ok iqs
    /\ Forall2 (fun iq k => makeDecision iq constellation = Ok k) iqs syms.
Proof.
  intros Hnd Hsyms. unfold symbolsToIq.
  induction Hsyms as [|s syms Hs _ IH]; cbn [mapM].
  - exists []. split; [reflexivity|constructor].
  - destruct IH as (iqs & -> & Hdec).
    destruct (lookup_lt_is_Some_2 constellation (Z.to_nat s) ltac:(unfold len in Hs; lia))
      as [c Hc].
    assert (Hg : getitem constellation s = Ok c).
    { rewrite <- (Z2Nat.id s) by lia. apply getitem_nat. assumption. }
    rewrite Hg. simpl rbind.
    eexists. split; [reflexivity|]. constructor; [|assumption].
    rewrite (makeDecision_exact constellation (Z.to_nat s) c Hnd Hc).
    f_equal. lia.
Qed.

Lemma stores_small (checked : bool) (syms : list Z) :
  Forall (fun s => - 128 <= s < 128)%Z syms ->
  Forall2 (fun k v => store_int8 checked k = Ok v) syms syms.
Proof.
  induction 1 as [|s syms Hs _ IH]; constructor; [|exact IH].
  apply store_int8_small, Hs.
Qed.

(** With at most 128 pairwise distinct constellation points, deciding on
    the samples [symbolsToIq] makes of valid symbols gives the symbols
    back, whether or not numpy checks the range of what is stored into
    the [int8] array. *)
Theorem decisions_recover_symbols (checked : bool) (syms : list Z)
        (constellation : list C) :
  NoDup constellation ->
  (len constellation <= 128)%Z ->
  Forall (fun s => 0 <= s < len constellation)%Z syms ->
  (iqs <- symbolsToIq syms constellation ;; makeDecisions checked iqs constellation)
  = Ok syms.
Proof.
  intros Hnd Hsize Hsyms.
  destruct (symbolsToIq_decided syms constellation Hnd Hsyms) as (iqs & -> & Hdec).
  simpl rbind. apply (makeDecisions_values checked iqs constellation syms syms Hdec).
  apply stores_small. eapply Forall_impl; [exact Hsyms|]. cbv beta. intros s Hs. lia.
Qed.

Lemma decisions_recover_symbols_witness :
  (iqs <- symbolsToIq [1; 0; 1]%Z [C0; C1] ;; makeDecisions true iqs [C0; C1])
  = Ok [1; 0; 1]%Z.
Proof.
  apply (decisions_recover_symbols true [1; 0; 1]%Z [C0; C1]).
  - apply NoDup_cons. split.
    + intros H. apply list_elem_of_singleton in H. injection H. lra.
    + apply NoDup_singleton.
  - unfold len. simpl. lia.
  - repeat constructor; unfold len; simpl; lia.
Defined.

Lemma stores_wrapped (syms : list Z) :
  Forall (fun s => 0 <= s)%Z syms ->
  Forall2 (fun k v => store_int8 false k = Ok v) syms (map wrap8 syms).
Proof.
  induction 1 as [|s syms Hs _ IH]; constructor; [|exact IH].
  destruct (Z.lt_ge_cases s 128).
  - rewrite store_int8_small, wrap8_small by lia. reflexivity.
  - rewrite store_int8_large by lia. reflexivity.
Qed.

(** A constellation of more than 128 points does not fit the [int8]
    array of [makeDecisions].  For valid symbols over pairwise distinct
    points, the first symbol [k] from 128 to 255 stops the call with
    OverflowError where numpy checks the range of what it stores; where
    it does not, the call returns with the negative number [k - 256] in
    the place of [k]. *)
Theorem decisions_beyond_int8 (checked : bool) (good rest : list Z) (k : Z)
        (constellation : list C) :
  NoDup constellation ->
  Forall (fun s => 0 <= s < len constellation)%Z (good ++ k :: rest) ->
  Forall (fun s => s < 128)%Z good -> (128 <= k < 256)%Z ->
  (iqs <- symbolsToIq (good ++ k :: rest) constellation ;;
   makeDecisions checked iqs constellation)
  = if checked then Raise OverflowError
    else Ok (good ++ (k - 256)%Z :: map wrap8 rest).
Proof.
  intros Hnd Hsyms Hgood Hk.
  destruct (symbolsToIq_decided _ constellation Hnd Hsyms) as (iqs & Hiq & Hdec).
  rewrite Hiq. simpl rbind.
  assert (Hg : Forall (fun s => - 128 <= s < 128)%Z good).
  { apply Forall_app in Hsyms as [Hs _].
    apply Forall_forall. intros s Hin.
    pose proof (proj1 (Forall_forall _ _) Hs s Hin) as H1.
    pose proof (proj1 (Forall_forall _ _) Hgood s Hin) as H2.
    cbv beta in H1, H2. lia. }
  assert (Hw : wrap8 k = (k - 256)%Z).
  { unfold wrap8. replace (k + 128)%Z with ((k - 128) + 1 * 256)%Z by lia.
    rewrite Z.mod_add by lia. rewrite Z.mod_small; lia. }
  destruct checked.
  - apply Forall2_app_inv_r in Hdec as (iqs1 & iqs2 & H1 & H2 & ->).
    inversion H2 as [|iq k' iqs2' rest' Hd H2']; subst.
    apply (makeDecisions_refused _ constellation good good k iqs1 iqs2' iq
             eq_refl H1 (stores_small true good Hg) Hd ltac:(lia)).
  - apply (makeDecisions_values false iqs constellation (good ++ k :: rest)).
    + exact Hdec.
    + replace (good ++ (k - 256)%Z :: map wrap8 rest)
        with (map wrap8 (good ++ k :: rest)).
      * apply stores_wrapped. eapply Forall_impl; [exact Hsyms|].
        cbv beta. intros s Hs. lia.
      * rewrite map_app. cbn [map]. rewrite Hw. f_equal.
        rewrite <- (map_id good) at 2. apply map_ext_in. intros s Hin.
        apply wrap8_small.
        apply (proj1 (Forall_forall _ _) Hg s), list_elem_of_In, Hin.
Qed.

Lemma line_constellation_NoDup (n : Z) :
  NoDup (map (fun j => RtoC (IZR j)) (range 0 n)).
Proof.
  apply NoDup_fmap_2.
  - intros a b H. injection H as H. apply eq_IZR, H.
  - unfold range. apply NoDup_fmap_2; [intros a b H; lia|]. apply NoDup_seq.
Qed.

Lemma decisions_beyond_int8_witness :
  let constellation := map (fun j => RtoC (IZR j)) (range 0 129) in
  (iqs <- symbolsToIq [3; 128; 5]%Z constellation ;;
   makeDecisions true iqs constellation)
  = Raise OverflowError
  /\ (iqs <- symbolsToIq [3; 128; 5]%Z constellation ;;
      makeDecisions false iqs constellation)
     = Ok [3; -128; 5]%Z.
Proof.
  intros constellation.
  assert (Hlen : len constellation = 129%Z).
  { unfold constellation, len. rewrite length_map, range_length. reflexivity. }
  assert (Hv : Forall (fun s => 0 <= s < len constellation)%Z ([3] ++ 128 :: [5])%Z).
  { rewrite Hlen. repeat constructor; lia. }
  assert (Hg : Forall (fun s => s < 128)%Z [3]%Z) by (repeat constructor; lia).
  split.
  - apply (decisions_beyond_int8 true [3]%Z [5]%Z 128 constellation
             (line_constellation_NoDup 129) Hv Hg). lia.
  - apply (decisions_beyond_int8 false [3]%Z [5]%Z 128 constellation
             (line_constellation_NoDup 129) Hv Hg). lia.
Defined.

(** ** Matched filtering *)

Section ConvolveIndex.
Context {X D O : Type}.
Variable mul : X -> D -> O.
Variable add : O -> O -> O.
Variable zero : O.

Lemma padd_lookup (a b : list O) (k : nat) :
  padd add a b !! k
  = match a !! k, b !! k with
    | Some u, Some v => Some (add u v)
    | Some u, None => Some u
    | None, Some v => Some v
    | None, None => None
    end.
Proof.
  revert b k. induction a as [|x a IH]; intros [|y b] [|k]; simpl; try reflexivity.
  - destruct (b !! k); reflexivity.
  - destruct (a !! k); reflexivity.
  - apply IH.
Qed.

(** An output sample depends on the taps up to its own index only. *)
Lemma convolve_full_prefix (x : list X) (r s : list D) (k : nat) :
  (k < length r)%nat ->
  convolve_full mul add zero x (r ++ s) !! k = convolve_full mul add zero x r !! k.
Proof.
  revert k. induction x as [|x0 x IH]; intros k Hk; [reflexivity|].
  cbn [convolve_full]. rewrite !padd_lookup, !list_lookup_fmap.
  rewrite lookup_app_l by assumption.
  destruct k as [|k]; [reflexivity|]. cbn [lookup list_lookup].
  rewrite IH by lia. reflexivity.
Qed.

Lemma convolve_full_centre (x : list X) (q : list D) :
  length x = length q -> x <> [] ->
  convolve_full mul add zero x (rev q) !! (length x - 1)%nat
  = Some (corr0 mul add zero x q).
Proof.
  revert q. induction x as [|x0 x IH]; intros [|q0 q] Hlen Hne; try discriminate;
    [congruence|].
  injection Hlen as Hlen. cbn [convolve_full corr0 length rev].
  rewrite padd_lookup, list_lookup_fmap.
  replace (S (length x) - 1)%nat with (length (rev q)) by (rewrite length_rev; lia).
  rewrite list_lookup_middle by reflexivity. cbn [fmap option_fmap option_map].
  destruct x as [|x1 x].
  - destruct q; [|discriminate]. reflexivity.
  - rewrite length_rev, <- Hlen. cbn [length lookup list_lookup].
    rewrite convolve_full_prefix by (rewrite length_rev; simpl in Hlen; lia).
    replace (length x) with (length (x1 :: x) - 1)%nat by (simpl; lia).
    rewrite IH by (assumption || discriminate). reflexivity.
Qed.
End ConvolveIndex.

Lemma convolve_nonempty {X D O : Type} (mul : X -> D -> O) (add : O -> O -> O)
      (zero : O) (x : list X) (d : list D) :
  x <> [] -> d <> [] -> convolve mul add zero x d = Ok (convolve_full mul add zero x d).
Proof. intros Hx Hd. destruct x; [congruence|]. destruct d; [congruence|]. reflexivity. Qed.

Lemma corr0_self_energy (p : list C) :
  corr0 Cmul Cadd C0 p (map Cconj p) = RtoC (energy p).
Proof.
  induction p as [|z p IH]; [reflexivity|].
  cbn [map corr0]. rewrite IH. unfold energy. cbn [map fold_right].
  apply C_eq; simpl; ring.
Qed.

(** The matched filter of a non-empty pulse applied to the pulse itself
    returns [2*len(p) - 1] samples whose centre sample is the energy of
    the pulse, with no imaginary part. *)
Theorem matchedFilter_peak_is_energy (p : list C) :
  p <> [] ->
  exists y,
    matchedFilter p p = Ok y
    /\ len y = (2 * len p - 1)%Z
    /\ getitem y (len p - 1) = Ok (RtoC (energy p)).
Proof.
  intros Hp. unfold matchedFilter.
  assert (Hq : rev (map Cconj p) <> []).
  { intros H. apply (f_equal length) in H. rewrite length_rev, length_map in H.
    destruct p; [congruence|discriminate]. }
  unfold convolveCC. rewrite convolve_nonempty by assumption.
  eexists. split; [reflexivity|]. split.
  - unfold len. rewrite convolve_full_length by assumption.
    rewrite length_rev, length_map. destruct p; [congruence|]. simpl. lia.
  - replace (len p - 1)%Z with (Z.of_nat (length p - 1))
      by (unfold len; destruct p; [congruence|]; simpl; lia).
    apply getitem_nat. rewrite convolve_full_centre.
    + rewrite corr0_self_energy. reflexivity.
    + rewrite length_map. reflexivity.
    + assumption.
Qed.

Lemma matchedFilter_peak_is_energy_witness :
  exists y,
    matchedFilter [C1; mkC 0 1] [C1; mkC 0 1] = Ok y
    /\ len y = (2 * len [C1; mkC 0 1] - 1)%Z
    /\ getitem y (len [C1; mkC 0 1] - 1) = Ok (RtoC (energy [C1; mkC 0 1])).
Proof. apply (matchedFilter_peak_is_energy [C1; mkC 0 1]). discriminate. Defined.

(** [matchedFilter] fails exactly when the signal or the pulse is empty;
    otherwise it returns [len(x) + len(p) - 1] samples. *)
Theorem matchedFilter_length (x p : list C) :
  (x = [] \/ p = [] -> matchedFilter x p = Raise ValueError)
  /\ (x <> [] -> p <> [] ->
      exists y, matchedFilter x p = Ok y /\ len y = (len x + len p - 1)%Z).
Proof.
  split.
  - intros [-> | ->]; [reflexivity|]. destruct x; reflexivity.
  - intros Hx Hp. unfold matchedFilter.
    assert (Hq : rev (map Cconj p) <> []).
    { intros H. apply (f_equal length) in H. rewrite length_rev, length_map in H.
      destruct p; [congruence|discriminate]. }
    destruct (convolve_length Cmul Cadd C0 x (rev (map Cconj p)) Hx Hq) as (y & Hy & Hlen).
    exists y. split; [exact Hy|]. rewrite Hlen. unfold len.
    rewrite length_rev, length_map. reflexivity.
Qed.

(** ** Noise variance and noise injection *)

(** The noise variance is [Eb] at 0 dB, is divided by 10 for every 10 dB
    of SNR, and for a positive [Eb] is positive and decreases as the SNR
    grows. *)
Theorem noiseVariance_decibels (SNR Eb : R) :
  noiseVariance 0 Eb = Eb
  /\ noiseVariance (SNR + 10) Eb = noiseVariance SNR Eb / 10
  /\ (0 < Eb -> 0 < noiseVariance SNR Eb)
  /\ (0 < Eb -> forall SNR', SNR < SNR' -> noiseVariance SNR' Eb < noiseVariance SNR Eb).
Proof.
  unfold noiseVariance.
  assert (Hp : forall x, 0 < Rpower 10 x) by (intros x; unfold Rpower; apply exp_pos).
  split; [|split; [|split]].
  - replace (0 / 10) with 0 by field. rewrite Rpower_O by lra. field.
  - replace ((SNR + 10) / 10) with (SNR / 10 + 1) by field.
    rewrite Rpower_plus, Rpower_1 by lra.
    pose proof (Hp (SNR / 10)). field. lra.
  - intros HEb. apply Rdiv_lt_0_compat; [assumption|apply Hp].
  - intros HEb SNR' Hlt.
    assert (Hpow : Rpower 10 (SNR / 10) < Rpower 10 (SNR' / 10)).
    { apply Rpower_lt; lra. }
    pose proof (Hp (SNR / 10)) as H1. pose proof (Hp (SNR' / 10)) as H2.
    unfold Rdiv. apply Rmult_lt_compat_l; [assumption|].
    apply Rinv_lt_contravar; [apply Rmult_lt_0_compat; assumption | assumption].
Qed.

Ltac addNoise_run :=
  cbv zeta; unfold random_normal; cbv beta iota zeta; cbn [fst snd draws position];
  unfold broadcast2; rewrite !length_map, !length_seq, Nat.eqb_refl; cbn [rbind];
  rewrite length_zip_with, !length_map, !length_seq, Nat.min_id, Nat.eqb_refl;
  cbn [rbind]; reflexivity.

Lemma addNoise_from_N0 (iqs : list C) (kwargs : gmap string R) (g : rng) (N0 : R) :
  kwargs !! "Eb" = None -> kwargs !! "N0" = Some N0 ->
  addNoise iqs kwargs g = Ok (noisy iqs N0 g).
Proof.
  intros HEb HN0. unfold addNoise, noisy.
  rewrite (proj2 (has_key_false kwargs "Eb") HEb), andb_false_r.
  rewrite (proj2 (has_key_true kwargs "N0") ltac:(rewrite HN0; eauto)).
  unfold kwarg. rewrite HN0. cbn [rbind]. addNoise_run.
Qed.

Lemma addNoise_from_SNR (iqs : list C) (kwargs : gmap string R) (g : rng) (SNR Eb : R) :
  kwargs !! "SNR" = Some SNR -> kwargs !! "Eb" = Some Eb ->
  addNoise iqs kwargs g = Ok (noisy iqs (noiseVariance SNR Eb) g).
Proof.
  intros HSNR HEb. unfold addNoise, noisy.
  rewrite (proj2 (has_key_true kwargs "Eb") ltac:(rewrite HEb; eauto)).
  change (truthy "SNR") with true. cbn [andb].
  unfold kwarg. rewrite HSNR, HEb. cbn [rbind]. addNoise_run.
Qed.

(** With [N0] given and no [Eb], the call returns one noisy sample per
    input sample and draws twice that many normal variates; with
    [N0 = 0] the samples come back unchanged. *)
Theorem addNoise_given_variance (iqs : list C) (kwargs : gmap string R) (g : rng) (N0 : R) :
  kwargs !! "Eb" = None -> kwargs !! "N0" = Some N0 ->
  exists out g',
    addNoise iqs kwargs g = Ok (out, g')
    /\ length out = length iqs
    /\ position g' = (position g + 2 * length iqs)%nat
    /\ (N0 = 0 -> out = iqs).
Proof.
  intros HEb HN0. rewrite (addNoise_from_N0 iqs kwargs g N0 HEb HN0).
  do 2 eexists. split; [reflexivity|]. split; [|split].
  - rewrite !length_zip_with, !length_map, !length_seq. lia.
  - simpl. lia.
  - intros ->. replace (0 / 2) with 0 by field. rewrite sqrt_0.
    generalize (position g) as k. generalize (draws g) as d. intros d k.
    generalize (k + length iqs)%nat as k'. intros k'.
    generalize 0%nat as s. induction iqs as [|z iqs IH]; intros s; [reflexivity|].
    cbn [length seq map zip_with]. f_equal.
    + apply C_eq; simpl; ring.
    + apply IH.
Qed.

Lemma addNoise_given_variance_witness :
  exists out g',
    addNoise [C1; C0] {[ "N0" := 0 ]} (mkRng (fun _ => 1) 0) = Ok (out, g')
    /\ length out = length [C1; C0]
    /\ position g' = (position (mkRng (fun _ => 1%R) 0) + 2 * length [C1; C0])%nat
    /\ (0 = 0 -> out = [C1; C0]).
Proof.
  apply (addNoise_given_variance [C1; C0] {[ "N0" := 0 ]} (mkRng (fun _ => 1) 0) 0).
  - apply lookup_singleton_ne. discriminate.
  - apply lookup_singleton_eq.
Defined.

(** When [Eb] and [SNR] are given, the noise is that of
    [N0 = Eb / 10^(SNR/10)], and an [N0] passed alongside is ignored. *)
Theorem addNoise_SNR_Eb_take_precedence
        (iqs : list C) (kwargs : gmap string R) (g : rng) (SNR Eb : R) :
  kwargs !! "SNR" = Some SNR -> kwargs !! "Eb" = Some Eb ->
  addNoise iqs kwargs g = addNoise iqs {[ "N0" := noiseVariance SNR Eb ]} g.
Proof.
  intros HSNR HEb. rewrite (addNoise_from_SNR iqs kwargs g SNR Eb HSNR HEb).
  symmetry. apply addNoise_from_N0.
  - apply lookup_singleton_ne. discriminate.
  - apply lookup_singleton_eq.
Qed.

Lemma addNoise_SNR_Eb_take_precedence_witness :
  addNoise [C1] {[ "SNR" := 10; "Eb" := 1; "N0" := 5 ]} (mkRng (fun _ => 1) 0)
  = addNoise [C1] {[ "N0" := noiseVariance 10 1 ]} (mkRng (fun _ => 1) 0).
Proof.
  apply addNoise_SNR_Eb_take_precedence.
  - apply lookup_insert_eq.
  - rewrite lookup_insert_ne by discriminate. apply lookup_insert_eq.
Defined.

(** ** Frequency and phase offsets *)

Lemma Cexpj_add (a b : R) : Cmul (Cexpj a) (Cexpj b) = Cexpj (a + b).
Proof. unfold Cmul, Cexpj. simpl. rewrite cos_plus, sin_plus. apply C_eq; simpl; ring. Qed.

Lemma Cmul_assoc (a b c : C) : Cmul (Cmul a b) c = Cmul a (Cmul b c).
Proof. apply C_eq; simpl; ring. Qed.

Lemma Cmul_1_r (z : C) : Cmul z C1 = z.
Proof. apply C_eq; simpl; ring. Qed.

Lemma Cabs_rotated (z : C) (theta : R) : Cabs (Cmul z (Cexpj theta)) = Cabs z.
Proof.
  unfold Cabs, Cmul, Cexpj. simpl. f_equal.
  pose proof (sin2_cos2 theta) as H. unfold Rsqr in H.
  replace ((Re z * cos theta - Im z * sin theta) * (Re z * cos theta - Im z * sin theta)
           + (Re z * sin theta + Im z * cos theta) * (Re z * sin theta + Im z * cos theta))
    with ((Re z * Re z + Im z * Im z) * (sin theta * sin theta + cos theta * cos theta))
    by ring.
  rewrite H. ring.
Qed.

Lemma addFrequencyOffset_Ok (iqs : list C) (nuT : R) :
  addFrequencyOffset iqs nuT
  = Ok (zip_with Cmul iqs
          (map (fun k => Cexpj (2 * PI * IZR k * nuT)) (range 0 (len iqs)))).
Proof.
  unfold addFrequencyOffset, broadcast2.
  rewrite length_map, range_length.
  replace (Z.to_nat (len iqs - 0)) with (length iqs) by (unfold len; lia).
  rewrite Nat.eqb_refl. reflexivity.
Qed.

Lemma offset_terms (iqs : list C) (f : nat -> C) (s : nat) :
  forall k z, iqs !! k = Some z ->
    zip_with Cmul iqs (map f (seq s (length iqs))) !! k = Some (Cmul z (f (s + k)%nat)).
Proof.
  revert s. induction iqs as [|a iqs IH]; intros s k z Hk; [discriminate|].
  cbn [length seq map zip_with]. destruct k as [|k]; simpl in *.
  - injection Hk as ->. rewrite Nat.add_0_r. reflexivity.
  - rewrite (IH (S s) k z Hk). do 3 f_equal. lia.
Qed.

(** [addFrequencyOffset] multiplies sample [k] by [exp(j*2*pi*k*nuT)]:
    the output is as long as the input and every sample keeps its
    magnitude. *)
Theorem addFrequencyOffset_rotates (iqs : list C) (nuT : R) :
  exists y,
    addFrequencyOffset iqs nuT = Ok y
    /\ length y = length iqs
    /\ forall k z, iqs !! k = Some z ->
         exists w, y !! k = Some w
           /\ w = Cmul z (Cexpj (2 * PI * INR k * nuT))
           /\ Cabs w = Cabs z.
Proof.
  rewrite addFrequencyOffset_Ok. eexists. split; [reflexivity|]. split.
  - rewrite length_zip_with, length_map, range_length. unfold len. lia.
  - intros k z Hk. eexists. split; [|split; [reflexivity|apply Cabs_rotated]].
    unfold range. rewrite map_map.
    replace (Z.to_nat (len iqs - 0)) with (length iqs) by (unfold len; lia).
    rewrite (offset_terms iqs _ 0 k z Hk). cbn [Nat.add].
    rewrite Z.add_0_l, <- INR_IZR_INZ. reflexivity.
Qed.

Lemma zip_with_phasors_twice (iqs : list C) (f g : nat -> C) (s : nat) :
  zip_with Cmul (zip_with Cmul iqs (map f (seq s (length iqs))))
           (map g (seq s (length iqs)))
  = zip_with Cmul iqs (map (fun k => Cmul (f k) (g k)) (seq s (length iqs))).
Proof.
  revert s. induction iqs as [|z iqs IH]; intros s; [reflexivity|].
  cbn [length seq map zip_with]. rewrite IH, Cmul_assoc. reflexivity.
Qed.

Lemma zip_with_phasors_one (iqs : list C) (f : nat -> C) (s : nat) :
  (forall k, f k = C1) -> zip_with Cmul iqs (map f (seq s (length iqs))) = iqs.
Proof.
  intros Hf. revert s. induction iqs as [|z iqs IH]; intros s; [reflexivity|].
  cbn [length seq map zip_with]. rewrite IH, Hf, Cmul_1_r. reflexivity.
Qed.

Lemma addFrequencyOffset_seq (iqs : list C) (nuT : R) :
  addFrequencyOffset iqs nuT
  = Ok (zip_with Cmul iqs
          (map (fun k => Cexpj (2 * PI * INR k * nuT)) (seq 0 (length iqs)))).
Proof.
  rewrite addFrequencyOffset_Ok. unfold range. rewrite map_map.
  replace (Z.to_nat (len iqs - 0)) with (length iqs) by (unfold len; lia).
  do 2 f_equal. apply map_ext. intros k.
  rewrite Z.add_0_l, <- INR_IZR_INZ. reflexivity.
Qed.

Lemma addFrequencyOffset_twice (iqs : list C) (a b : R) :
  (y <- addFrequencyOffset iqs a ;; addFrequencyOffset y b)
  = addFrequencyOffset iqs (a + b).
Proof.
  rewrite (addFrequencyOffset_seq iqs a). simpl rbind.
  rewrite addFrequencyOffset_seq, (addFrequencyOffset_seq iqs (a + b)).
  rewrite length_zip_with, length_map, length_seq, Nat.min_id.
  rewrite zip_with_phasors_twice. do 2 f_equal. apply map_ext. intros k.
  rewrite Cexpj_add. f_equal. ring.
Qed.

Lemma addFrequencyOffset_zero (iqs : list C) : addFrequencyOffset iqs 0 = Ok iqs.
Proof.
  rewrite addFrequencyOffset_seq. f_equal. apply zip_with_phasors_one.
  intros k. rewrite Rmult_0_r. apply Cexpj_0.
Qed.

(** Frequency offsets add up: an offset [a] followed by an offset [b] is
    the offset [a + b]; a zero offset changes nothing, so the offset
    [-a] undoes the offset [a]. *)
Theorem addFrequencyOffset_composes (iqs : list C) (a b : R) :
  (y <- addFrequencyOffset iqs a ;; addFrequencyOffset y b)
  = addFrequencyOffset iqs (a + b)
  /\ addFrequencyOffset iqs 0 = Ok iqs
  /\ (y <- addFrequencyOffset iqs a ;; addFrequencyOffset y (- a)) = Ok iqs.
Proof.
  split; [apply addFrequencyOffset_twice|]. split; [apply addFrequencyOffset_zero|].
  rewrite addFrequencyOffset_twice, Rplus_opp_r. apply addFrequencyOffset_zero.
Qed.

(** The phasor of the angle of a non-zero number is the number divided by
    its magnitude. *)
Lemma radius_over_x (x y : R) :
  0 < x -> sqrt (1 + (y / x)²) = sqrt (x * x + y * y) / x.
Proof.
  intros Hx.
  assert (Hr : 0 <= sqrt (x * x + y * y)) by apply sqrt_pos.
  apply sqrt_lem_1.
  - unfold Rsqr. assert (0 <= y / x * (y / x)) by nra. lra.
  - apply Rmult_le_pos; [assumption|]. apply Rlt_le, Rinv_0_lt_compat. assumption.
  - unfold Rsqr.
    replace (sqrt (x * x + y * y) / x * (sqrt (x * x + y * y) / x))
      with (sqrt (x * x + y * y) * sqrt (x * x + y * y) / (x * x)) by (field; lra).
    rewrite sqrt_sqrt by nra. field. lra.
Qed.

Lemma Cexpj_atan (x y : R) :
  0 < x ->
  cos (atan (y / x)) = x / sqrt (x * x + y * y)
  /\ sin (atan (y / x)) = y / sqrt (x * x + y * y).
Proof.
  intros Hx.
  assert (Hr : 0 < sqrt (x * x + y * y)) by (apply sqrt_lt_R0; nra).
  rewrite cos_atan, sin_atan, radius_over_x by assumption.
  split; field; lra.
Qed.

Lemma Cexpj_atan_neg (x y : R) :
  x < 0 ->
  cos (atan (y / x)) = - x / sqrt (x * x + y * y)
  /\ sin (atan (y / x)) = - y / sqrt (x * x + y * y).
Proof.
  intros Hx.
  destruct (Cexpj_atan (- x) (- y) ltac:(lra)) as [Hc Hs].
  replace (- y / - x) with (y / x) in Hc, Hs by (field; lra).
  replace (- x * - x + - y * - y) with (x * x + y * y) in Hc, Hs by ring.
  split; assumption.
Qed.

Lemma Cexpj_angle (w : C) :
  0 < Cabs w -> Cexpj (angle w) = Cscale w (/ Cabs w).
Proof.
  intros Hr. unfold angle, arctan2, Cexpj, Cscale, Cabs in *.
  destruct w as [x y]. simpl in *.
  set (r := sqrt (x * x + y * y)) in *.
  destruct (Rlt_dec 0 x) as [Hx|Hx].
  - destruct (Cexpj_atan x y Hx) as [-> ->]. reflexivity.
  - destruct (Rlt_dec x 0) as [Hx'|Hx'].
    + destruct (Cexpj_atan_neg x y Hx') as [Hc Hs]. fold r in Hc, Hs.
      destruct (Rle_dec 0 y).
      * rewrite neg_cos, neg_sin, Hc, Hs. apply C_eq; simpl; field; lra.
      * unfold Rminus. rewrite cos_plus, sin_plus, cos_neg, sin_neg, cos_PI, sin_PI, Hc, Hs.
        apply C_eq; simpl; field; lra.
    + assert (x = 0) by lra. subst x.
      assert (Hr2 : r * r = y * y).
      { unfold r. rewrite sqrt_sqrt by nra. ring. }
      destruct (Rlt_dec 0 y) as [Hy|Hy].
      * assert (Hry : r = y) by nra. rewrite cos_PI2, sin_PI2.
        apply C_eq; simpl; [ring | rewrite Hry; field; lra].
      * destruct (Rlt_dec y 0) as [Hy'|Hy'].
        -- assert (Hry : r = - y) by nra. rewrite cos_neg, sin_neg, cos_PI2, sin_PI2.
           apply C_eq; simpl; [ring | rewrite Hry; field; lra].
        -- assert (y = 0) by lra. subst y. unfold r in Hr.
           replace (0 * 0 + 0 * 0) with 0 in Hr by ring. rewrite sqrt_0 in Hr. lra.
Qed.

Lemma correlation_of_rotated (theta : R) (uw : list C) :
  Csum (zip_with Cmul (rotate theta uw) (map Cconj uw))
  = Cscale (Cexpj theta) (energy uw).
Proof.
  unfold rotate, energy. induction uw as [|z uw IH]; cbn [map zip_with Csum fold_right].
  - apply C_eq; simpl; ring.
  - unfold Csum in IH. rewrite IH. apply C_eq; simpl; ring.
Qed.

Lemma Cabs_scaled_phasor (theta E : R) : 0 <= E -> Cabs (Cscale (Cexpj theta) E) = E.
Proof.
  intros HE. unfold Cabs, Cscale, Cexpj. simpl.
  pose proof (sin2_cos2 theta) as H. unfold Rsqr in H.
  replace (cos theta * E * (cos theta * E) + sin theta * E * (sin theta * E))
    with (E * E * (sin theta * sin theta + cos theta * cos theta)) by ring.
  rewrite H, Rmult_1_r. apply sqrt_square. assumption.
Qed.

Lemma rotate_back (theta : R) (z : C) :
  Cmul (Cmul z (Cexpj theta)) (Cexpj (- theta)) = z.
Proof.
  rewrite Cmul_assoc, Cexpj_add, Rplus_opp_r, Cexpj_0. apply Cmul_1_r.
Qed.

Lemma broadcast2_same_length {A B D : Type} (f : A -> B -> D) (a : list A) (b : list B) :
  length a = length b -> broadcast2 f a b = Ok (zip_with f a b).
Proof. intros H. unfold broadcast2. rewrite H, Nat.eqb_refl. reflexivity. Qed.

(** When the received samples and the received unique word carry the same
    rotation [theta], whatever its size, and the unique word has some
    energy, [phaseAmbiguityResolution] returns the samples without the
    rotation and leaves the pseudorandom source untouched. *)
Theorem phaseAmbiguityResolution_removes_rotation
        (theta : R) (rx uw : list C) (g : rng) :
  0 < energy uw ->
  phaseAmbiguityResolution (rotate theta rx) (rotate theta uw) uw g = Ok (rx, g).
Proof.
  intros HE. unfold phaseAmbiguityResolution, phaseAmbiguity.
  rewrite broadcast2_same_length by (unfold rotate; rewrite !length_map; reflexivity).
  simpl rbind. rewrite correlation_of_rotated.
  unfold addPhaseOffset. f_equal. f_equal.
  set (w := Cscale (Cexpj theta) (energy uw)).
  assert (Hw : Cabs w = energy uw) by (apply Cabs_scaled_phasor; lra).
  assert (Hph : Cexpj (- angle w) = Cexpj (- theta)).
  { pose proof (Cexpj_angle w ltac:(lra)) as Ha. rewrite Hw in Ha.
    unfold Cexpj in *. rewrite !cos_neg, !sin_neg.
    injection Ha as Hc Hs. rewrite Hc, Hs.
    unfold w. apply C_eq; simpl; field; lra. }
  rewrite Hph. unfold rotate. rewrite map_map.
  rewrite <- (map_id rx) at 2. apply map_ext. intros z. apply rotate_back.
Qed.

Lemma phaseAmbiguityResolution_removes_rotation_witness :
  phaseAmbiguityResolution (rotate 4 [C1; C0]) (rotate 4 [C1]) [C1] (mkRng (fun _ => 0) 0)
  = Ok ([C1; C0], mkRng (fun _ => 0) 0).
Proof.
  apply phaseAmbiguityResolution_removes_rotation.
  unfold energy. simpl. lra.
Defined.

(** A phase offset given explicitly rotates every sample by that phase
    without touching the pseudorandom source: magnitudes are kept, phases
    add up, and the opposite phase undoes the offset. *)
Theorem addPhaseOffset_given_phase (iqs : list C) (a b : R) (g : rng) :
  snd (addPhaseOffset iqs (Some a) g) = g
  /\ Forall2 (fun z w => Cabs w = Cabs z) iqs (fst (addPhaseOffset iqs (Some a) g))
  /\ fst (addPhaseOffset (fst (addPhaseOffset iqs (Some a) g)) (Some b) g)
     = fst (addPhaseOffset iqs (Some (a + b)) g)
  /\ fst (addPhaseOffset (fst (addPhaseOffset iqs (Some a) g)) (Some (- a)) g) = iqs.
Proof.
  unfold addPhaseOffset. cbn [fst snd]. split; [reflexivity|]. split; [|split].
  - induction iqs as [|z iqs IH]; cbn [map]; constructor; [apply Cabs_rotated|exact IH].
  - rewrite map_map. apply map_ext. intros z. rewrite Cmul_assoc, Cexpj_add. reflexivity.
  - rewrite map_map. rewrite <- (map_id iqs) at 2. apply map_ext. intros z.
    apply rotate_back.
Qed.

(** ** Symbols to bits and back *)

Lemma to_bits_length (n : nat) (s : Z) : length (to_bits n s) = n.
Proof.
  revert s. induction n as [|n IH]; intros s; simpl; [reflexivity|].
  rewrite length_app, IH. simpl. lia.
Qed.

Lemma to_bits_is_bit (n : nat) (s : Z) : Forall is_bit (to_bits n s).
Proof.
  revert s. induction n as [|n IH]; intros s; simpl; [constructor|].
  apply Forall_app. split; [apply IH|]. constructor; [|constructor].
  unfold is_bit. pose proof (Z.mod_pos_bound s 2 ltac:(lia)). lia.
Qed.

Lemma msb_value_to_bits (n : nat) (s : Z) :
  (0 <= s < 2 ^ Z.of_nat n)%Z -> msb_value (to_bits n s) = s.
Proof.
  revert s. induction n as [|n IH]; intros s Hs.
  - simpl in *. unfold msb_value. simpl. lia.
  - cbn [to_bits]. rewrite msb_value_snoc, IH.
    + pose proof (Z.div_mod s 2 ltac:(lia)). lia.
    + rewrite Nat2Z.inj_succ, Z.pow_succ_r in Hs by lia.
      split; [apply Z.div_pos; lia | apply Z.div_lt_upper_bound; lia].
Qed.

(** Symbols of an [n]-bit alphabet, [1 <= n <= 63], survive the way to
    bits and back: [symbolsToBits] writes [n] bits per symbol, most
    significant first, and [bitsToSymbols] reads the same symbols again. *)
Theorem symbols_bits_roundtrip (n : Z) (syms : list Z) :
  (1 <= n <= 63)%Z -> Forall (fun s => 0 <= s < 2 ^ n)%Z syms ->
  symbolsToBits syms (2 ^ n) = Ok (concat (map (to_bits (Z.to_nat n)) syms))
  /\ (bits <- symbolsToBits syms (2 ^ n) ;; bitsToSymbols bits (2 ^ n)) = Ok syms.
Proof.
  intros Hn Hs.
  set (cs := map (to_bits (Z.to_nat n)) syms).
  assert (Hlen : Forall (fun c => length c = Z.to_nat n) cs).
  { unfold cs. apply Forall_map, Forall_forall. intros s _. apply to_bits_length. }
  assert (Hbit : Forall (Forall is_bit) cs).
  { unfold cs. apply Forall_map, Forall_forall. intros s _. apply to_bits_is_bit. }
  assert (Hv : map msb_value cs = syms).
  { unfold cs. rewrite map_map. rewrite <- (map_id syms) at 2.
    apply map_ext_in. intros s Hin. apply msb_value_to_bits.
    rewrite Z2Nat.id by lia. rewrite Forall_forall in Hs.
    apply Hs, list_elem_of_In, Hin. }
  assert (Hb : symbolsToBits syms (2 ^ n) = Ok (concat cs)).
  { rewrite <- Hv at 1. rewrite <- (Z2Nat.id n) at 1 by lia.
    apply symbolsToBits_groups; [lia | assumption | assumption]. }
  split; [exact Hb|]. rewrite Hb. simpl rbind.
  rewrite <- (Z2Nat.id n) by lia.
  rewrite bitsToSymbols_groups by (assumption || lia).
  rewrite Hv. reflexivity.
Qed.

Lemma symbols_bits_roundtrip_witness :
  symbolsToBits [5; 0; 15; 10]%Z (2 ^ 4)
  = Ok (concat (map (to_bits (Z.to_nat 4)) [5; 0; 15; 10]%Z))
  /\ (bits <- symbolsToBits [5; 0; 15; 10]%Z (2 ^ 4) ;; bitsToSymbols bits (2 ^ 4))
     = Ok [5; 0; 15; 10]%Z.
Proof.
  apply symbols_bits_roundtrip; [lia|].
  repeat constructor; vm_compute; congruence.
Defined.

(** ** Wrapping *)




(** ** Integers to bits *)

Lemma pos_digits_width (p : positive) :
  (2 ^ (len (pos_digits p) - 1) <= Zpos p < 2 ^ len (pos_digits p))%Z.
Proof.
  unfold len. induction p as [q IH|q IH|]; cbn [pos_digits].
  - rewrite length_app. simpl length.
    replace (Z.of_nat (length (pos_digits q) + 1) - 1)%Z
      with (Z.succ (Z.of_nat (length (pos_digits q)) - 1)) by lia.
    replace (Z.of_nat (length (pos_digits q) + 1))
      with (Z.succ (Z.of_nat (length (pos_digits q)))) by lia.
    assert (1 <= length (pos_digits q))%nat by (destruct q; simpl; rewrite ?length_app; simpl; lia).
    rewrite !Z.pow_succ_r by lia. lia.
  - rewrite length_app. simpl length.
    replace (Z.of_nat (length (pos_digits q) + 1) - 1)%Z
      with (Z.succ (Z.of_nat (length (pos_digits q)) - 1)) by lia.
    replace (Z.of_nat (length (pos_digits q) + 1))
      with (Z.succ (Z.of_nat (length (pos_digits q)))) by lia.
    assert (1 <= length (pos_digits q))%nat by (destruct q; simpl; rewrite ?length_app; simpl; lia).
    rewrite !Z.pow_succ_r by lia. lia.
  - simpl. lia.
Qed.

Lemma width_unique (v a b : Z) :
  (0 <= a)%Z -> (0 <= b)%Z ->
  (2 ^ a <= v < 2 ^ (a + 1))%Z -> (2 ^ b <= v < 2 ^ (b + 1))%Z -> a = b.
Proof.
  intros Ha Hb [H1 H2] [H3 H4].
  assert (a < b + 1)%Z by (apply (Z.pow_lt_mono_r_iff 2); lia).
  assert (b < a + 1)%Z by (apply (Z.pow_lt_mono_r_iff 2); lia).
  lia.
Qed.

Lemma to_bits_msb_value (c : list Z) :
  Forall is_bit c -> to_bits (length c) (msb_value c) = c.
Proof.
  induction c as [|b c IH] using rev_ind; intros Hc; [reflexivity|].
  apply Forall_app in Hc as [Hc Hb]. rewrite Forall_singleton in Hb.
  rewrite length_app, Nat.add_1_r, msb_value_snoc. cbn [to_bits].
  replace ((2 * msb_value c + b) / 2)%Z with (msb_value c)
    by (destruct Hb; subst b; [rewrite Z.add_0_r, Z.mul_comm, Z.div_mul; lia
                              | apply Z.div_unique with (r := 1%Z); lia]).
  replace ((2 * msb_value c + b) mod 2)%Z with b
    by (destruct Hb; subst b; [rewrite Z.add_0_r, Z.mul_comm, Z.mod_mul; lia
                              | apply Z.mod_unique with (q := msb_value c); lia]).
  rewrite IH by assumption. reflexivity.
Qed.

Lemma msb_value_app (a b : list Z) :
  msb_value (a ++ b) = (msb_value a * 2 ^ len b + msb_value b)%Z.
Proof.
  induction b as [|x b IH] using rev_ind.
  - rewrite app_nil_r. unfold len, msb_value at 3. simpl. lia.
  - rewrite app_assoc, !msb_value_snoc, IH. unfold len. rewrite length_app. simpl length.
    replace (Z.of_nat (length b + 1)) with (Z.succ (Z.of_nat (length b))) by lia.
    rewrite Z.pow_succ_r by lia. ring.
Qed.

Lemma msb_value_ones (k : nat) : msb_value (replicate k 1%Z) = (2 ^ Z.of_nat k - 1)%Z.
Proof.
  induction k as [|k IH]; [reflexivity|].
  rewrite replicate_S_end, msb_value_snoc, IH, Nat2Z.inj_succ, Z.pow_succ_r by lia.
  ring.
Qed.

(** The digits of a positive number, padded to a sufficient width. *)
Lemma zero_pad_digits (p : positive) (k : nat) :
  (Zpos p < 2 ^ Z.of_nat k)%Z ->
  zero_pad k (pos_digits p) = map bit_char (to_bits k (Zpos p)).
Proof.
  intros Hp.
  assert (Hk : k <> 0%nat) by (intros ->; simpl in Hp; lia).
  pose proof (format_0b_bits (to_bits k (Zpos p)) (to_bits_is_bit _ _)) as H.
  rewrite to_bits_length, msb_value_to_bits in H by lia.
  apply H. intros E. apply (f_equal (@length Z)) in E.
  rewrite to_bits_length in E. simpl in E. contradiction.
Qed.

Lemma mapM_bit_chars (c : list Z) :
  Forall is_bit c -> mapM int_of_char (map bit_char c) = Ok c.
Proof.
  induction 1 as [|b c Hb _ IH]; [reflexivity|].
  cbn [map mapM]. rewrite int_of_bit_char, IH by assumption. reflexivity.
Qed.

Lemma binary_repr_nonneg (strict : bool) (n nbits : Z) :
  (1 <= nbits)%Z -> (0 <= n < 2 ^ nbits)%Z ->
  binary_repr strict n nbits = Ok (map bit_char (to_bits (Z.to_nat nbits) n)).
Proof.
  intros Hw Hn. destruct n as [|p|p]; [| |lia].
  - unfold binary_repr. destruct (Z.eqb_spec nbits 0); [lia|]. f_equal.
    generalize (Z.to_nat nbits). intros k. induction k as [|k IH]; [reflexivity|].
    cbn [to_bits]. change (0 / 2)%Z with 0%Z. change (0 mod 2)%Z with 0%Z.
    rewrite map_app, <- IH. apply replicate_S_end.
  - unfold binary_repr. cbn [bin_digits].
    pose proof (pos_digits_width p) as [Hlo Hhi].
    assert (Hb : (len (pos_digits p) <= nbits)%Z).
    { assert (len (pos_digits p) - 1 < nbits)%Z; [|lia].
      apply (Z.pow_lt_mono_r_iff 2); lia. }
    destruct (Z.ltb_spec nbits (len (pos_digits p))); [lia|].
    rewrite andb_false_r, Z.max_r by lia.
    f_equal. apply zero_pad_digits. rewrite Z2Nat.id by lia. apply Hn.
Qed.

Lemma binary_repr_negative (strict : bool) (n nbits : Z) :
  (1 <= nbits)%Z -> (- 2 ^ (nbits - 1) <= n < 0)%Z ->
  binary_repr strict n nbits
  = Ok (map bit_char (to_bits (Z.to_nat nbits) (n + 2 ^ nbits))).
Proof.
  intros Hw Hn. destruct n as [|p|p]; [lia|lia|].
  unfold binary_repr. change (- Z.neg p)%Z with (Z.pos p). cbn [bin_digits].
  pose proof (pos_digits_width p) as [Hlo Hhi].
  set (L := len (pos_digits p)) in *.
  assert (HL : (1 <= L)%Z).
  { unfold L, len. destruct p; simpl; rewrite ?length_app; simpl; lia. }
  set (pw := if (2 ^ (L - 1) =? Z.pos p)%Z then (L - 1)%Z else L).
  assert (Hpw : (0 <= pw)%Z /\ (pw + 1 <= nbits)%Z
                /\ (2 ^ pw <= 2 ^ (pw + 1) + Z.neg p < 2 ^ (pw + 1))%Z).
  { unfold pw. destruct (Z.eqb_spec (2 ^ (L - 1)) (Z.pos p)) as [E|E].
    - replace (L - 1 + 1)%Z with (Z.succ (L - 1)) by lia.
      rewrite Z.pow_succ_r by lia.
      assert (L - 1 < nbits)%Z; [|lia].
      apply (Z.pow_lt_mono_r_iff 2); [lia|lia|].
      assert (2 ^ (nbits - 1) < 2 ^ nbits)%Z by (apply Z.pow_lt_mono_r; lia). lia.
    - replace (L + 1)%Z with (Z.succ L) by lia. rewrite Z.pow_succ_r by lia.
      assert (L - 1 < nbits - 1)%Z; [|lia].
      apply (Z.pow_lt_mono_r_iff 2); lia. }
  destruct Hpw as (Hpw0 & Hpwn & Htlo & Hthi).
  set (twocomp := (2 ^ (pw + 1) + Z.neg p)%Z) in *.
  assert (Htpos : (0 < twocomp)%Z).
  { assert (0 < 2 ^ pw)%Z by (apply Z.pow_pos_nonneg; lia). lia. }
  destruct twocomp as [|q|q] eqn:Etc; [lia| |lia]. cbn [bin_digits].
  pose proof (pos_digits_width q) as [Hqlo Hqhi].
  assert (Hql : (1 <= len (pos_digits q))%Z).
  { unfold len. destruct q; simpl; rewrite ?length_app; simpl; lia. }
  assert (Hlen : len (pos_digits q) = (pw + 1)%Z).
  { assert (len (pos_digits q) - 1 = pw)%Z; [|lia].
    apply (width_unique (Z.pos q)); [lia | lia | |lia].
    replace (len (pos_digits q) - 1 + 1)%Z with (len (pos_digits q)) by lia. lia. }
  rewrite Hlen.
  destruct (Z.ltb_spec nbits (pw + 1)); [lia|].
  rewrite andb_false_r, Z.max_r by lia. f_equal.
  set (k := Z.to_nat (nbits - (pw + 1))).
  set (c := replicate k 1%Z ++ to_bits (Z.to_nat (pw + 1)) (Z.pos q)).
  assert (Hc : Forall is_bit c).
  { unfold c. apply Forall_app. split; [|apply to_bits_is_bit].
    apply Forall_forall. intros x Hx. apply elem_of_replicate in Hx as [-> _].
    right. reflexivity. }
  assert (Hcl : length c = Z.to_nat nbits).
  { unfold c, k. rewrite length_app, length_replicate, to_bits_length. lia. }
  assert (Hcv : msb_value c = (Z.neg p + 2 ^ nbits)%Z).
  { unfold c. rewrite msb_value_app, msb_value_ones, msb_value_to_bits.
    - unfold len. rewrite to_bits_length. unfold k.
      rewrite !Z2Nat.id by lia.
      replace ((2 ^ (nbits - (pw + 1)) - 1) * 2 ^ (pw + 1))%Z
        with (2 ^ (nbits - (pw + 1)) * 2 ^ (pw + 1) - 2 ^ (pw + 1))%Z by ring.
      rewrite <- Z.pow_add_r by lia.
      replace (nbits - (pw + 1) + (pw + 1))%Z with nbits by lia. lia.
    - rewrite Z2Nat.id by lia. lia. }
  rewrite <- Hcv, <- Hcl, to_bits_msb_value by assumption.
  unfold c. rewrite map_app. fold k. f_equal.
  - generalize k. intros j. induction j as [|j IH]; [reflexivity|].
    cbn [replicate map]. rewrite <- IH. reflexivity.
  - rewrite <- zero_pad_digits by (rewrite Z2Nat.id by lia; lia).
    unfold zero_pad. unfold len in Hlen.
    replace (Z.to_nat (pw + 1) - length (pos_digits q))%nat with 0%nat by lia.
    reflexivity.
Qed.

Lemma pos_digits_binary (p : positive) :
  Forall (fun ch => ch = "0"%char \/ ch = "1"%char) (pos_digits p).
Proof.
  induction p as [q IH|q IH|]; cbn [pos_digits].
  - apply Forall_app. split; [exact IH|]. constructor; [right; reflexivity|constructor].
  - apply Forall_app. split; [exact IH|]. constructor; [left; reflexivity|constructor].
  - constructor; [right; reflexivity|constructor].
Qed.

(** Whatever the number and the width, the text [binary_repr] returns
    holds binary digits only, so that reading it back as integers cannot
    fail. *)
Lemma binary_repr_binary (strict : bool) (num width : Z) (s : list ascii) :
  binary_repr strict num width = Ok s ->
  Forall (fun ch => ch = "0"%char \/ ch = "1"%char) s.
Proof.
  destruct num as [|p|p]; unfold binary_repr.
  - intros [= <-]. apply Forall_forall. intros x Hx.
    apply elem_of_replicate in Hx as [-> _]. left. reflexivity.
  - cbn [bin_digits]. destruct (strict && _); [discriminate|]. intros [= <-].
    unfold zero_pad. apply Forall_app. split; [|apply pos_digits_binary].
    apply Forall_forall. intros x Hx. apply elem_of_replicate in Hx as [-> _].
    left. reflexivity.
  - change (- Z.neg p)%Z with (Z.pos p). cbn [bin_digits].
    pose proof (pos_digits_width p) as [Hlo Hhi].
    set (L := len (pos_digits p)) in *.
    assert (HL : (1 <= L)%Z).
    { unfold L, len. destruct p; simpl; rewrite ?length_app; simpl; lia. }
    set (pw := if (2 ^ (L - 1) =? Z.pos p)%Z then (L - 1)%Z else L).
    assert (Hpos : (0 < 2 ^ (pw + 1) + Z.neg p)%Z).
    { unfold pw. destruct (Z.eqb_spec (2 ^ (L - 1)) (Z.pos p)) as [E|E].
      - replace (L - 1 + 1)%Z with L by lia. lia.
      - replace (L + 1)%Z with (Z.succ L) by lia. rewrite Z.pow_succ_r by lia. lia. }
    destruct (2 ^ (pw + 1) + Z.neg p)%Z as [|q|q]; [lia| |lia]. cbn [bin_digits].
    destruct (strict && _); [discriminate|]. intros [= <-].
    apply Forall_app. split; [|apply pos_digits_binary].
    apply Forall_forall. intros x Hx. apply elem_of_replicate in Hx as [-> _].
    right. reflexivity.
Qed.

(** For [1 <= nbits], [intToBinary n nbits] is the [nbits]-bit pattern of
    [n], most significant bit first, for every [n] from [-2^(nbits-1)] to
    [2^nbits - 1]: a negative number is written in two's complement, and so
    has the bits of [n + 2^nbits] (as -1 and 15 on four bits). *)
Theorem intToBinary_twos_complement (strict : bool) (n nbits : Z) :
  (1 <= nbits)%Z -> (- 2 ^ (nbits - 1) <= n < 2 ^ nbits)%Z ->
  intToBinary strict n nbits = Ok (to_bits (Z.to_nat nbits) (n mod 2 ^ nbits))
  /\ (n < 0 -> intToBinary strict n nbits = intToBinary strict (n + 2 ^ nbits) nbits)%Z.
Proof.
  intros Hw Hn.
  assert (Hp : (0 < 2 ^ nbits)%Z) by (apply Z.pow_pos_nonneg; lia).
  assert (Hh : (0 < 2 ^ (nbits - 1))%Z) by (apply Z.pow_pos_nonneg; lia).
  assert (Hd : (2 ^ nbits = 2 * 2 ^ (nbits - 1))%Z).
  { rewrite <- Z.pow_succ_r by lia. f_equal. lia. }
  assert (Hnn : forall v, (0 <= v < 2 ^ nbits)%Z ->
                          intToBinary strict v nbits = Ok (to_bits (Z.to_nat nbits) v)).
  { intros v Hv. unfold intToBinary. rewrite binary_repr_nonneg by assumption.
    simpl rbind. apply mapM_bit_chars, to_bits_is_bit. }
  destruct (Z.ltb_spec n 0) as [Hneg|Hpos].
  - assert (Hm : (n mod 2 ^ nbits = n + 2 ^ nbits)%Z).
    { symmetry. apply Z.mod_unique with (q := (-1)%Z); lia. }
    assert (Hv : intToBinary strict n nbits
                 = Ok (to_bits (Z.to_nat nbits) (n + 2 ^ nbits))).
    { unfold intToBinary. rewrite binary_repr_negative by lia.
      simpl rbind. apply mapM_bit_chars, to_bits_is_bit. }
    rewrite Hm. split; [exact Hv|]. intros _. rewrite Hv, Hnn by lia. reflexivity.
  - rewrite Z.mod_small by lia. split; [apply Hnn; lia | lia].
Qed.

Lemma intToBinary_twos_complement_witness :
  intToBinary true (-1) 4 = Ok (to_bits (Z.to_nat 4) ((-1) mod 2 ^ 4))
  /\ (-1 < 0 -> intToBinary true (-1) 4 = intToBinary true (-1 + 2 ^ 4) 4)%Z.
Proof. apply intToBinary_twos_complement; lia. Defined.

(** ** Zeroed edges of the plain derivative filter *)

Lemma slice_within {A : Type} (l : list A) (start stop : Z) :
  (slice_start l start + slice_len l start stop <= length l)%nat.
Proof.
  unfold slice_start, slice_len, slice_bound, len.
  destruct (Z.ltb_spec start 0); destruct (Z.ltb_spec stop 0); lia.
Qed.

Lemma fillslice_lookup {A : Type} (l : list A) (start stop : Z) (a : A) (i : nat) :
  (i < length l)%nat ->
  fillslice l start stop a !! i
  = if ((slice_start l start <=? i) && (i <? slice_start l start + slice_len l start stop))%nat
    then Some a else l !! i.
Proof.
  intros Hi. unfold fillslice.
  pose proof (slice_within l start stop) as Hw.
  set (s := slice_start l start) in *. set (n := slice_len l start stop) in *.
  destruct (Nat.leb_spec s i) as [Hs|Hs]; cbn [andb].
  - rewrite lookup_app_r by (rewrite length_take; lia).
    rewrite length_take, Nat.min_l by lia.
    destruct (Nat.ltb_spec i (s + n)) as [Hn|Hn].
    + rewrite lookup_app_l by (rewrite length_replicate; lia).
      apply lookup_replicate_2. lia.
    + rewrite lookup_app_r by (rewrite length_replicate; lia).
      rewrite length_replicate, lookup_drop. f_equal. lia.
  - rewrite lookup_app_l by (rewrite length_take; lia).
    apply lookup_take_lt. lia.
Qed.

Lemma zeroed_edges_lookup {A : Type} (l : list A) (pad : Z) (a : A) (i : nat) :
  (1 <= pad)%Z -> (i < length l)%nat ->
  <[(length l - 1)%nat := a]> (fillslice (fillslice l 0 pad a) (- pad) (-1) a) !! i
  = if ((Z.of_nat i <? pad) || (len l - pad <=? Z.of_nat i))%Z then Some a else l !! i.
Proof.
  intros Hp Hi.
  destruct (Nat.eq_dec i (length l - 1)%nat) as [E|E].
  - subst i. rewrite list_lookup_insert_eq by (rewrite !fillslice_length; lia).
    destruct (Z.leb_spec (len l - pad) (Z.of_nat (length l - 1))) as [_|H];
      [rewrite orb_true_r; reflexivity | unfold len in H; lia].
  - rewrite list_lookup_insert_ne by lia.
    rewrite fillslice_lookup by (rewrite fillslice_length; lia).
    rewrite fillslice_lookup by lia.
    unfold slice_start, slice_len, slice_bound, len. rewrite !fillslice_length.
    change (0 <? 0)%Z with false. change (-1 <? 0)%Z with true. cbv iota.
    destruct (Z.ltb_spec (- pad) 0); [|lia].
    destruct (Z.ltb_spec pad 0); [lia|].
    repeat match goal with
           | |- context [(?a <=? ?b)%nat] => destruct (Nat.leb_spec a b)
           | |- context [(?a <? ?b)%nat] => destruct (Nat.ltb_spec a b)
           | |- context [(?a <=? ?b)%Z] => destruct (Z.leb_spec a b)
           | |- context [(?a <? ?b)%Z] => destruct (Z.ltb_spec a b)
           end; cbn [andb orb]; try reflexivity; lia.
Qed.

(** With [zero_edge] set, [derivativeFilter2] returns the output of the
    plain filter with its first and its last [(N-1)/2] samples replaced by
    zero and the samples in between untouched; a signal of fewer than [N]
    samples therefore comes back as zeros only. *)
Theorem derivativeFilter2_zeroed_edges (x : list C) (N : Z) (Tsamp : R) :
  ((N + 1) mod 4 = 0)%Z -> (0 <= N)%Z -> Tsamp <> 0 -> (1 <= len x)%Z ->
  exists xd xz,
    derivativeFilter2 x N Tsamp false = Ok xd
    /\ derivativeFilter2 x N Tsamp true = Ok xz
    /\ len xz = len x
    /\ (forall i, (0 <= i < len x)%Z ->
          getitem xz i
          = if ((i <? pad_of N) || (len x - pad_of N <=? i))%Z then Ok C0
            else getitem xd i)
    /\ (len x < N -> xz = replicate (length x) C0)%Z.
Proof.
  intros HN H0 HT Hx.
  destruct (createDerivativeFilter_length N Tsamp HN H0 HT) as (d & Hd & Hdl).
  destruct (valid_derivative_length N HN H0) as [H3 Hodd].
  destruct (pad_of_odd N ltac:(lia) Hodd) as [Hp _].
  destruct (convolve_length Cscale Cadd C0 x d) as (c & Hc & Hlen).
  { apply len_nonempty. lia. }
  { apply len_nonempty. lia. }
  set (xd := slice c (pad_of N) (- pad_of N)).
  assert (Hs : len xd = len x) by (unfold xd; rewrite slice_trim_length; lia).
  set (xz := <[(length xd - 1)%nat := C0]>
               (fillslice (fillslice xd 0 (pad_of N) C0) (- pad_of N) (-1) C0)).
  assert (Hzl : length xz = length xd).
  { unfold xz. rewrite length_insert, !fillslice_length. reflexivity. }
  assert (Hlook : forall i : nat, (i < length xd)%nat ->
            xz !! i = if ((Z.of_nat i <? pad_of N) || (len xd - pad_of N <=? Z.of_nat i))%Z
                      then Some C0 else xd !! i).
  { intros i Hi. apply zeroed_edges_lookup; lia. }
  exists xd, xz. split; [|split; [|split; [|split]]].
  - unfold derivativeFilter2. rewrite Hd. simpl rbind.
    unfold convolveC. rewrite Hc. reflexivity.
  - unfold derivativeFilter2. rewrite Hd. simpl rbind.
    unfold convolveC. rewrite Hc. simpl rbind. fold xd.
    unfold setitem. change (-1 <? 0)%Z with true. cbv iota zeta.
    unfold len. rewrite !fillslice_length. fold (len xd).
    destruct (Z.ltb_spec (-1 + len xd) 0); [lia|].
    destruct (Z.leb_spec (len xd) (-1 + len xd)); [lia|].
    simpl. unfold xz. do 2 f_equal. unfold len. lia.
  - unfold len in *. lia.
  - intros i Hi.
    assert (Hin : (Z.to_nat i < length xd)%nat) by (unfold len in *; lia).
    specialize (Hlook (Z.to_nat i) Hin). rewrite Z2Nat.id, Hs in Hlook by lia.
    unfold getitem. cbv zeta.
    destruct (Z.ltb_spec i 0); [lia|].
    destruct (Z.ltb_spec i 0); [lia|]. rewrite Hlook.
    destruct ((i <? pad_of N) || (len x - pad_of N <=? i))%Z; reflexivity.
  - intros Hshort. apply list_eq. intros i.
    destruct (Nat.lt_ge_cases i (length xd)) as [Hi|Hi].
    + rewrite Hlook by assumption.
      rewrite lookup_replicate_2 by (unfold len in *; lia).
      destruct (Z.ltb_spec (Z.of_nat i) (pad_of N)); [reflexivity|].
      destruct (Z.leb_spec (len xd - pad_of N) (Z.of_nat i)); [reflexivity|].
      unfold len in *. lia.
    + rewrite !lookup_ge_None_2; [reflexivity | | lia].
      rewrite length_replicate. unfold len in *. lia.
Qed.

Lemma derivativeFilter2_zeroed_edges_witness :
  exists xd xz,
    derivativeFilter2 [C1; C0; C1] 51 1 false = Ok xd
    /\ derivativeFilter2 [C1; C0; C1] 51 1 true = Ok xz
    /\ len xz = len [C1; C0; C1]
    /\ (forall i, (0 <= i < len [C1; C0; C1])%Z ->
          getitem xz i
          = if ((i <? pad_of 51) || (len [C1; C0; C1] - pad_of 51 <=? i))%Z then Ok C0
            else getitem xd i)
    /\ (len [C1; C0; C1] < 51 -> xz = replicate (length [C1; C0; C1]) C0)%Z.
Proof.
  apply derivativeFilter2_zeroed_edges;
    [reflexivity | lia | lra | unfold len; simpl; lia].
Defined.

(** ** Frequency pulses *)

Lemma int_trunc_IZR (k : Z) : (0 <= k)%Z -> int_trunc (IZR k) = k.
Proof.
  intros Hk. unfold int_trunc.
  destruct (Rle_dec 0 (IZR k)) as [_|H]; [|exfalso; apply H, IZR_le; lia].
  destruct (base_Int_part (IZR k)) as [H1 H2].
  assert (Int_part (IZR k) <= k)%Z by (apply le_IZR; lra).
  assert (k < Int_part (IZR k) + 1)%Z by (apply lt_IZR; rewrite plus_IZR; lra).
  lia.
Qed.

Lemma Rsum_app (a b : list R) : Rsum (a ++ b) = Rsum a + Rsum b.
Proof. unfold Rsum. induction a as [|x a IH]; simpl; [lra | rewrite IH; lra]. Qed.

Lemma Rsum_replicate (n : nat) (v : R) : Rsum (replicate n v) = INR n * v.
Proof.
  induction n as [|n IH]; [simpl; lra|].
  cbn [replicate]. unfold Rsum in *. cbn [fold_right]. rewrite IH, S_INR. lra.
Qed.

Lemma Rsum_scaled (c : R) (f : nat -> R) (l : list nat) :
  Rsum (map (fun j => c * f j) l) = c * Rsum (map f l).
Proof. unfold Rsum. induction l as [|x l IH]; simpl; [lra | rewrite IH; lra]. Qed.

Lemma Rsum_telescope (F : nat -> R) (m : nat) :
  Rsum (map (fun j => F (S j) - F j) (seq 0 m)) = F m - F 0%nat.
Proof.
  induction m as [|m IH]; [simpl; unfold Rsum; simpl; lra|].
  rewrite seq_S, map_app, Rsum_app, IH. unfold Rsum. simpl. lra.
Qed.

(** The samples of a cosine over one whole period add up to zero. *)
Lemma cos_sum_period (n : nat) :
  (2 <= n)%nat -> Rsum (map (fun j => cos (2 * PI * INR j / INR n)) (seq 0 n)) = 0.
Proof.
  intros Hn.
  assert (Hn0 : 2 <= INR n) by (change 2 with (INR 2); apply le_INR; assumption).
  assert (HPI := PI_RGT_0).
  assert (Hb : 0 < PI / INR n < PI).
  { split.
    - apply Rdiv_lt_0_compat; lra.
    - apply (Rmult_lt_reg_r (INR n)); [lra|].
      replace (PI / INR n * INR n) with PI by (field; lra). nra. }
  assert (Hs : 0 < sin (PI / INR n)) by (apply sin_gt_0; lra).
  set (F := fun j : nat => sin ((2 * INR j - 1) * PI / INR n)).
  assert (Ht : Rsum (map (fun j => 2 * sin (PI / INR n) * cos (2 * PI * INR j / INR n))
                         (seq 0 n)) = F n - F 0%nat).
  { rewrite <- Rsum_telescope. f_equal. apply map_ext. intros j. unfold F.
    rewrite S_INR.
    replace ((2 * (INR j + 1) - 1) * PI / INR n)
      with (2 * PI * INR j / INR n + PI / INR n) by (field; lra).
    replace ((2 * INR j - 1) * PI / INR n)
      with (2 * PI * INR j / INR n - PI / INR n) by (field; lra).
    rewrite sin_plus, sin_minus. ring. }
  rewrite Rsum_scaled in Ht.
  assert (HF : F n - F 0%nat = 0).
  { unfold F. simpl INR.
    replace ((2 * INR n - 1) * PI / INR n) with (- (PI / INR n) + 2 * PI) by (field; lra).
    replace ((2 * 0 - 1) * PI / INR n) with (- (PI / INR n)) by (field; lra).
    rewrite sin_plus, sin_2PI, cos_2PI. ring. }
  rewrite HF in Ht. nra.
Qed.

(** When the pulse length [L*T] holds a whole number [k >= 1] of sample
    periods, [lrecPulse] returns [k] samples of height [1/(2*L*T)] on [k]
    instants, and the samples times the sample period add up to one half. *)
Theorem lrecPulse_area (L T fsamp : R) (k : Z) :
  0 < L * T -> (1 <= k)%Z -> L * T * fsamp = IZR k ->
  exists g t, lrecPulse L T fsamp = Ok (g, t)
    /\ len g = k /\ len t = k
    /\ g = replicate (Z.to_nat k) (1 / (2 * L * T))
    /\ Rsum g / fsamp = 1 / 2.
Proof.
  intros HLT Hk Hf. unfold lrecPulse. rewrite Hf, int_trunc_IZR by lia.
  unfold np_linspace, ones. destruct (Z.ltb_spec k 0); [lia|]. simpl rbind.
  rewrite pydiv_Ok by lra. simpl rbind.
  assert (Hg : map (Rmult (1 / (2 * L * T))) (replicate (Z.to_nat k) 1)
               = replicate (Z.to_nat k) (1 / (2 * L * T))).
  { generalize (Z.to_nat k). intros n. induction n as [|n IH]; [reflexivity|].
    cbn [replicate map]. rewrite IH, Rmult_1_r. reflexivity. }
  rewrite Hg. eexists _, _. split; [reflexivity|].
  assert (Hk0 : 0 < IZR k) by (apply IZR_lt; lia).
  assert (Hfs : fsamp <> 0) by (intros ->; rewrite Rmult_0_r in Hf; lra).
  split; [|split; [|split]].
  - unfold len. rewrite length_replicate. lia.
  - unfold len, linspace. destruct (Z.eqb_spec k 1) as [->|]; [reflexivity|].
    rewrite length_map, range_length. lia.
  - reflexivity.
  - assert (HL : L <> 0) by (intros ->; rewrite Rmult_0_l in HLT; lra).
    assert (HT : T <> 0) by (intros ->; rewrite Rmult_0_r in HLT; lra).
    rewrite Rsum_replicate, INR_IZR_INZ, Z2Nat.id, <- Hf by lia.
    field. repeat split; assumption.
Qed.

Lemma lrecPulse_area_witness :
  exists g t, lrecPulse 1 1 8 = Ok (g, t)
    /\ len g = 8%Z /\ len t = 8%Z
    /\ g = replicate (Z.to_nat 8) (1 / (2 * 1 * 1))
    /\ Rsum g / 8 = 1 / 2.
Proof. apply lrecPulse_area; [lra | lia | lra]. Defined.

Lemma zip_with_ones (l : list R) (n : nat) :
  n = length l -> zip_with Rmult l (replicate n 1) = l.
Proof.
  intros ->. induction l as [|x l IH]; [reflexivity|].
  cbn [length replicate zip_with]. rewrite IH, Rmult_1_r. reflexivity.
Qed.

Lemma Rsum_complement (c : R) (f : nat -> R) (l : list nat) :
  Rsum (map (fun j => c * (1 - f j)) l) = c * (INR (length l) - Rsum (map f l)).
Proof.
  induction l as [|x l IH]; [unfold Rsum; simpl; lra|].
  cbn [map length]. rewrite S_INR. unfold Rsum in *. cbn [fold_right]. rewrite IH. lra.
Qed.

(** The samples of [lrcPulse] in closed form, for a pulse length of
    [m + 1] sample periods. *)
Lemma lrcPulse_closed_form (L T fsamp : R) (m : nat) :
  0 < L * T -> (1 <= m)%nat -> L * T * fsamp = IZR (Z.of_nat (S m)) ->
  lrcPulse L T fsamp
  = Ok (map (fun j => 1 / (2 * L * T) * (1 - cos (2 * PI * INR j / INR m))) (seq 0 (S m)),
        linspace 0 (L * T) (Z.of_nat (S m))).
Proof.
  intros HLT Hm Hf. unfold lrcPulse. rewrite Hf, int_trunc_IZR by lia.
  unfold np_linspace, ones. destruct (Z.ltb_spec (Z.of_nat (S m)) 0); [lia|].
  simpl rbind. rewrite pydiv_Ok by lra. simpl rbind.
  assert (Hlen : length (linspace 0 (L * T) (Z.of_nat (S m))) = S m).
  { unfold linspace. destruct (Z.eqb_spec (Z.of_nat (S m)) 1); [lia|].
    rewrite length_map, range_length. lia. }
  rewrite broadcast2_same_length by (rewrite length_map, length_replicate, Hlen; lia).
  simpl rbind. rewrite zip_with_ones by (rewrite length_map, Hlen; lia).
  do 2 f_equal. unfold linspace.
  destruct (Z.eqb_spec (Z.of_nat (S m)) 1); [lia|].
  unfold range. rewrite Z.sub_0_r, Nat2Z.id, !map_map.
  apply map_ext. intros j.
  assert (HL : L <> 0) by (intros ->; rewrite Rmult_0_l in HLT; lra).
  assert (HT : T <> 0) by (intros ->; rewrite Rmult_0_r in HLT; lra).
  assert (Hm0 : INR m <> 0) by (apply not_0_INR; lia).
  replace (Z.of_nat (S m) - 1)%Z with (Z.of_nat m) by lia.
  rewrite Z.add_0_l, <- !INR_IZR_INZ.
  f_equal. f_equal. f_equal. field. repeat split; assumption.
Qed.

(** When the pulse length [L*T] holds a whole number [k >= 3] of sample
    periods, [lrcPulse] returns [k] samples between 0 and [1/(L*T)] that
    start and end at zero; times the sample period they add up to
    [1/2 - 1/(2*k)]. *)
Theorem lrcPulse_samples (L T fsamp : R) (k : Z) :
  0 < L * T -> (3 <= k)%Z -> L * T * fsamp = IZR k ->
  exists g t, lrcPulse L T fsamp = Ok (g, t)
    /\ len g = k
    /\ getitem g 0 = Ok 0 /\ getitem g (-1) = Ok 0
    /\ Forall (fun v => 0 <= v <= 1 / (L * T)) g
    /\ Rsum g / fsamp = 1 / 2 - 1 / (2 * IZR k).
Proof.
  intros HLT Hk Hf.
  set (m := (Z.to_nat k - 1)%nat).
  assert (Hkm : k = Z.of_nat (S m)) by (unfold m; lia).
  assert (Hm : (2 <= m)%nat) by (unfold m; lia).
  assert (HL : L <> 0) by (intros ->; rewrite Rmult_0_l in HLT; lra).
  assert (HT : T <> 0) by (intros ->; rewrite Rmult_0_r in HLT; lra).
  assert (Hm0 : 2 <= INR m) by (change 2 with (INR 2); apply le_INR; assumption).
  assert (Hc : 0 < 1 / (2 * L * T)).
  { apply Rdiv_lt_0_compat; lra. }
  rewrite Hkm in Hf. rewrite (lrcPulse_closed_form L T fsamp m HLT ltac:(lia) Hf).
  eexists _, _. split; [reflexivity|]. split; [|split; [|split; [|split]]].
  - unfold len. rewrite length_map, length_seq. lia.
  - apply (getitem_nat _ 0). rewrite list_lookup_fmap, lookup_seq_lt by lia.
    simpl. f_equal.
    replace (2 * PI * 0 / INR m) with 0 by (field; lra). rewrite cos_0. ring.
  - unfold getitem, len. rewrite length_map, length_seq. cbv zeta.
    change (-1 <? 0)%Z with true. cbv iota.
    destruct (Z.ltb_spec (-1 + Z.of_nat (S m)) 0); [lia|].
    replace (Z.to_nat (-1 + Z.of_nat (S m))) with m by lia.
    rewrite list_lookup_fmap, lookup_seq_lt by lia. simpl. f_equal.
    replace (2 * PI * INR m / INR m) with (2 * PI) by (field; lra).
    rewrite cos_2PI. ring.
  - apply Forall_forall. intros v Hv. apply list_elem_of_fmap in Hv as (j & -> & _).
    pose proof (COS_bound (2 * PI * INR j / INR m)) as [Hlo Hhi].
    replace (1 / (L * T)) with (1 / (2 * L * T) * 2) by (field; split; assumption).
    split; [apply Rmult_le_pos; lra | apply Rmult_le_compat_l; lra].
  - rewrite seq_S, map_app, Rsum_app. cbn [map]. simpl Nat.add.
    rewrite Rsum_complement, length_seq, cos_sum_period by assumption.
    unfold Rsum at 1. cbn [fold_right].
    replace (2 * PI * INR m / INR m) with (2 * PI) by (field; lra).
    rewrite cos_2PI.
    assert (Hfs : fsamp = INR (S m) / (L * T)).
    { rewrite INR_IZR_INZ, <- Hf. field. split; assumption. }
    rewrite Hkm, <- INR_IZR_INZ, Hfs, S_INR. field.
    repeat split; try assumption; lra.
Qed.

Lemma lrcPulse_samples_witness :
  exists g t, lrcPulse 1 1 8 = Ok (g, t)
    /\ len g = 8%Z
    /\ getitem g 0 = Ok 0 /\ getitem g (-1) = Ok 0
    /\ Forall (fun v => 0 <= v <= 1 / (1 * 1)) g
    /\ Rsum g / 8 = 1 / 2 - 1 / (2 * 8).
Proof. apply lrcPulse_samples; [lra | lia | lra]. Defined.

(** ** Bits beyond the last whole group *)

Lemma group_slice_tail (n : nat) (cs : list (list Z)) (extra : list Z)
      (j : nat) (c : list Z) :
  Forall (fun c => length c = n) cs -> cs !! j = Some c ->
  slice (concat cs ++ extra) (Z.of_nat j * Z.of_nat n) ((Z.of_nat j + 1) * Z.of_nat n) = c.
Proof.
  intros Hcs Hj.
  pose proof (lookup_lt_Some _ _ _ Hj) as Hlt.
  pose proof (concat_length_uniform n cs Hcs) as Hl.
  replace (Z.of_nat j * Z.of_nat n)%Z with (Z.of_nat (j * n)) by lia.
  replace ((Z.of_nat j + 1) * Z.of_nat n)%Z with (Z.of_nat (j * n + n)) by lia.
  rewrite slice_nat by (rewrite length_app; nia).
  replace (j * n + n - j * n)%nat with n by lia.
  rewrite drop_app_le by nia.
  rewrite take_app_le by (rewrite length_drop; nia).
  eapply concat_group; eassumption.
Qed.

Lemma bitsToSymbols_groups_tail (n : nat) (cs : list (list Z)) (extra : list Z) :
  (1 <= n <= 63)%nat -> (length extra < n)%nat ->
  Forall (fun c => length c = n) cs -> Forall (Forall is_bit) cs ->
  bitsToSymbols (concat cs ++ extra) (2 ^ Z.of_nat n) = Ok (map msb_value cs).
Proof.
  intros Hn He Hlen Hbits. unfold bitsToSymbols.
  rewrite int_log2_pow2 by lia. simpl rbind.
  destruct (Z.eqb_spec (Z.of_nat n) 0); [lia|]. simpl rbind.
  assert (Hq : (len (concat cs ++ extra) / Z.of_nat n)%Z = len (map msb_value cs)).
  { unfold len. rewrite length_app, (concat_length_uniform n), length_map by assumption.
    symmetry. apply Z.div_unique with (r := Z.of_nat (length extra)); lia. }
  rewrite Hq.
  rewrite (for_each_cells _ 0 (map msb_value cs)).
  - simpl. unfold len. rewrite Nat2Z.id, length_map.
    rewrite drop_ge by (rewrite length_replicate; lia).
    rewrite app_nil_r. reflexivity.
  - unfold len. rewrite Nat2Z.id, length_replicate. simpl. lia.
  - intros j v s Hv Hs. rewrite list_lookup_fmap in Hv.
    destruct (cs !! j) as [c|] eqn:Hc; [|discriminate]. injection Hv as <-.
    rewrite (group_slice_tail n cs extra j c) by assumption.
    assert (Hc1 : Forall is_bit c).
    { eapply (proj1 (Forall_forall _ _) Hbits). eapply list_elem_of_lookup_2. eassumption. }
    assert (Hc2 : length c = n).
    { eapply (proj1 (Forall_forall _ _) Hlen c). eapply list_elem_of_lookup_2. eassumption. }
    pose proof (group_symbol c (Z.of_nat n) Hc1 ltac:(unfold len; lia) ltac:(lia)) as Hg.
    apply rbind_inv_Ok in Hg as (p & -> & Hp). simpl. congruence.
Qed.

(** [bitsToSymbols] reads whole groups of [n] bits only: up to [n - 1]
    further items after the last whole group, whatever they are, do not
    change the symbols returned. *)
Theorem bitsToSymbols_ignores_incomplete_group (n : Z) (bits extra : list Z) :
  (1 <= n <= 63)%Z -> Forall is_bit bits -> (len bits mod n = 0)%Z ->
  (len extra < n)%Z ->
  bitsToSymbols (bits ++ extra) (2 ^ n) = bitsToSymbols bits (2 ^ n)
  /\ exists syms, bitsToSymbols bits (2 ^ n) = Ok syms /\ (len syms * n = len bits)%Z.
Proof.
  intros Hn Hbits Hmod He.
  apply Z.mod_divide in Hmod; [|lia]. destruct Hmod as [k Hk].
  assert (Hk0 : (0 <= k)%Z) by (unfold len in Hk; nia).
  pose proof (chunks_spec (Z.to_nat n) (Z.to_nat k) bits) as Hc.
  destruct Hc as (Hcat & Hlen & Hnum); [unfold len in Hk; nia|].
  pose proof (chunks_Forall is_bit (Z.to_nat n) (Z.to_nat k) bits Hbits) as Hcb.
  set (cs := chunks (Z.to_nat n) (Z.to_nat k) bits) in *. clearbody cs. subst bits.
  assert (Hm : n = Z.of_nat (Z.to_nat n)) by lia.
  set (m := Z.to_nat n) in *. clearbody m. subst n.
  rewrite bitsToSymbols_groups_tail by (assumption || unfold len in He; lia).
  rewrite bitsToSymbols_groups by (assumption || lia).
  split; [reflexivity|]. eexists. split; [reflexivity|].
  unfold len in *. rewrite length_map, Hnum. lia.
Qed.

Lemma bitsToSymbols_ignores_incomplete_group_witness :
  bitsToSymbols ([0; 1; 1; 0] ++ [1; 7; 1])%Z (2 ^ 4) = bitsToSymbols [0; 1; 1; 0]%Z (2 ^ 4)
  /\ exists syms, bitsToSymbols [0; 1; 1; 0]%Z (2 ^ 4) = Ok syms
                  /\ (len syms * 4 = len [0; 1; 1; 0]%Z)%Z.
Proof.
  apply bitsToSymbols_ignores_incomplete_group.
  - lia.
  - repeat (constructor; [unfold is_bit; lia|]). constructor.
  - reflexivity.
  - reflexivity.
Defined.
